(** * CREST: shallow embedding of the GCS geometry, the orientation model,
    the difference image modifier, the map-sequence frame update and the
    multi-view time synchronisation.

    Lengths and angles are real numbers ([R]); the floating-point results
    NaN of numpy are made explicit as [None] where a source path can produce
    them. Python exceptions are the constructors of [py_error]. *)

From Stdlib Require Import Reals Psatz List ZArith String Bool.
From Stdlib Require Import Sorting.Sorted Sorting.Permutation.
Import ListNotations.

(** ** Python exceptions and fallible results *)

Inductive py_error : Type :=
  | ValueError
  | TypeError
  | IndexError
  | AttributeError
  | RuntimeWarning.

Inductive result (A : Type) : Type :=
  | Ok : A -> result A
  | Err : py_error -> result A.
Arguments Ok {A} _.
Arguments Err {A} _.

Definition bind {A B : Type} (r : result A) (f : A -> result B) : result B :=
  match r with
  | Ok a => f a
  | Err e => Err e
  end.

Notation "'let!' x := r 'in' f" := (bind r (fun x => f))
  (at level 200, x name, r at level 100, f at level 200).

(** ** Geometry: [crest/models/base/gcs.py], class [GCSGeometry] *)

Module Geometry.

Open Scope R_scope.

(** Boolean comparisons on reals, as Python's [<=], [<] on floats. *)
Definition Rle_b (x y : R) : bool := if Rle_dec x y then true else false.
Definition Rlt_b (x y : R) : bool := if Rlt_dec x y then true else false.

(** The four stored attributes [_half_angle], [_aspect_ratio],
    [_leading_edge] and [_cone_height] of a [GCSGeometry] object. *)
Record GCSGeometry : Type := mkGCSGeometry {
  half_angle : R;
  aspect_ratio : R;
  leading_edge : R;
  cone_height : R
}.

(** [GCSGeometry.compute_cone_height] *)
Definition compute_cone_height (half_angle aspect_ratio leading_edge : R) : R :=
  leading_edge * cos half_angle * (1 - aspect_ratio) / (1 + sin half_angle).

(** [GCSGeometry.compute_leading_edge] *)
Definition compute_leading_edge (half_angle aspect_ratio cone_height : R) : R :=
  cone_height * (1 + sin half_angle) / (cos half_angle * (1 - aspect_ratio)).

(** Setter of [leading_edge]: stores the value and recomputes the cone height. *)
Definition set_leading_edge (s : GCSGeometry) (value : R) : GCSGeometry :=
  {| half_angle := half_angle s;
     aspect_ratio := aspect_ratio s;
     leading_edge := value;
     cone_height := compute_cone_height (half_angle s) (aspect_ratio s) value |}.

(** Setter of [cone_height]: stores the value and recomputes the leading edge. *)
Definition set_cone_height (s : GCSGeometry) (value : R) : GCSGeometry :=
  {| half_angle := half_angle s;
     aspect_ratio := aspect_ratio s;
     leading_edge := compute_leading_edge (half_angle s) (aspect_ratio s) value;
     cone_height := value |}.

(** Setter of [half_angle]: stores the angle, then re-runs the leading-edge
    setter with the stored leading edge. *)
Definition set_half_angle (s : GCSGeometry) (value : R) : GCSGeometry :=
  let s1 := {| half_angle := value;
               aspect_ratio := aspect_ratio s;
               leading_edge := leading_edge s;
               cone_height := cone_height s |} in
  set_leading_edge s1 (leading_edge s1).

(** Setter of [aspect_ratio]: stores the ratio (no check of its range), then
    re-runs the leading-edge setter with the stored leading edge. *)
Definition set_aspect_ratio (s : GCSGeometry) (value : R) : GCSGeometry :=
  let s1 := {| half_angle := half_angle s;
               aspect_ratio := value;
               leading_edge := leading_edge s;
               cone_height := cone_height s |} in
  set_leading_edge s1 (leading_edge s1).

(** [GCSGeometry.__init__]: exactly one of [leading_edge] and [cone_height]
    must be given; the attributes not yet set are overwritten by the setter. *)
Definition init (half_angle aspect_ratio : R)
    (leading_edge cone_height : option R) : result GCSGeometry :=
  let s0 := mkGCSGeometry half_angle aspect_ratio 0 0 in
  match leading_edge, cone_height with
  | None, None => Err ValueError
  | Some _, Some _ => Err ValueError
  | None, Some h => Ok (set_cone_height s0 h)
  | Some le, None => Ok (set_leading_edge s0 le)
  end.

(** Derived quantities. *)
Definition h (s : GCSGeometry) : R := cone_height s.
Definition rho (s : GCSGeometry) : R := h s * tan (half_angle s).
Definition b (s : GCSGeometry) : R := h s / cos (half_angle s).

(** [np.arcsin] and [np.sqrt]: NaN ([None]) outside their real domain. *)
Definition np_arcsin (x : R) : option R :=
  if Rlt_b x (-1) || Rlt_b 1 x then None else Some (asin x).
Definition np_sqrt (x : R) : option R :=
  if Rlt_b x 0 then None else Some (sqrt x).

(** [delta = np.arcsin(aspect_ratio)] *)
Definition delta (s : GCSGeometry) : option R := np_arcsin (aspect_ratio s).

(** [GCSGeometry.X0] *)
Definition X0 (s : GCSGeometry) (beta : R) : R :=
  let k_sqr := aspect_ratio s ^ 2 in
  (rho s + b s * k_sqr * sin beta) / (1 - k_sqr).

(** The argument of [np.sqrt] in [GCSGeometry.R]. Like the rest of this
    module it is evaluated over the reals: the rounding of the source's
    float64 arithmetic is not modelled, so a value that is [0] here may be
    computed slightly negative by numpy. *)
Definition R_sqr (s : GCSGeometry) (beta : R) : R :=
  let k_sqr := aspect_ratio s ^ 2 in
  X0 s beta ^ 2 + (k_sqr * b s * b s - rho s * rho s) / (1 - k_sqr).

(** [GCSGeometry.R] *)
Definition R_ (s : GCSGeometry) (beta : R) : option R := np_sqrt (R_sqr s beta).

Definition vec3 : Type := (R * R * R)%type.

(** Result [(center, radius, normal)] of [cross_section_circle]. *)
Record CrossSection : Type := mkCrossSection {
  center : vec3;
  radius : option R;
  normal : vec3
}.

(** The three branch tests of [cross_section_circle]. *)
Definition in_rhs_leg (s : GCSGeometry) (beta : R) : bool :=
  Rle_b (- (1/2) * PI) beta && Rle_b beta (- half_angle s).
Definition in_lhs_leg (s : GCSGeometry) (beta : R) : bool :=
  Rle_b (PI + half_angle s) beta && Rle_b beta (3 * PI / 2).
Definition in_curved_section (s : GCSGeometry) (beta : R) : bool :=
  Rlt_b (- half_angle s) beta && Rlt_b beta (PI + half_angle s).

Definition leg_radius (s : GCSGeometry) (OQ : R) : option R :=
  match delta s with
  | Some d => Some (OQ * tan d)
  | None => None
  end.

(** [GCSGeometry.cross_section_circle] *)
Definition cross_section_circle (s : GCSGeometry) (beta : R)
    : result CrossSection :=
  let hang := half_angle s in
  if in_rhs_leg s beta then
    let OQ := h s - rho s * tan (- (beta + hang)) in
    Ok {| center := (OQ * sin hang, OQ * cos hang, 0);
          radius := leg_radius s OQ;
          normal := (sin hang, cos hang, 0) |}
  else if in_lhs_leg s beta then
    let OQ := h s - rho s * tan (beta - hang - PI) in
    Ok {| center := (- OQ * sin hang, OQ * cos hang, 0);
          radius := leg_radius s OQ;
          normal := (sin hang, - cos hang, 0) |}
  else if in_curved_section s beta then
    Ok {| center := (X0 s beta * cos beta, X0 s beta * sin beta + b s, 0);
          radius := R_ s beta;
          normal := (- sin beta, cos beta, 0) |}
  else Err ValueError.

End Geometry.

(** ** Rotations: [crest/utils/transform.py], class [RotationTransform] *)

Open Scope R_scope.

(** A 3x3 numpy array, row by row. *)
Record mat3 : Type := mkMat3 {
  m11 : R; m12 : R; m13 : R;
  m21 : R; m22 : R; m23 : R;
  m31 : R; m32 : R; m33 : R
}.

(** [np.dot] of two 3x3 arrays. *)
Definition dot (A B : mat3) : mat3 :=
  mkMat3
    (m11 A * m11 B + m12 A * m21 B + m13 A * m31 B)
    (m11 A * m12 B + m12 A * m22 B + m13 A * m32 B)
    (m11 A * m13 B + m12 A * m23 B + m13 A * m33 B)
    (m21 A * m11 B + m22 A * m21 B + m23 A * m31 B)
    (m21 A * m12 B + m22 A * m22 B + m23 A * m32 B)
    (m21 A * m13 B + m22 A * m23 B + m23 A * m33 B)
    (m31 A * m11 B + m32 A * m21 B + m33 A * m31 B)
    (m31 A * m12 B + m32 A * m22 B + m33 A * m32 B)
    (m31 A * m13 B + m32 A * m23 B + m33 A * m33 B).

Module RotationTransform.

(** [RotationTransform.x] *)
Definition x (angle : R) : mat3 :=
  let c := cos angle in let s := sin angle in
  mkMat3 1 0 0
         0 c (- s)
         0 s c.

(** [RotationTransform.y] *)
Definition y (angle : R) : mat3 :=
  let c := cos angle in let s := sin angle in
  mkMat3 c 0 s
         0 1 0
         (- s) 0 c.

(** [RotationTransform.z] *)
Definition z (angle : R) : mat3 :=
  let c := cos angle in let s := sin angle in
  mkMat3 c (- s) 0
         s c 0
         0 0 1.

End RotationTransform.

(** ** Oriented model: [crest/models/base/gcs.py], class [GCSModel] *)

Module Model.
Import Geometry.

(** The geometry part and the attributes [_longitude], [_latitude],
    [_tilt], [_rot_x], [_rot_y], [_rot_z] of a [GCSModel] object. *)
Record GCSModel : Type := mkGCSModel {
  geometry : GCSGeometry;
  longitude : R;
  latitude : R;
  tilt : R;
  rot_x : mat3;
  rot_y : mat3;
  rot_z : mat3
}.

(** Setter of [longitude]: stores the angle and [Rz(-pi/2 + longitude)]. *)
Definition set_longitude (m : GCSModel) (value : R) : GCSModel :=
  {| geometry := geometry m; longitude := value; latitude := latitude m;
     tilt := tilt m; rot_x := rot_x m; rot_y := rot_y m;
     rot_z := RotationTransform.z (- (1/2) * PI + value) |}.

(** Setter of [latitude]: stores the angle and [Rx(latitude)]. *)
Definition set_latitude (m : GCSModel) (value : R) : GCSModel :=
  {| geometry := geometry m; longitude := longitude m; latitude := value;
     tilt := tilt m; rot_x := RotationTransform.x value; rot_y := rot_y m;
     rot_z := rot_z m |}.

(** Setter of [tilt]: stores the angle and [Ry(tilt)]. *)
Definition set_tilt (m : GCSModel) (value : R) : GCSModel :=
  {| geometry := geometry m; longitude := longitude m; latitude := latitude m;
     tilt := value; rot_x := rot_x m; rot_y := RotationTransform.y value;
     rot_z := rot_z m |}.

Definition with_geometry (m : GCSModel) (g : GCSGeometry) : GCSModel :=
  {| geometry := g; longitude := longitude m; latitude := latitude m;
     tilt := tilt m; rot_x := rot_x m; rot_y := rot_y m; rot_z := rot_z m |}.

(** The matrix attributes before the first call of the angle setters. *)
Definition unset_matrix : mat3 := mkMat3 0 0 0 0 0 0 0 0 0.

(** [GCSModel.__init__]: the geometry, then the three angle setters. *)
Definition init (half_angle aspect_ratio : R) (leading_edge : option R)
    (longitude latitude tilt : R) : result GCSModel :=
  let! g := Geometry.init half_angle aspect_ratio leading_edge None in
  let m0 := mkGCSModel g 0 0 0 unset_matrix unset_matrix unset_matrix in
  Ok (set_tilt (set_latitude (set_longitude m0 longitude) latitude) tilt).

(** The parameter slots a caller can set on a model. *)
Inductive model_op : Type :=
  | SetLongitude (v : R)
  | SetLatitude (v : R)
  | SetTilt (v : R)
  | SetHalfAngle (v : R)
  | SetAspectRatio (v : R)
  | SetLeadingEdge (v : R)
  | SetConeHeight (v : R).

Definition apply_op (m : GCSModel) (op : model_op) : GCSModel :=
  match op with
  | SetLongitude v => set_longitude m v
  | SetLatitude v => set_latitude m v
  | SetTilt v => set_tilt m v
  | SetHalfAngle v => with_geometry m (set_half_angle (geometry m) v)
  | SetAspectRatio v => with_geometry m (set_aspect_ratio (geometry m) v)
  | SetLeadingEdge v => with_geometry m (set_leading_edge (geometry m) v)
  | SetConeHeight v => with_geometry m (set_cone_height (geometry m) v)
  end.

Definition apply_ops (m : GCSModel) (ops : list model_op) : GCSModel :=
  fold_left apply_op ops m.

(** [GCSModel.tmatrix] *)
Definition tmatrix (m : GCSModel) : mat3 := dot (rot_z m) (dot (rot_y m) (rot_x m)).

End Model.

(** ** Python list helpers *)

Open Scope Z_scope.

(** Python indexing [xs[i]], negative indices counted from the end;
    out of range raises [IndexError]. *)
Definition py_index {A : Type} (xs : list A) (i : Z) : result A :=
  let j := if i <? 0 then i + Z.of_nat (List.length xs) else i in
  if j <? 0 then Err IndexError
  else match nth_error xs (Z.to_nat j) with
       | Some x => Ok x
       | None => Err IndexError
       end.

(** [xs[i] = v] on an index known to be in range. *)
Fixpoint set_nth {A : Type} (xs : list A) (i : nat) (v : A) : list A :=
  match xs, i with
  | [], _ => []
  | _ :: tl, O => v :: tl
  | x :: tl, S i' => x :: set_nth tl i' v
  end.

(** Image pixel data, flattened; the values of the numpy array. The frames
    are Helioviewer JP2 images, read by sunpy as [uint8] arrays. *)
Definition pixels : Type := list Z.

(** numpy's [-] on two [uint8] elements: the difference wraps modulo [2^8]. *)
Definition uint8_sub (x y : Z) : Z := (x - y) mod 256.

(** The parts of a [sunpy.map.Map] that the frame pipeline reads. *)
Record Map : Type := mkMap {
  data : pixels;
  cmap : string
}.

(** ** Difference imaging: [crest/utils/image/difference.py] *)

Module Difference.

(** [_is_enabled] and [_reference_frame] ([None] is Python's [None]). *)
Record DifferenceImageModifier : Type := mkDifferenceImageModifier {
  is_enabled : bool;
  reference_frame : option Z
}.

(** [DifferenceImageModifier.__init__] *)
Definition new : DifferenceImageModifier := mkDifferenceImageModifier false None.

(** [is_valid_reference_frame] *)
Definition is_valid_reference_frame (m : DifferenceImageModifier) : bool :=
  match reference_frame m with
  | None => false
  | Some r => negb (r <? 0)
  end.

(** numpy [a - b] on two [uint8] arrays of the same shape, element by element
    with wrap-around; a shape mismatch raises (broadcasting of size-one axes
    is not modelled). *)
Definition array_sub (a b : pixels) : result pixels :=
  if Nat.eqb (List.length a) (List.length b)
  then Ok (map (fun '(x, y) => uint8_sub x y) (combine a b))
  else Err ValueError.

(** [DifferenceImageModifier.__call__]; [map_sequence] is the sequence of
    the plot container passed as [plot_container]. *)
Definition call (m : DifferenceImageModifier) (map_sequence : list Map)
    (map_data : pixels) : result pixels :=
  if negb (is_enabled m) || negb (is_valid_reference_frame m) then Ok map_data
  else
    match reference_frame m with
    | None => Ok map_data
    | Some r =>
        let! reference_map := py_index map_sequence r in
        array_sub map_data (data reference_map)
    end.

End Difference.

(** ** Frame display: [crest/components/plot/map_sequence/plot.py] *)

Module MapSequence.

(** [ColorbarState] *)
Record ColorbarState : Type := mkColorbarState {
  cb_cmap : string;
  vmin : option Z;
  vmax : option Z
}.

(** What the matplotlib image shows: data, colormap, color limits. *)
Record Image : Type := mkImage {
  im_data : pixels;
  im_cmap : string;
  im_clim : option Z * option Z
}.

(** [MapSequencePlotContainer] with its single-modifier pipeline; the axes
    face color is an RGBA value encoded as an integer. *)
Record MapSequencePlotContainer : Type := mkContainer {
  map_sequence : list Map;
  colorbar_state : ColorbarState;
  current_frame_index : Z;
  modifier : Difference.DifferenceImageModifier;
  im : Image;
  facecolor : Z
}.

Definition num_frames (c : MapSequencePlotContainer) : Z :=
  Z.of_nat (List.length (map_sequence c)).

(** [get_map_data]: the frame's data through the modifier pipeline. *)
Definition get_map_data (c : MapSequencePlotContainer) (frame_index : Z)
    : result pixels :=
  let! m := py_index (map_sequence c) frame_index in
  Difference.call (modifier c) (map_sequence c) (data m).

(** [np.clip(a, lo, hi)] on integers. *)
Definition np_clip (a lo hi : Z) : Z := Z.min (Z.max a lo) hi.

Section UpdateToFrame.

(** The matplotlib colormap applied to the normalised border pixels of the
    data, reduced to its median RGBA value: an external collaborator. *)
Variable border_median_color : string -> option Z -> option Z -> pixels -> Z.

(** [update_to_frame] *)
Definition update_to_frame (c : MapSequencePlotContainer) (frame_index : Z)
    : result MapSequencePlotContainer :=
  let frame := np_clip frame_index 0 (num_frames c - 1) in
  let! d := get_map_data c frame in
  let cs := colorbar_state c in
  let! cm :=
    if String.eqb (cb_cmap cs) "default" then
      let! m := py_index (map_sequence c) (current_frame_index c) in Ok (cmap m)
    else Ok (cb_cmap cs) in
  let fc := border_median_color cm (vmin cs) (vmax cs) d in
  Ok {| map_sequence := map_sequence c;
        colorbar_state := cs;
        current_frame_index := frame;
        modifier := modifier c;
        im := {| im_data := d; im_cmap := cm; im_clim := (vmin cs, vmax cs) |};
        facecolor := fc |}.

End UpdateToFrame.

(** The visible state of a view. *)
Record VisibleState : Type := mkVisible {
  v_data : pixels;
  v_cmap : string;
  v_clim : option Z * option Z;
  v_facecolor : Z;
  v_index : Z
}.

Definition visible (c : MapSequencePlotContainer) : VisibleState :=
  mkVisible (im_data (im c)) (im_cmap (im c)) (im_clim (im c))
            (facecolor c) (current_frame_index c).

End MapSequence.

(** ** Time synchronisation: [crest/apps/jux.py], [on_frame_change] *)

Module Jux.

(** The reactive values the handler writes. *)
Record SyncState : Type := mkSyncState {
  frames : list Z;
  difference_frames : list Z
}.

(** The values the handler reads: the checkbox, the active plot, the
    timestamps (in seconds) of each source, running-difference offsets and
    frame counts. *)
Record SyncEnv : Type := mkSyncEnv {
  sync_plots : bool;
  active_plot : Z;
  datetimes : list (list Z);
  running_difference_offsets : list Z;
  num_frames : list Z
}.

(** The Python local [target]: a [datetime] first, an [int] once
    reassigned in the running-difference branch. *)
Inductive pyval : Type :=
  | VDatetime (t : Z)
  | VInt (n : Z).

(** [np.abs(datetimes[pidx] - target)]: [datetime - int] raises [TypeError]. *)
Definition abs_time_diff (ts : list Z) (target : pyval) : result (list Z) :=
  match target with
  | VDatetime t => Ok (map (fun d => Z.abs (d - t)) ts)
  | VInt _ => Err TypeError
  end.

(** [argmin]: index of the first minimum; an empty array raises. *)
Fixpoint argmin_from (xs : list Z) (i : Z) (best : Z) (best_i : Z) : Z :=
  match xs with
  | [] => best_i
  | x :: tl => if x <? best then argmin_from tl (i + 1) x i
               else argmin_from tl (i + 1) best best_i
  end.

Definition argmin (xs : list Z) : result Z :=
  match xs with
  | [] => Err ValueError
  | x :: tl => Ok (argmin_from tl 1 x 0)
  end.

(** The loop [for pidx in range(num_plots)] of [on_frame_change]. *)
Fixpoint sync_loop (env : SyncEnv) (pidxs : list nat) (target : pyval)
    (st : SyncState) : result SyncState :=
  match pidxs with
  | [] => Ok st
  | pidx :: rest =>
      if Z.of_nat pidx =? active_plot env then sync_loop env rest target st
      else
        let! ts := py_index (datetimes env) (Z.of_nat pidx) in
        let! diffs := abs_time_diff ts target in
        let! closest_frame := argmin diffs in
        let st1 := mkSyncState (set_nth (frames st) pidx closest_frame)
                               (difference_frames st) in
        let! off := py_index (running_difference_offsets env) (Z.of_nat pidx) in
        if negb (off =? 0) then
          let! nf := py_index (num_frames env) (Z.of_nat pidx) in
          let t := Z.max 0 (Z.min (closest_frame + off) (nf - 1)) in
          sync_loop env rest (VInt t)
            (mkSyncState (frames st1) (set_nth (difference_frames st1) pidx t))
        else sync_loop env rest target st1
  end.

(** [on_frame_change(frame, idx_of_plot)] *)
Definition on_frame_change (env : SyncEnv) (st : SyncState) (frame : Z)
    (idx_of_plot : Z) : result SyncState :=
  if negb (sync_plots env) then Ok st
  else if negb (idx_of_plot =? active_plot env) then Ok st
  else
    let! ts := py_index (datetimes env) (active_plot env) in
    let! t := py_index ts frame in
    let! cur := py_index (frames st) (active_plot env) in
    if negb (frame =? cur) then Err RuntimeWarning
    else sync_loop env (seq 0 (List.length (datetimes env))) (VDatetime t) st.

End Jux.

(** ** Further geometry: [crest/models/base/gcs.py] *)

Module GeometryMore.
Import Geometry.
Open Scope R_scope.

(** [GCSGeometry.OC1]: distance of the apex center, Eq. 28 in T11. *)
Definition OC1 (s : GCSGeometry) : R := (b s + rho s) / (1 - aspect_ratio s ^ 2).

(** [GCSGeometry.OH] *)
Definition OH (s : GCSGeometry) : R := leading_edge s.

(** The cross section built by the curved branch of [cross_section_circle]
    (lines 266-274), as a function of [beta]. *)
Definition curved_branch_section (s : GCSGeometry) (beta : R) : CrossSection :=
  {| center := (X0 s beta * cos beta, X0 s beta * sin beta + b s, 0);
     radius := R_ s beta;
     normal := (- sin beta, cos beta, 0) |}.

(** The coupling invariant of a geometry on the valid domain. *)
Definition coupled (s : GCSGeometry) : Prop :=
  0 <= half_angle s < PI / 2 /\ 0 <= aspect_ratio s < 1 /\
  leading_edge s = compute_leading_edge (half_angle s) (aspect_ratio s) (cone_height s) /\
  cone_height s = compute_cone_height (half_angle s) (aspect_ratio s) (leading_edge s).

(** An update of a model whose new angle or ratio stays in the valid domain. *)
Definition valid_op (op : Model.model_op) : Prop :=
  match op with
  | Model.SetHalfAngle v => 0 <= v < PI / 2
  | Model.SetAspectRatio v => 0 <= v < 1
  | _ => True
  end.

End GeometryMore.

(** ** numpy linear algebra used by [crest/utils/geometry.py] and the
    plotting code of [crest/models/gcs.py] *)

Module Linalg.
Import Geometry.
Open Scope R_scope.

(** [A.T] *)
Definition transpose (A : mat3) : mat3 :=
  mkMat3 (m11 A) (m21 A) (m31 A)
         (m12 A) (m22 A) (m32 A)
         (m13 A) (m23 A) (m33 A).

(** [np.eye(3)] *)
Definition eye : mat3 := mkMat3 1 0 0 0 1 0 0 0 1.

(** [np.linalg.det] of a 3x3 array. *)
Definition det (A : mat3) : R :=
  m11 A * (m22 A * m33 A - m23 A * m32 A)
  - m12 A * (m21 A * m33 A - m23 A * m31 A)
  + m13 A * (m21 A * m32 A - m22 A * m31 A).

Definition vadd (u v : vec3) : vec3 :=
  let '(u1, u2, u3) := u in let '(v1, v2, v3) := v in (u1 + v1, u2 + v2, u3 + v3).
Definition vsub (u v : vec3) : vec3 :=
  let '(u1, u2, u3) := u in let '(v1, v2, v3) := v in (u1 - v1, u2 - v2, u3 - v3).
Definition vscale (c : R) (v : vec3) : vec3 :=
  let '(v1, v2, v3) := v in (c * v1, c * v2, c * v3).
Definition vdot (u v : vec3) : R :=
  let '(u1, u2, u3) := u in let '(v1, v2, v3) := v in u1 * v1 + u2 * v2 + u3 * v3.

(** [np.cross] *)
Definition cross (u v : vec3) : vec3 :=
  let '(u1, u2, u3) := u in let '(v1, v2, v3) := v in
  (u2 * v3 - u3 * v2, u3 * v1 - u1 * v3, u1 * v2 - u2 * v1).

(** [np.linalg.norm] of a 3-vector. *)
Definition norm (v : vec3) : R := sqrt (vdot v v).

(** [A @ v] *)
Definition matvec (A : mat3) (v : vec3) : vec3 :=
  let '(v1, v2, v3) := v in
  (m11 A * v1 + m12 A * v2 + m13 A * v3,
   m21 A * v1 + m22 A * v2 + m23 A * v3,
   m31 A * v1 + m32 A * v2 + m33 A * v3).

End Linalg.

(** ** [crest/utils/geometry.py] *)

Module UtilsGeometry.
Import Geometry Linalg.
Open Scope R_scope.

(** [np.linspace(start, stop, num, endpoint=endpoint)]: [arange(num) * step
    + start], with [step = (stop - start) / div] and [div = num - 1] or
    [num]; with [endpoint] and [num > 1] the last entry is set to [stop]. *)
Definition linspace (start stop : R) (num : nat) (endpoint : bool) : list R :=
  let div := if endpoint then (num - 1)%nat else num in
  let step := (stop - start) / INR div in
  map (fun i => if endpoint && (1 <? num)%nat && (i =? num - 1)%nat then stop
                else INR i * step + start)
      (seq 0 num).

(** [circle(center, normal, radius, num_points, end_point, perp, toffset)]:
    [e_1] is the normalised [normal], [e_2] the normalised [perp] (or, when
    [perp] is [None], a vector orthogonal to [e_1] chosen by the size of its
    first coordinate), [e_3 = e_1 x e_2]; the points are
    [center + radius cos(t) e_2 + radius sin(t) e_3] for
    [t = toffset + linspace(0, 2 pi, num_points, end_point)]. *)
Definition circle (center normal : vec3) (radius : R) (num_points : nat)
    (end_point : bool) (perp : option vec3) (toffset : R) : list vec3 :=
  let e_1 := vscale (1 / norm normal) normal in
  let e_2 := match perp with
             | None =>
                 let '(x1, y1, z1) := e_1 in
                 if Rlt_b (9 / 10) (Rabs x1) then (- z1, 0, x1) else (0, z1, - y1)
             | Some q => q
             end in
  let e_2 := vscale (1 / norm e_2) e_2 in
  let e_3 := cross e_1 e_2 in
  let theta := map (fun t => toffset + t) (linspace 0 (2 * PI) num_points end_point) in
  map (fun t => vadd (vadd center (vscale (radius * cos t) e_2))
                     (vscale (radius * sin t) e_3))
      theta.

End UtilsGeometry.

(** ** [crest/models/gcs.py], class [GraduatedCylindricalShell] *)

Module Widget.
Import Geometry Model Linalg UtilsGeometry.
Open Scope R_scope.

(** [astropy.constants.R_sun], in metres. *)
Definition R_sun : R := 695700000.

(** [q * units.deg] read back with [.to_value(units.rad)]. *)
Definition deg_to_rad (d : R) : R := d * (PI / 180).

(** [surface_angle_deg] of [points] and [outline]. *)
Definition surface_angle_deg (s : GCSGeometry) : R :=
  let half_angle_deg := half_angle s * (180 / PI) in
  let xi := (h s - R_sun) / rho s in
  (180 / PI) * atan xi + half_angle_deg.

(** The angles [beta] (in degrees) sampled by [points] ([n = 54]) and
    [outline] ([n = 64]). *)
Definition sampling_angles (s : GCSGeometry) (n : nat) : list R :=
  linspace (- surface_angle_deg s) (180 + surface_angle_deg s) n true.

Fixpoint map_result {A B : Type} (f : A -> result B) (l : list A) : result (list B) :=
  match l with
  | [] => Ok []
  | x :: xs => let! y := f x in let! ys := map_result f xs in Ok (y :: ys)
  end.

(** One cross section of [points]: a NaN radius gives [num_points] NaN rows
    ([None]). *)
Definition section_points (s : GCSGeometry) (beta : R) : result (list (option vec3)) :=
  let! cs := cross_section_circle s (deg_to_rad beta) in
  match radius cs with
  | Some r => Ok (map Some (circle (center cs) (normal cs) r 38 false (Some (0, 0, 1)) 0))
  | None => Ok (repeat None 38)
  end.

(** [GraduatedCylindricalShell.points]: the stacked rows, each multiplied
    by [tmatrix.T] on the right, i.e. [p |-> tmatrix @ p]. *)
Definition points (m : GCSModel) : result (list (option vec3)) :=
  let! rows := map_result (section_points (geometry m)) (sampling_angles (geometry m) 54) in
  Ok (map (option_map (matvec (tmatrix m))) (List.concat rows)).

End Widget.

(** ** [crest/apps/jux.py], component [DifferenceController], and
    [crest/components/plot/map_sequence/ui.py], [update] *)

Module Controller.
Import MapSequence.
Open Scope Z_scope.

(** [xs[i].set(v)] on a list of reactive values: the index is resolved as
    [xs[i]] is (negative from the end, out of range raises). *)
Definition py_set {A : Type} (xs : list A) (i : Z) (v : A) : result (list A) :=
  let j := if i <? 0 then i + Z.of_nat (List.length xs) else i in
  if (j <? 0) || (Z.of_nat (List.length xs) <=? j) then Err IndexError
  else Ok (set_nth xs (Z.to_nat j) v).

(** Python's [needle in hay] on strings. *)
Definition str_contains (needle hay : string) : bool :=
  match String.index 0 needle hay with
  | Some _ => true
  | None => false
  end.

(** The reactive lists the component writes. *)
Record CtrlState : Type := mkCtrlState {
  running_difference_offsets : list Z;
  difference_frames : list Z
}.

(** One render of [DifferenceController]; a [.set] is read back at once by a
    later [.value]. The widgets only read values; the time label reads
    [datetimes[idx][difference_frames[idx]]] when that frame is [>= 0]. *)
Definition difference_controller (frames : list Z) (image_modifiers : list string)
    (datetimes : list (list Z)) (num_frames : list Z) (active_plot : Z)
    (st : CtrlState) : result CtrlState :=
  let idx := active_plot in
  let! mode := py_index image_modifiers idx in
  let! _ :=
    if negb (String.eqb mode "None") then
      let! df := py_index (difference_frames st) idx in
      let! _ := py_index num_frames idx in
      let! _ := py_index (running_difference_offsets st) idx in
      if 0 <=? df then
        let! ts := py_index datetimes idx in
        let! _ := py_index ts df in Ok tt
      else Ok tt
    else Ok tt in
  if String.eqb mode "None" then
    let! offs := py_set (running_difference_offsets st) idx 0 in
    let! df := py_index (difference_frames st) idx in
    let! dfs := if negb (df =? -1) then py_set (difference_frames st) idx (-1)
                else Ok (difference_frames st) in
    Ok (mkCtrlState offs dfs)
  else if str_contains "Fixed" mode then
    let! offs := py_set (running_difference_offsets st) idx 0 in
    Ok (mkCtrlState offs (difference_frames st))
  else
    let! o := py_index (running_difference_offsets st) idx in
    let! offs := if o =? 0 then py_set (running_difference_offsets st) idx 1
                 else Ok (running_difference_offsets st) in
    let! offset := py_index offs idx in
    let! f := py_index frames idx in
    let! nf := py_index num_frames idx in
    let target := Z.max 0 (Z.min (f + offset) (nf - 1)) in
    let! df := py_index (difference_frames st) idx in
    let! dfs := if negb (df =? target) then py_set (difference_frames st) idx target
                else Ok (difference_frames st) in
    Ok (mkCtrlState offs dfs).

Section UIUpdate.

Variable border_median_color : string -> option Z -> option Z -> pixels -> Z.

(** [update] of [MapSequencePlotUIWithFrame] (the container has its single
    modifier): enable the modifier iff the difference frame is [>= 0], store
    it as reference, store the colorbar values, then [update_to_frame]. *)
Definition ui_update (c : MapSequencePlotContainer) (frame difference_frame : Z)
    (vmin vmax : option Z) (cmap : string) : result MapSequencePlotContainer :=
  let m := {| Difference.is_enabled := 0 <=? difference_frame;
              Difference.reference_frame := Some difference_frame |} in
  let c1 := {| map_sequence := map_sequence c;
               colorbar_state := mkColorbarState cmap vmin vmax;
               current_frame_index := current_frame_index c;
               modifier := m;
               im := im c;
               facecolor := facecolor c |} in
  update_to_frame border_median_color c1 frame.

End UIUpdate.

End Controller.

(** ** Curve overlays: [update_curve_overlay_plot] of
    [crest/components/plot/map_sequence/plot.py] *)

Module Overlay.
Import MapSequence.

Section CurveOverlay.

(** Points of a segment, in the map's frame, and in pixels. *)
Variables Coord MapCoord Pixel : Type.

(** [segment.transform_to(m.coordinate_frame)] and [m.wcs.world_to_pixel]:
    astropy and sunpy collaborators. *)
Variable transform_to : Map -> list Coord -> list MapCoord.
Variable world_to_pixel : Map -> list MapCoord -> list Pixel.

(** [segment is None or len(segment) == 0] *)
Definition segment_is_empty (s : option (list Coord)) : bool :=
  match s with
  | None | Some [] => true
  | Some (_ :: _) => false
  end.

(** The first loop: the non-empty segments transformed to the map frame. *)
Fixpoint coords_in_map_frame (m : Map) (segments : list (option (list Coord)))
    : list (list MapCoord) :=
  match segments with
  | [] => []
  | s :: rest =>
      match s with
      | Some ((_ :: _) as pts) => transform_to m pts :: coords_in_map_frame m rest
      | _ => coords_in_map_frame m rest
      end
  end.

(** The second loop, [for idx, segment in enumerate(segments)], reading
    [coords_in_map_frame[idx]] for each non-empty segment. *)
Fixpoint line_segments_from (m : Map) (coords : list (list MapCoord))
    (segments : list (option (list Coord))) (idx : nat)
    : result (list (list Pixel)) :=
  match segments with
  | [] => Ok []
  | s :: rest =>
      if segment_is_empty s then line_segments_from m coords rest (S idx)
      else
        let! cs := py_index coords (Z.of_nat idx) in
        let! tl := line_segments_from m coords rest (S idx) in
        Ok (world_to_pixel m cs :: tl)
  end.

(** [update_curve_overlay_plot]: the line segments handed to
    [overlay.set_segments] (widths 2.0 and alphas 1.0 are constant). *)
Definition update_curve_overlay_plot (c : MapSequencePlotContainer)
    (segments : list (option (list Coord))) : result (list (list Pixel)) :=
  let! m := py_index (map_sequence c) (current_frame_index c) in
  line_segments_from m (coords_in_map_frame m segments) segments 0.

End CurveOverlay.

Arguments segment_is_empty {Coord} _.
Arguments coords_in_map_frame {Coord MapCoord} _ _ _.
Arguments line_segments_from {Coord MapCoord Pixel} _ _ _ _ _.
Arguments update_curve_overlay_plot {Coord MapCoord Pixel} _ _ _ _.

End Overlay.

Module PointOverlay.
Import MapSequence.

Section PointOverlay.
Local Open Scope R_scope.

Variables Coord MapCoord Pixel : Type.

(** [np.linalg.norm(coordinates.cartesian.xyz.si.value.T, axis=1)] for one
    point, the map-frame transform, the distance to the map's observer and
    [m.wcs.world_to_pixel]: astropy and sunpy collaborators. *)
Variable cartesian_norm : Coord -> R.
Variable transform_to : Map -> Coord -> MapCoord.
Variable observer_distance : Map -> MapCoord -> R.
Variable world_to_pixel : Map -> MapCoord -> Pixel.

(** What the scatter plot is given: no offsets, or offsets with their
    alphas and sizes. *)
Inductive scatter_update : Type :=
  | ClearedOffsets
  | Drawn (offsets : list Pixel) (alphas sizes : list R).

(** [np.argsort(dist)] applied to the pairs (point, distance): an ascending
    sort on the distance, here an insertion sort. numpy's default sort is not
    stable, so the order of equal distances is not fixed by the source; the
    properties below hold for any such order. *)
Fixpoint insert_by_dist (p : MapCoord * R) (l : list (MapCoord * R))
    : list (MapCoord * R) :=
  match l with
  | [] => [p]
  | q :: r => if Rle_dec (snd p) (snd q) then p :: q :: r else q :: insert_by_dist p r
  end.

Fixpoint argsort_by_dist (l : list (MapCoord * R)) : list (MapCoord * R) :=
  match l with
  | [] => []
  | p :: r => insert_by_dist p (argsort_by_dist r)
  end.

(** [matplotlib.colors.Normalize(vmin, vmax)(x)]; equal limits give 0. *)
Definition normalize (vmin vmax x : R) : R :=
  if Req_EM_T vmin vmax then 0 else (x - vmin) / (vmax - vmin).

Definition outside_sun (x : Coord) : bool :=
  if Rle_dec Widget.R_sun (cartesian_norm x) then true else false.

(** [update_point_overlay_plot] *)
Definition update_point_overlay_plot (c : MapSequencePlotContainer)
    (coordinates : option (list Coord)) : result scatter_update :=
  match coordinates with
  | None | Some [] => Ok ClearedOffsets
  | Some coords =>
      let! m := py_index (map_sequence c) (current_frame_index c) in
      match filter outside_sun coords with
      | [] => Ok ClearedOffsets
      | kept =>
          let cm := map (transform_to m) kept in
          let dist := map (observer_distance m) cm in
          let sorted := rev (argsort_by_dist (combine cm dist)) in
          match map snd sorted with
          | [] => Err ValueError
          | d0 :: ds =>
              let normed := map (normalize (fold_left Rmin ds d0) (fold_left Rmax ds d0))
                                (d0 :: ds) in
              Ok (Drawn (map (fun p => world_to_pixel m (fst p)) sorted)
                        (map (fun x => Rmax (1/10) (1 - x)) normed)
                        (map (fun x => 2 * (4 - 3 * x)) normed))
          end
      end
  end.

End PointOverlay.

Arguments ClearedOffsets {Pixel}.
Arguments Drawn {Pixel} _ _ _.
Arguments insert_by_dist {MapCoord} _ _.
Arguments argsort_by_dist {MapCoord} _.
Arguments outside_sun {Coord} _ _.
Arguments update_point_overlay_plot {Coord MapCoord Pixel} _ _ _ _ _ _.

End PointOverlay.

Module Overlays.
Import MapSequence.

(** Python dicts keyed by overlay name, as association lists in insertion
    order. *)
Fixpoint assoc_get {V : Type} (k : string) (l : list (string * V)) : option V :=
  match l with
  | [] => None
  | (k', v) :: r => if String.eqb k k' then Some v else assoc_get k r
  end.

(** [d[k] = v]: replaces the value in place, or appends a new key. *)
Fixpoint assoc_set {V : Type} (k : string) (v : V) (l : list (string * V))
    : list (string * V) :=
  match l with
  | [] => [(k, v)]
  | (k', v') :: r => if String.eqb k k' then (k, v) :: r else (k', v') :: assoc_set k v r
  end.

(** [stale = set(self.x_overlays) - set(x_overlays)] followed by
    [del self.x_overlays[name]] for each stale name. *)
Definition remove_stale {V W : Type} (registry : list (string * V))
    (overlays : list (string * W)) : list (string * V) :=
  filter (fun kv => if in_dec String.string_dec (fst kv) (map fst overlays) then true else false)
    registry.

Section UpdateOverlays.

Variables Coord MapCoord Pixel : Type.

(** The collaborators of [update_point_overlay_plot] and
    [update_curve_overlay_plot]. *)
Variable cartesian_norm : Coord -> R.
Variable point_transform_to : Map -> Coord -> MapCoord.
Variable observer_distance : Map -> MapCoord -> R.
Variable point_world_to_pixel : Map -> MapCoord -> Pixel.
Variable segment_transform_to : Map -> list Coord -> list MapCoord.
Variable segment_world_to_pixel : Map -> list MapCoord -> list Pixel.

(** The artists of the two overlay dicts, by what they currently show: the
    scatter plots' offsets, alphas and sizes, and the line collections'
    segments. Colors are not modelled. *)
Record OverlayRegistry : Type := mkOverlays {
  point_overlays : list (string * PointOverlay.scatter_update Pixel);
  curve_overlays : list (string * list (list Pixel))
}.

(** [ensure_point_overlay_plot_exists] / [ensure_curve_overlay_plot_exists]:
    a new artist shows nothing ([scatter([], [])], [LineCollection([])]). *)
Definition ensure_plot_exists {V : Type} (name : string) (empty : V)
    (registry : list (string * V)) : list (string * V) :=
  match assoc_get name registry with
  | Some _ => registry
  | None => registry ++ [(name, empty)]
  end.

(** The update loop of [update_overlays], the same for points and curves:
    a given overlay is drawn by the [update_*_overlay_plot] method (which
    first ensures its artist exists); an overlay given as [None] is emptied
    if its artist exists ([set_offsets(np.empty((0, 2)))],
    [set_segments([])]). An exception ends the call. *)
Fixpoint update_plots {X V : Type} (draw : X -> result V) (empty : V)
    (overlays : list (string * option X)) (registry : list (string * V))
    : result (list (string * V)) :=
  match overlays with
  | [] => Ok registry
  | (name, Some x) :: rest =>
      let registry1 := ensure_plot_exists name empty registry in
      let! v := draw x in
      update_plots draw empty rest (assoc_set name v registry1)
  | (name, None) :: rest =>
      update_plots draw empty rest
        (match assoc_get name registry with
         | Some _ => assoc_set name empty registry
         | None => registry
         end)
  end.

(** [update_overlays] on a created plot, the state in which the components
    call it ([create()] has set [self.fig] and [self.ax]): stale point
    overlays are removed, the point overlays updated, then stale curve
    overlays removed and the curve overlays updated; the final
    [self.fig.canvas.draw_idle()] has no modelled effect. The method in
    full, also before [create()], is [update_overlays_method] below. *)
Definition update_overlays (c : MapSequencePlotContainer) (st : OverlayRegistry)
    (points : list (string * option (list Coord)))
    (curves : list (string * option (list (option (list Coord)))))
    : result OverlayRegistry :=
  let! ps := update_plots
               (fun pts => PointOverlay.update_point_overlay_plot cartesian_norm
                             point_transform_to observer_distance point_world_to_pixel
                             c (Some pts))
               PointOverlay.ClearedOffsets points (remove_stale (point_overlays st) points) in
  let! cs := update_plots
               (Overlay.update_curve_overlay_plot segment_transform_to segment_world_to_pixel c)
               [] curves (remove_stale (curve_overlays st) curves) in
  Ok (mkOverlays ps cs).

(** [ensure_point_overlay_plot_exists] / [ensure_curve_overlay_plot_exists]
    with [ax_set] telling whether [self.ax] is set: a missing artist is made
    by [self.ax.scatter] / [self.ax.add_collection], which raises
    [AttributeError] on [self.ax = None]. *)
Definition ensure_plot_exists_ax {V : Type} (ax_set : bool) (name : string) (empty : V)
    (registry : list (string * V)) : result (list (string * V)) :=
  match assoc_get name registry with
  | Some _ => Ok registry
  | None => if ax_set then Ok (registry ++ [(name, empty)]) else Err AttributeError
  end.

(** The update loop of [update_overlays] with the artist creation of
    [ensure_plot_exists_ax]. *)
Fixpoint update_plots_ax {X V : Type} (ax_set : bool) (draw : X -> result V) (empty : V)
    (overlays : list (string * option X)) (registry : list (string * V))
    : result (list (string * V)) :=
  match overlays with
  | [] => Ok registry
  | (name, Some x) :: rest =>
      let! registry1 := ensure_plot_exists_ax ax_set name empty registry in
      let! v := draw x in
      update_plots_ax ax_set draw empty rest (assoc_set name v registry1)
  | (name, None) :: rest =>
      update_plots_ax ax_set draw empty rest
        (match assoc_get name registry with
         | Some _ => assoc_set name empty registry
         | None => registry
         end)
  end.

(** The [update_overlays] method. [created] tells whether [create()] has
    set [self.fig] and [self.ax] (both [None] from [__init__] until then):
    the two update loops, then [self.fig.canvas.draw_idle()], which raises
    [AttributeError] on [self.fig = None]. *)
Definition update_overlays_method (created : bool) (c : MapSequencePlotContainer)
    (st : OverlayRegistry) (points : list (string * option (list Coord)))
    (curves : list (string * option (list (option (list Coord)))))
    : result OverlayRegistry :=
  let! ps := update_plots_ax created
               (fun pts => PointOverlay.update_point_overlay_plot cartesian_norm
                             point_transform_to observer_distance point_world_to_pixel
                             c (Some pts))
               PointOverlay.ClearedOffsets points (remove_stale (point_overlays st) points) in
  let! cs := update_plots_ax created
               (Overlay.update_curve_overlay_plot segment_transform_to segment_world_to_pixel c)
               [] curves (remove_stale (curve_overlays st) curves) in
  if created then Ok (mkOverlays ps cs) else Err AttributeError.

End UpdateOverlays.


Arguments mkOverlays {Pixel} _ _.
Arguments point_overlays {Pixel} _.
Arguments curve_overlays {Pixel} _.
Arguments update_overlays {Coord MapCoord Pixel} _ _ _ _ _ _ _ _ _ _.
Arguments update_overlays_method {Coord MapCoord Pixel} _ _ _ _ _ _ _ _ _ _ _.

End Overlays.

Module Comparison.

(** [d.get(k)] on a dict as an association list in insertion order. *)
Fixpoint lookup {K V : Type} (dec : forall a b : K, {a = b} + {a <> b})
    (d : list (K * V)) (k : K) : option V :=
  match d with
  | [] => None
  | (k', v) :: r => if dec k k' then Some v else lookup dec r k
  end.

Section DictsEqual.

(** Keys, values and value types ([type(v)]) of the compared dicts; [None]
    stands for a raised exception. *)
Variables Key Value Ty : Type.
Variable key_eq_dec : forall a b : Key, {a = b} + {a <> b}.
Variable ty_eq_dec : forall a b : Ty, {a = b} + {a <> b}.
Variable type_of : Value -> Ty.
(** Python's [v1 != v2]. *)
Variable py_ne : Value -> Value -> bool.

(** [d1.keys() != d2.keys()] negated: dict views compare as sets, first by
    length, then by containment of the first in the second. *)
Definition keys_equal (d1 d2 : list (Key * Value)) : bool :=
  Nat.eqb (List.length d1) (List.length d2) &&
  forallb (fun k => if in_dec key_eq_dec k (map fst d2) then true else false) (map fst d1).

(** The loop [for k in d1]: [None] when [d2[k]] or a comparator raises. *)
Fixpoint compare_entries (comparators : list (Ty * (Value -> Value -> option bool)))
    (d1 d2 : list (Key * Value)) : option bool :=
  match d1 with
  | [] => Some true
  | (k, v1) :: rest =>
      match lookup key_eq_dec d2 k with
      | None => None
      | Some v2 =>
          match lookup ty_eq_dec comparators (type_of v1) with
          | Some cmp_fn =>
              match cmp_fn v1 v2 with
              | None => None
              | Some false => Some false
              | Some true => compare_entries comparators rest d2
              end
          | None => if py_ne v1 v2 then Some false else compare_entries comparators rest d2
          end
      end
  end.

(** [dicts_equal(d1, d2, comparators)]. *)
Definition dicts_equal (d1 d2 : list (Key * Value))
    (comparators : option (list (Ty * (Value -> Value -> option bool)))) : option bool :=
  let comparators := match comparators with Some c => c | None => [] end in
  if negb (keys_equal d1 d2) then Some false
  else compare_entries comparators d1 d2.

End DictsEqual.

Arguments keys_equal {Key Value} _ _ _.
Arguments compare_entries {Key Value Ty} _ _ _ _ _ _ _.
Arguments dicts_equal {Key Value Ty} _ _ _ _ _ _ _.

(** The values of the query dicts compared by [_redo_query]: ints, floats
    (as real numbers, rounding aside) and strings. *)
Inductive py_value : Type :=
  | PyInt (z : Z)
  | PyFloat (x : R)
  | PyStr (s : string).

Inductive py_type : Type := IntType | FloatType | StrType.

Definition py_type_eq_dec (a b : py_type) : {a = b} + {a <> b}.
Proof. decide equality. Defined.

Definition type_of (v : py_value) : py_type :=
  match v with PyInt _ => IntType | PyFloat _ => FloatType | PyStr _ => StrType end.

(** [float(v)] for the numbers: ints compare with floats by value. *)
Definition to_real (v : py_value) : option R :=
  match v with PyInt z => Some (IZR z) | PyFloat x => Some x | PyStr _ => None end.

(** Python's [v1 != v2] on these values. *)
Definition py_ne (v1 v2 : py_value) : bool :=
  match v1, v2 with
  | PyStr s, PyStr t => negb (String.eqb s t)
  | PyStr _, _ | _, PyStr _ => true
  | PyInt a, PyInt b => negb (Z.eqb a b)
  | _, _ =>
      match to_real v1, to_real v2 with
      | Some a, Some b => if Req_EM_T a b then false else true
      | _, _ => true
      end
  end.

(** [math.isclose(a, b)] with [rel_tol=1e-09] and [abs_tol=0.0]; a string
    argument raises [TypeError]. *)
Definition isclose (v1 v2 : py_value) : option bool :=
  match to_real v1, to_real v2 with
  | Some a, Some b =>
      Some (if Rle_dec (Rabs (a - b)) (Rmax (/ 1000000000 * Rmax (Rabs a) (Rabs b)) 0)
            then true else false)
  | _, _ => None
  end.

(** The comparators of [_redo_query]: [{float: lambda a, b: math.isclose(a, b)}]. *)
Definition redo_query_comparators : option (list (py_type * (py_value -> py_value -> option bool))) :=
  Some [(FloatType, isclose)].

End Comparison.

Module DataSources.
Local Open Scope string_scope.

(** The JSON of Helioviewer's [getDataSources], as [hvpy] returns it. *)
Inductive json : Type :=
  | JDict (items : list (string * json))
  | JStr (s : string)
  | JNum (z : Z)
  | JBool (b : bool)
  | JNull.

(** The exceptions [DataSourceTree] can raise while parsing. *)
Inductive ds_error : Type :=
  | AttributeError
  | KeyError
  | ValueError.

Definition ds_bind {A B : Type} (r : A + ds_error) (f : A -> B + ds_error) : B + ds_error :=
  match r with
  | inl a => f a
  | inr e => inr e
  end.

Local Notation "'let?' x := r 'in' f" := (ds_bind r (fun x => f))
  (at level 200, x name, r at level 100, f at level 200).

Definition option_string_dec (a b : option string) : {a = b} + {a <> b}.
Proof. decide equality. apply string_dec. Defined.

(** [d[k] = v]: replaces the value in place, or appends a new key. *)
Fixpoint dict_set {K V : Type} (dec : forall a b : K, {a = b} + {a <> b})
    (d : list (K * V)) (k : K) (v : V) : list (K * V) :=
  match d with
  | [] => [(k, v)]
  | (k', v') :: r => if dec k k' then (k, v) :: r else (k', v') :: dict_set dec r k v
  end.

(** [d.get(k, {})]. *)
Definition get_or_empty {K V : Type} (dec : forall a b : K, {a = b} + {a <> b})
    (d : list (K * list V)) (k : K) : list V :=
  match Comparison.lookup dec d k with
  | Some v => v
  | None => []
  end.

Section DataSourceTree.

(** [datetime.datetime], [DataSourceTree._parse_time] ([strptime], which
    raises [ValueError] on a malformed value) and the [<=] of datetimes. *)
Variable Time : Type.
Variable parse_time : json -> option Time.
Variable time_le : Time -> Time -> bool.

(** [Measurement] ([end] is a keyword of Rocq). *)
Record Measurement : Type := mkMeasurement {
  source_id : json;
  nickname : json;
  start : Time;
  end_ : Time;
  observatory : string;
  instrument : option string;
  detector : option string;
  measurement : string
}.

(** [self._tree]: [_tree[observatory][instrument][detector][measurement]]. *)
Definition tree : Type :=
  list (string * list (option string * list (option string * list (string * Measurement)))).

(** [_tree.setdefault(o, {}).setdefault(i, {}).setdefault(d, {})[n] = m]. *)
Definition store (t : tree) (o : string) (i d : option string) (n : string)
    (m : Measurement) : tree :=
  let t_o := get_or_empty string_dec t o in
  let t_i := get_or_empty option_string_dec t_o i in
  let t_d := get_or_empty option_string_dec t_i d in
  dict_set string_dec t o
    (dict_set option_string_dec t_o i
       (dict_set option_string_dec t_i d (dict_set string_dec t_d n m))).

(** [isinstance(value, dict) and "sourceId" in value]: the fields of a
    measurement leaf. *)
Definition leaf_fields (value : json) : option (list (string * json)) :=
  match value with
  | JDict fs => if in_dec string_dec "sourceId" (map fst fs) then Some fs else None
  | _ => None
  end.

(** [value[k]]. *)
Definition field (fs : list (string * json)) (k : string) : json + ds_error :=
  match Comparison.lookup string_dec fs k with
  | Some v => inl v
  | None => inr KeyError
  end.

Definition time_field (fs : list (string * json)) (k : string) : Time + ds_error :=
  let? v := field fs k in
  match parse_time v with
  | Some t => inl t
  | None => inr ValueError
  end.

(** The [Measurement(...)] call of [_traverse], its arguments evaluated in
    order. *)
Definition build_measurement (fs : list (string * json)) (o : string) (i d : option string)
    (n : string) : Measurement + ds_error :=
  let? sid := field fs "sourceId" in
  let? nick := field fs "nickname" in
  let? st := time_field fs "start" in
  let? en := time_field fs "end" in
  inl (mkMeasurement sid nick st en o i d n).

(** [_traverse(node, observatory, instrument, detector)]. *)
Fixpoint traverse (node : json) (o : string) (i d : option string) (t : tree)
    : tree + ds_error :=
  match node with
  | JDict items =>
      (fix go (items : list (string * json)) (t : tree) : tree + ds_error :=
         match items with
         | [] => inl t
         | (key, value) :: rest =>
             let? t' :=
               match leaf_fields value with
               | Some fs =>
                   let? m := build_measurement fs o i d key in
                   inl (store t o i d key m)
               | None =>
                   match i with
                   | None => traverse value o (Some key) None t
                   | Some inst =>
                       match d with
                       | None => traverse value o (Some inst) (Some key) t
                       | Some _ => inr ValueError
                       end
                   end
               end in
             go rest t'
         end) items t
  | _ => inr AttributeError
  end.

(** [_tree.setdefault(observatory, {})]. *)
Definition setdefault_observatory (t : tree) (o : string) : tree :=
  match Comparison.lookup string_dec t o with
  | Some _ => t
  | None => (t ++ [(o, [])])%list
  end.

(** [_parse]. *)
Fixpoint parse (data_sources : list (string * json)) (t : tree) : tree + ds_error :=
  match data_sources with
  | [] => inl t
  | (o, obs_data) :: rest =>
      let? t' := traverse obs_data o None None (setdefault_observatory t o) in
      parse rest t'
  end.

(** [DataSourceTree(data_sources)]. *)
Definition DataSourceTree_init (data_sources : list (string * json)) : tree + ds_error :=
  parse data_sources [].

(** [get_measurement]. *)
Definition get_measurement (t : tree) (o : string) (i d : option string) (n : string)
    : option Measurement :=
  Comparison.lookup string_dec
    (get_or_empty option_string_dec
       (get_or_empty option_string_dec (get_or_empty string_dec t o) i) d) n.

(** The loops of [filtered_by_time(start, end)], innermost first:
    [for m in meas.values()], [for det, meas in dets.items()],
    [for inst, dets in insts.items()] and [for obs, insts in self._tree.items()]. *)
Definition filter_meas (s e : Time) (obs : string) (inst det : option string)
    (meas : list (string * Measurement)) (acc : tree) : tree :=
  fold_left (fun acc '(_, m) =>
    if time_le (start m) e && time_le s (end_ m)
    then store acc obs inst det (measurement m) m
    else acc) meas acc.

Definition filter_dets (s e : Time) (obs : string) (inst : option string)
    (dets : list (option string * list (string * Measurement))) (acc : tree) : tree :=
  fold_left (fun acc '(det, meas) => filter_meas s e obs inst det meas acc) dets acc.

Definition filter_insts (s e : Time) (obs : string)
    (insts : list (option string * list (option string * list (string * Measurement))))
    (acc : tree) : tree :=
  fold_left (fun acc '(inst, dets) => filter_dets s e obs inst dets acc) insts acc.

(** [filtered_by_time(start, end)]: the [_tree] of the new instance. *)
Definition filtered_by_time (t : tree) (s e : Time) : tree :=
  fold_left (fun acc '(obs, insts) => filter_insts s e obs insts acc) t [].

(** The structure the docstring of [DataSourceTree] describes: the leaf
    (a dict with ["sourceId"]) reached from the raw input by the path
    observatory, then instrument and detector when given, then measurement;
    intermediate levels are dicts without ["sourceId"]. *)
Definition intermediate (v : option json) : option (list (string * json)) :=
  match v with
  | Some (JDict l as node) => match leaf_fields node with Some _ => None | None => Some l end
  | _ => None
  end.

Definition leaf_at (v : option json) : option (list (string * json)) :=
  match v with
  | Some node => leaf_fields node
  | None => None
  end.

Definition raw_leaf (data_sources : list (string * json)) (o : string) (i d : option string)
    (n : string) : option (list (string * json)) :=
  match Comparison.lookup string_dec data_sources o with
  | Some (JDict l1) =>
      match i, d with
      | None, None => leaf_at (Comparison.lookup string_dec l1 n)
      | Some a, None =>
          match intermediate (Comparison.lookup string_dec l1 a) with
          | Some l2 => leaf_at (Comparison.lookup string_dec l2 n)
          | None => None
          end
      | Some a, Some b =>
          match intermediate (Comparison.lookup string_dec l1 a) with
          | Some l2 =>
              match intermediate (Comparison.lookup string_dec l2 b) with
              | Some l3 => leaf_at (Comparison.lookup string_dec l3 n)
              | None => None
              end
          | None => None
          end
      | None, Some _ => None
      end
  | _ => None
  end.

End DataSourceTree.

(** The same structure, read from a dict at a given level of the traversal
    ([instrument], [detector] as in [_traverse]): the leaf at the target
    path below it, if any. *)
Definition node_leaf (items : list (string * json)) (i d : option string)
    (i' d' : option string) (n' : string) : option (list (string * json)) :=
  match i, d with
  | None, None =>
      match i', d' with
      | None, None => leaf_at (Comparison.lookup string_dec items n')
      | Some a, None =>
          match intermediate (Comparison.lookup string_dec items a) with
          | Some l2 => leaf_at (Comparison.lookup string_dec l2 n')
          | None => None
          end
      | Some a, Some b =>
          match intermediate (Comparison.lookup string_dec items a) with
          | Some l2 =>
              match intermediate (Comparison.lookup string_dec l2 b) with
              | Some l3 => leaf_at (Comparison.lookup string_dec l3 n')
              | None => None
              end
          | None => None
          end
      | None, Some _ => None
      end
  | Some a0, None =>
      if option_string_dec i' (Some a0) then
        match d' with
        | None => leaf_at (Comparison.lookup string_dec items n')
        | Some b =>
            match intermediate (Comparison.lookup string_dec items b) with
            | Some l3 => leaf_at (Comparison.lookup string_dec l3 n')
            | None => None
            end
        end
      else None
  | Some a0, Some b0 =>
      if option_string_dec i' (Some a0) then
        if option_string_dec d' (Some b0) then leaf_at (Comparison.lookup string_dec items n')
        else None
      else None
  | None, Some _ => None
  end.

(** Python dicts have distinct keys, at every level. *)
Fixpoint json_wf (j : json) : Prop :=
  match j with
  | JDict items =>
      NoDup (map fst items) /\
      (fix all (items : list (string * json)) : Prop :=
         match items with
         | [] => True
         | (_, v) :: rest => json_wf v /\ all rest
         end) items
  | _ => True
  end.

Arguments mkMeasurement {Time} _ _ _ _ _ _ _ _.
Arguments source_id {Time} _.
Arguments nickname {Time} _.
Arguments start {Time} _.
Arguments end_ {Time} _.
Arguments observatory {Time} _.
Arguments instrument {Time} _.
Arguments detector {Time} _.
Arguments measurement {Time} _.
Arguments store {Time} _ _ _ _ _ _.
Arguments time_field {Time} _ _ _.
Arguments build_measurement {Time} _ _ _ _ _ _.
Arguments traverse {Time} _ _ _ _ _ _.
Arguments setdefault_observatory {Time} _ _.
Arguments parse {Time} _ _ _.
Arguments DataSourceTree_init {Time} _ _.
Arguments get_measurement {Time} _ _ _ _ _.
Arguments filter_meas {Time} _ _ _ _ _ _ _ _.
Arguments filter_dets {Time} _ _ _ _ _ _ _.
Arguments filter_insts {Time} _ _ _ _ _ _.
Arguments filtered_by_time {Time} _ _ _ _.

(** The invariant of a [_tree]: the keys of every dict are distinct, and
    every measurement is stored under its own name. *)
Definition meas_wf {Time : Type} (meas : list (string * Measurement Time)) : Prop :=
  NoDup (map fst meas) /\ Forall (fun p => measurement (snd p) = fst p) meas.

Definition dets_wf {Time : Type}
    (dets : list (option string * list (string * Measurement Time))) : Prop :=
  NoDup (map fst dets) /\ Forall (fun p => meas_wf (snd p)) dets.

Definition insts_wf {Time : Type}
    (insts : list (option string * list (option string * list (string * Measurement Time))))
    : Prop :=
  NoDup (map fst insts) /\ Forall (fun p => dets_wf (snd p)) insts.

Definition tree_wf {Time : Type} (t : tree Time) : Prop :=
  NoDup (map fst t) /\ Forall (fun p => insts_wf (snd p)) t.

(** [sorted] of a list of [str]: Python orders strings by code point, as
    [String.compare] orders their UTF-8 bytes. On distinct keys the result
    does not depend on the sorting algorithm; insertion sort here. *)
Fixpoint insert_sorted (x : string) (l : list string) : list string :=
  match l with
  | [] => [x]
  | y :: r =>
      match String.compare y x with
      | Lt => y :: insert_sorted x r
      | _ => x :: l
      end
  end.

Fixpoint py_sorted (l : list string) : list string :=
  match l with
  | [] => []
  | x :: r => insert_sorted x (py_sorted r)
  end.

(** [[i for i in keys if i is not None]]. *)
Fixpoint not_none (l : list (option string)) : list string :=
  match l with
  | [] => []
  | None :: r => not_none r
  | Some x :: r => x :: not_none r
  end.

(** [observatories()]. *)
Definition observatories {Time : Type} (t : tree Time) : list string :=
  py_sorted (map fst t).

(** [instruments(observatory)]: [None] when the observatory is absent or
    empty, or when [sorted(instruments)] is empty. *)
Definition instruments {Time : Type} (t : tree Time) (o : string) : option (list string) :=
  match Comparison.lookup string_dec t o with
  | None | Some [] => None
  | Some obs =>
      match py_sorted (not_none (map fst obs)) with
      | [] => None
      | l => Some l
      end
  end.

(** [detectors(observatory, instrument)]. *)
Definition detectors {Time : Type} (t : tree Time) (o : string) (i : option string)
    : option (list string) :=
  match Comparison.lookup option_string_dec (get_or_empty string_dec t o) i with
  | None | Some [] => None
  | Some inst =>
      match py_sorted (not_none (map fst inst)) with
      | [] => None
      | l => Some l
      end
  end.

(** [measurements(observatory, instrument, detector)]. *)
Definition measurements {Time : Type} (t : tree Time) (o : string) (i d : option string)
    : option (list string) :=
  match Comparison.lookup option_string_dec
          (get_or_empty option_string_dec (get_or_empty string_dec t o) i) d with
  | None | Some [] => None
  | Some det => Some (py_sorted (map fst det))
  end.

(** Below an observatory, no dict of a [_tree] is empty. *)
Definition tree_ne {Time : Type} (t : tree Time) : Prop :=
  Forall (fun p => Forall (fun q => snd q <> [] /\ Forall (fun r => snd r <> []) (snd q))
                     (snd p)) t.

(** [a <= b] on strings. *)
Definition str_le (a b : string) : Prop := String.compare a b <> Gt.

Section InputShape.
Variable Time : Type.
Variable parse_time : json -> option Time.

(** The input the docstring of [DataSourceTree] asks for. A leaf dict has
    ["sourceId"], ["nickname"], ["start"] and ["end"], its times in the
    format [_parse_time] reads. *)
Definition leaf_ok (fs : list (string * json)) : Prop :=
  (exists v, Comparison.lookup string_dec fs "sourceId" = Some v) /\
  (exists v, Comparison.lookup string_dec fs "nickname" = Some v) /\
  (exists v t, Comparison.lookup string_dec fs "start" = Some v /\ parse_time v = Some t) /\
  (exists v t, Comparison.lookup string_dec fs "end" = Some v /\ parse_time v = Some t).

Definition entry_ok (deeper : json -> Prop) (v : json) : Prop :=
  match leaf_fields v with
  | Some fs => leaf_ok fs
  | None => deeper v
  end.

Definition dict_ok (P : json -> Prop) (v : json) : Prop :=
  match v with
  | JDict items => Forall (fun p => P (snd p)) items
  | _ => False
  end.

(** Every level is a dict, with at most three levels (observatory,
    instrument, detector) above the leaves. *)
Definition detector_ok : json -> Prop := dict_ok (entry_ok (fun _ => False)).
Definition instrument_ok : json -> Prop := dict_ok (entry_ok detector_ok).
Definition observatory_ok : json -> Prop := dict_ok (entry_ok instrument_ok).

Definition input_ok (data_sources : list (string * json)) : Prop :=
  Forall (fun p => observatory_ok (snd p)) data_sources.

End InputShape.

End DataSources.

(** * Properties *)

Open Scope R_scope.

Ltac branch_cases :=
  unfold Geometry.in_rhs_leg, Geometry.in_lhs_leg, Geometry.in_curved_section,
    Geometry.Rle_b, Geometry.Rlt_b;
  repeat first [ destruct (Rle_dec _ _) | destruct (Rlt_dec _ _) ]; simpl.

Section GeometryFacts.
Import Geometry.

Lemma cos_pos_half_angle (a : R) : 0 <= a < PI / 2 -> 0 < cos a.
Proof. intros [H0 H1]. apply cos_gt_0; pose proof PI2_RGT_0; lra. Qed.

Lemma one_plus_sin_pos (a : R) : 0 <= a < PI / 2 -> 0 < 1 + sin a.
Proof.
  intros [H0 H1]. assert (0 <= sin a) by (apply sin_ge_0; pose proof PI_RGT_0; lra).
  lra.
Qed.

(** Exact round trip of the two conversions on the valid domain. *)
Lemma compute_leading_edge_cone_height (a k L : R) :
  0 <= a < PI / 2 -> 0 <= k < 1 ->
  compute_leading_edge a k (compute_cone_height a k L) = L.
Proof.
  intros Ha Hk. pose proof (cos_pos_half_angle a Ha). pose proof (one_plus_sin_pos a Ha).
  unfold compute_leading_edge, compute_cone_height.
  field. split; lra.
Qed.


Lemma Rle_b_spec (x y : R) : Rle_b x y = true <-> x <= y.
Proof. unfold Rle_b; destruct (Rle_dec x y); split; intros; (congruence || lra). Qed.

Lemma Rlt_b_spec (x y : R) : Rlt_b x y = true <-> x < y.
Proof. unfold Rlt_b; destruct (Rlt_dec x y); split; intros; (congruence || lra). Qed.

Lemma np_sqrt_nonneg (x : R) : 0 <= x -> np_sqrt x = Some (sqrt x).
Proof. intros Hx. unfold np_sqrt, Rlt_b. destruct (Rlt_dec x 0); [lra | reflexivity]. Qed.


(** The numerator of [R_sqr] over [(1 - k^2)^2] is [k^2] times a sum of
    squares when [k^2 < 1]. *)
Lemma R_sqr_factor (s : GCSGeometry) (beta : R) :
  aspect_ratio s ^ 2 < 1 ->
  R_sqr s beta =
    aspect_ratio s ^ 2 *
    ((rho s + b s * sin beta) ^ 2
     + b s ^ 2 * (1 - aspect_ratio s ^ 2) * cos beta ^ 2)
    / (1 - aspect_ratio s ^ 2) ^ 2.
Proof.
  intros Hk. unfold R_sqr, X0.
  set (k2 := aspect_ratio s ^ 2) in *. set (r := rho s). set (bb := b s).
  pose proof (sin2_cos2 beta) as Hsc. unfold Rsqr in Hsc.
  replace (cos beta ^ 2) with (1 - sin beta ^ 2) by (simpl; lra).
  field. lra.
Qed.

Lemma R_sqr_nonneg (s : GCSGeometry) (beta : R) :
  aspect_ratio s ^ 2 < 1 -> 0 <= R_sqr s beta.
Proof.
  intros Hk. rewrite (R_sqr_factor s beta Hk).
  set (k2 := aspect_ratio s ^ 2) in *.
  assert (Hk2 : 0 <= k2) by (unfold k2; simpl; nra).
  apply Rmult_le_pos.
  - apply Rmult_le_pos; [exact Hk2|].
    apply Rplus_le_le_0_compat; [apply pow2_ge_0|].
    apply Rmult_le_pos; [apply Rmult_le_pos; [apply pow2_ge_0 | lra] | apply pow2_ge_0].
  - apply Rlt_le, Rinv_0_lt_compat. apply pow_lt. lra.
Qed.

(** C1: for a valid state and a positive [L], setting [leading_edge] to [L],
    reading the derived [cone_height] and recomputing the leading edge from
    it with the invariant formula gives back [L] within [1e-9] relative
    tolerance (in exact arithmetic the two agree exactly). *)
Theorem leading_edge_roundtrip (s : GCSGeometry) (L : R) :
  0 <= half_angle s < PI / 2 -> 0 <= aspect_ratio s < 1 -> 0 < L ->
  let s' := set_leading_edge s L in
  Rabs (compute_leading_edge (half_angle s') (aspect_ratio s') (cone_height s') - L)
    <= 1e-9 * Rabs L.
Proof.
  intros Ha Hk HL s'. unfold s'; simpl.
  rewrite (compute_leading_edge_cone_height _ _ _ Ha Hk).
  replace (L - L) with 0 by ring. rewrite Rabs_R0, (Rabs_pos_eq L) by lra. lra.
Qed.

(** C10: the [half_angle] and [aspect_ratio] setters keep [leading_edge]
    and recompute only [cone_height] from the new angle or ratio and the
    kept leading edge. *)
Theorem setters_keep_leading_edge (s : GCSGeometry) (v : R) :
  (half_angle (set_half_angle s v) = v /\
   aspect_ratio (set_half_angle s v) = aspect_ratio s /\
   leading_edge (set_half_angle s v) = leading_edge s /\
   cone_height (set_half_angle s v)
     = compute_cone_height v (aspect_ratio s) (leading_edge s)) /\
  (half_angle (set_aspect_ratio s v) = half_angle s /\
   aspect_ratio (set_aspect_ratio s v) = v /\
   leading_edge (set_aspect_ratio s v) = leading_edge s /\
   cone_height (set_aspect_ratio s v)
     = compute_cone_height (half_angle s) v (leading_edge s)).
Proof. repeat split. Qed.

(** C7 (counterexample): from a valid state, setting [aspect_ratio] to [1]
    does not fail; it keeps the leading edge and yields a cone height of
    [0]. *)
Lemma aspect_ratio_one_no_error :
  set_aspect_ratio (mkGCSGeometry 0 0 1 1) 1 = mkGCSGeometry 0 1 1 0.
Proof.
  unfold set_aspect_ratio, set_leading_edge, compute_cone_height; simpl.
  f_equal. field. rewrite sin_0. lra.
Qed.

(** C7 (amended): the [aspect_ratio] setter has no domain check: for every
    value it stores the value, keeps [leading_edge] and sets [cone_height]
    to [leading_edge * cos(half_angle) * (1 - value) / (1 + sin(half_angle))];
    for a valid half angle and the value [1] this cone height is [0] (the
    denominator is positive, no division by zero). *)
Theorem aspect_ratio_setter_unchecked (s : GCSGeometry) (v : R) :
  set_aspect_ratio s v =
    mkGCSGeometry (half_angle s) v (leading_edge s)
      (compute_cone_height (half_angle s) v (leading_edge s)) /\
  (0 <= half_angle s < PI / 2 -> cone_height (set_aspect_ratio s 1) = 0).
Proof.
  split; [reflexivity|].
  intros Ha. pose proof (one_plus_sin_pos _ Ha).
  simpl. unfold compute_cone_height. field. lra.
Qed.

Lemma aspect_ratio_setter_unchecked_witness :
  (0 <= half_angle (mkGCSGeometry 0 0 1 1) < PI / 2) /\
  cone_height (set_aspect_ratio (mkGCSGeometry 0 0 1 1) 1) = 0.
Proof.
  assert (Ha : 0 <= half_angle (mkGCSGeometry 0 0 1 1) < PI / 2)
    by (simpl; pose proof PI2_RGT_0; lra).
  split; [exact Ha|].
  exact (proj2 (aspect_ratio_setter_unchecked (mkGCSGeometry 0 0 1 1) 1) Ha).
Defined.

Lemma leading_edge_roundtrip_witness :
  (0 <= half_angle (mkGCSGeometry 0 (1/2) 1 1) < PI / 2) /\
  (0 <= aspect_ratio (mkGCSGeometry 0 (1/2) 1 1) < 1) /\ 0 < 3 /\
  Rabs (compute_leading_edge 0 (1/2) (compute_cone_height 0 (1/2) 3) - 3)
    <= 1e-9 * Rabs 3.
Proof.
  assert (Ha : 0 <= half_angle (mkGCSGeometry 0 (1/2) 1 1) < PI / 2)
    by (simpl; pose proof PI2_RGT_0; lra).
  assert (Hk : 0 <= aspect_ratio (mkGCSGeometry 0 (1/2) 1 1) < 1) by (simpl; lra).
  split; [exact Ha|]. split; [exact Hk|]. split; [lra|].
  exact (leading_edge_roundtrip (mkGCSGeometry 0 (1/2) 1 1) 3 Ha Hk
           ltac:(lra)).
Defined.


(** On the curved cap, the two leg tests fail and the cap test holds. *)
Lemma curved_branch_selected (s : GCSGeometry) (beta : R) :
  - half_angle s < beta < PI + half_angle s ->
  in_rhs_leg s beta = false /\ in_lhs_leg s beta = false /\
  in_curved_section s beta = true.
Proof. intros Hb. repeat split; branch_cases; (reflexivity || lra). Qed.

(** Exactly one of three booleans is set. *)
Definition exactly_one (x y z : bool) : bool :=
  (x && negb y && negb z) || (negb x && y && negb z) || (negb x && negb y && z).

(** C2: for [0 < half_angle < PI/2], every [beta] in [[-PI/2, 3PI/2)] falls
    in exactly one of the three branches (right leg, left leg, curved cap)
    and [cross_section_circle] returns a cross section; an angle below
    [-PI/2] or above [3PI/2] (outside the union of the branches) is
    rejected with [ValueError], the source's exception for this case. *)
Theorem cross_section_branch_exhaustive (s : GCSGeometry) (beta : R) :
  0 < half_angle s < PI / 2 ->
  (- (PI / 2) <= beta < 3 * PI / 2 ->
     exactly_one (in_rhs_leg s beta) (in_lhs_leg s beta)
                 (in_curved_section s beta) = true /\
     exists cs, cross_section_circle s beta = Ok cs) /\
  (beta < - (PI / 2) \/ 3 * PI / 2 < beta ->
     cross_section_circle s beta = Err ValueError).
Proof.
  intros Ha. pose proof PI_RGT_0. split.
  - intros Hb. unfold cross_section_circle. split.
    + unfold exactly_one. branch_cases; (reflexivity || lra).
    + branch_cases; (eexists; reflexivity) || lra.
  - intros Hb. unfold cross_section_circle.
    branch_cases; (reflexivity || lra).
Qed.

Lemma cross_section_branch_exhaustive_witness :
  (0 < half_angle (mkGCSGeometry (PI / 4) (1/2) 1 1) < PI / 2) /\
  (- (PI / 2) <= 0 < 3 * PI / 2) /\
  exactly_one (in_rhs_leg (mkGCSGeometry (PI / 4) (1/2) 1 1) 0)
              (in_lhs_leg (mkGCSGeometry (PI / 4) (1/2) 1 1) 0)
              (in_curved_section (mkGCSGeometry (PI / 4) (1/2) 1 1) 0) = true.
Proof.
  pose proof PI_RGT_0.
  assert (Ha : 0 < half_angle (mkGCSGeometry (PI / 4) (1/2) 1 1) < PI / 2)
    by (simpl; lra).
  assert (Hb : - (PI / 2) <= 0 < 3 * PI / 2) by lra.
  split; [exact Ha|]. split; [exact Hb|].
  exact (proj1 (proj1 (cross_section_branch_exhaustive _ 0 Ha) Hb)).
Defined.

(** C3: on the curved cap ([-half_angle < beta < PI + half_angle]) of a
    valid geometry, [cross_section_circle] returns the center
    [(X0 cos beta, X0 sin beta + b, 0)], the normal [(-sin beta, cos beta, 0)]
    and a real radius [r >= 0] with
    [r^2 = X0^2 + (k^2 b^2 - rho^2)/(1-k^2)], where
    [X0 = (rho + b k^2 sin beta)/(1-k^2)] and [k = aspect_ratio]. *)
Theorem curved_branch_closed_form (s : GCSGeometry) (beta : R) :
  0 <= half_angle s < PI / 2 -> 0 <= aspect_ratio s < 1 ->
  - half_angle s < beta < PI + half_angle s ->
  let k := aspect_ratio s in
  let x0 := (rho s + b s * k ^ 2 * sin beta) / (1 - k ^ 2) in
  exists r,
    cross_section_circle s beta =
      Ok {| center := (x0 * cos beta, x0 * sin beta + b s, 0);
            radius := Some r;
            normal := (- sin beta, cos beta, 0) |} /\
    0 <= r /\
    r * r = x0 ^ 2 + (k ^ 2 * b s ^ 2 - rho s ^ 2) / (1 - k ^ 2).
Proof.
  intros Ha Hk Hb k x0.
  assert (Hk2 : aspect_ratio s ^ 2 < 1) by (simpl; nra).
  pose proof (R_sqr_nonneg s beta Hk2) as Hnn.
  exists (sqrt (R_sqr s beta)). split; [|split].
  - unfold cross_section_circle.
    destruct (curved_branch_selected s beta Hb) as (-> & -> & ->).
    unfold R_. rewrite (np_sqrt_nonneg _ Hnn). reflexivity.
  - apply sqrt_pos.
  - rewrite sqrt_sqrt by exact Hnn. unfold R_sqr, X0; subst x0 k; cbv zeta. f_equal. f_equal. f_equal; simpl; ring.
Qed.

Lemma curved_branch_closed_form_witness :
  (0 <= half_angle (mkGCSGeometry 0 (1/2) 1 1) < PI / 2) /\
  (0 <= aspect_ratio (mkGCSGeometry 0 (1/2) 1 1) < 1) /\
  (- half_angle (mkGCSGeometry 0 (1/2) 1 1) < PI / 2
     < PI + half_angle (mkGCSGeometry 0 (1/2) 1 1)) /\
  (let s := mkGCSGeometry 0 (1/2) 1 1 in
   let k := aspect_ratio s in
   let x0 := (rho s + b s * k ^ 2 * sin (PI / 2)) / (1 - k ^ 2) in
   exists r,
     cross_section_circle s (PI / 2) =
       Ok {| center := (x0 * cos (PI / 2), x0 * sin (PI / 2) + b s, 0);
             radius := Some r;
             normal := (- sin (PI / 2), cos (PI / 2), 0) |} /\
     0 <= r /\
     r * r = x0 ^ 2 + (k ^ 2 * b s ^ 2 - rho s ^ 2) / (1 - k ^ 2)).
Proof.
  pose proof PI_RGT_0.
  assert (H1 : 0 <= half_angle (mkGCSGeometry 0 (1/2) 1 1) < PI / 2) by (simpl; lra).
  assert (H2 : 0 <= aspect_ratio (mkGCSGeometry 0 (1/2) 1 1) < 1) by (simpl; lra).
  assert (H3 : - half_angle (mkGCSGeometry 0 (1/2) 1 1) < PI / 2
                 < PI + half_angle (mkGCSGeometry 0 (1/2) 1 1)) by (simpl; lra).
  split; [exact H1|]. split; [exact H2|]. split; [exact H3|].
  exact (curved_branch_closed_form (mkGCSGeometry 0 (1/2) 1 1) (PI / 2) H1 H2 H3).
Defined.



End GeometryFacts.


Section OrientationFacts.
Import Model.

(** The stored matrices agree with the stored angles. *)
Definition orientation_consistent (m : GCSModel) : Prop :=
  rot_x m = RotationTransform.x (latitude m) /\
  rot_y m = RotationTransform.y (tilt m) /\
  rot_z m = RotationTransform.z (- (1/2) * PI + longitude m).

Lemma init_consistent (a k L lon lat tl : R) (m : GCSModel) :
  Model.init a k (Some L) lon lat tl = Ok m ->
  orientation_consistent m /\ longitude m = lon /\ latitude m = lat /\ tilt m = tl.
Proof.
  unfold Model.init, Geometry.init. simpl. intros H. inversion H; subst.
  unfold orientation_consistent; simpl. repeat split.
Qed.

Lemma apply_op_consistent (m : GCSModel) (op : model_op) :
  orientation_consistent m -> orientation_consistent (apply_op m op).
Proof.
  intros (Hx & Hy & Hz). unfold orientation_consistent.
  destruct op; simpl; repeat split; assumption.
Qed.

Lemma apply_ops_consistent (ops : list model_op) (m : GCSModel) :
  orientation_consistent m -> orientation_consistent (apply_ops m ops).
Proof.
  revert m. induction ops as [|op ops IH]; intros m Hm; simpl; [exact Hm|].
  apply IH, apply_op_consistent, Hm.
Qed.

Lemma tmatrix_consistent (m : GCSModel) :
  orientation_consistent m ->
  tmatrix m = dot (RotationTransform.z (- (1/2) * PI + longitude m))
                  (dot (RotationTransform.y (tilt m)) (RotationTransform.x (latitude m))).
Proof. intros (Hx & Hy & Hz). unfold tmatrix. rewrite Hx, Hy, Hz. reflexivity. Qed.

Definition I3 : mat3 := mkMat3 1 0 0 0 1 0 0 0 1.

Lemma rot_x_0 : RotationTransform.x 0 = I3.
Proof. unfold RotationTransform.x, I3. rewrite cos_0, sin_0, Ropp_0. reflexivity. Qed.

Lemma rot_y_0 : RotationTransform.y 0 = I3.
Proof. unfold RotationTransform.y, I3. rewrite cos_0, sin_0, Ropp_0. reflexivity. Qed.

Lemma rot_z_0 : RotationTransform.z 0 = I3.
Proof. unfold RotationTransform.z, I3. rewrite cos_0, sin_0, Ropp_0. reflexivity. Qed.

Lemma dot_I3 : dot I3 I3 = I3.
Proof. unfold dot, I3; simpl. f_equal; ring. Qed.

(** The reverse-order composition [Rx(latitude) . Ry(tilt) . Rz(-pi/2 + longitude)]. *)
Definition reverse_composition (m : GCSModel) : mat3 :=
  dot (RotationTransform.x (latitude m))
      (dot (RotationTransform.y (tilt m))
           (RotationTransform.z (- (1/2) * PI + longitude m))).

(** C4 (counterexample): for [longitude = 90 deg, latitude = 0, tilt = 0] all
    three factors are the identity, so [tmatrix] equals the reverse-order
    composition. *)
Lemma tmatrix_equals_reverse_at_lon90 :
  exists m, Model.init 0 0 (Some 1) (PI / 2) 0 0 = Ok m /\
            tmatrix m = reverse_composition m.
Proof.
  eexists; split; [reflexivity|].
  unfold reverse_composition, tmatrix; simpl.
  replace (- (1/2) * PI + PI / 2) with 0 by lra.
  rewrite rot_x_0, rot_y_0, rot_z_0. reflexivity.
Qed.

(** C4 (amended): after construction and any sequence of parameter
    settings, [tmatrix = Rz(-pi/2 + longitude) . Ry(tilt) . Rx(latitude)]
    in this order; at [longitude = 90 deg, latitude = tilt = 0] it is the
    identity and equals the reverse-order composition, while at
    [longitude = 0, latitude = 0, tilt = 90 deg] the two orders differ. *)
Theorem tmatrix_fixed_order (a k L lon lat tl : R) (m0 : GCSModel) (ops : list model_op) :
  Model.init a k (Some L) lon lat tl = Ok m0 ->
  (tmatrix (apply_ops m0 ops) =
     dot (RotationTransform.z (- (1/2) * PI + longitude (apply_ops m0 ops)))
         (dot (RotationTransform.y (tilt (apply_ops m0 ops)))
              (RotationTransform.x (latitude (apply_ops m0 ops))))) /\
  (exists m, Model.init 0 0 (Some 1) (PI / 2) 0 0 = Ok m /\
             tmatrix m = I3 /\ reverse_composition m = I3) /\
  (exists m, Model.init 0 0 (Some 1) 0 0 (PI / 2) = Ok m /\
             tmatrix m <> reverse_composition m).
Proof.
  intros Hinit. split; [|split].
  - apply tmatrix_consistent, apply_ops_consistent.
    exact (proj1 (init_consistent _ _ _ _ _ _ _ Hinit)).
  - eexists; split; [reflexivity|].
    unfold reverse_composition, tmatrix; simpl.
    replace (- (1/2) * PI + PI / 2) with 0 by lra.
    rewrite rot_x_0, rot_y_0, rot_z_0, !dot_I3. split; reflexivity.
  - eexists; split; [reflexivity|].
    unfold reverse_composition, tmatrix; simpl.
    replace (- (1/2) * PI + 0) with (- (PI / 2)) by lra.
    rewrite rot_x_0. intros Heq. apply (f_equal m12) in Heq.
    unfold dot, I3, RotationTransform.y, RotationTransform.z in Heq; simpl in Heq.
    rewrite cos_neg, sin_neg, cos_PI2, sin_PI2 in Heq. lra.
Qed.

Lemma tmatrix_fixed_order_witness :
  exists m0, Model.init 0 0 (Some 1) (PI / 3) (PI / 5) (PI / 7) = Ok m0 /\
    tmatrix (apply_ops m0 [SetTilt 1; SetLongitude 2]) =
      dot (RotationTransform.z (- (1/2) * PI + longitude (apply_ops m0 [SetTilt 1; SetLongitude 2])))
          (dot (RotationTransform.y (tilt (apply_ops m0 [SetTilt 1; SetLongitude 2])))
               (RotationTransform.x (latitude (apply_ops m0 [SetTilt 1; SetLongitude 2])))).
Proof.
  eexists. split; [reflexivity|].
  exact (proj1 (tmatrix_fixed_order 0 0 1 (PI / 3) (PI / 5) (PI / 7) _
                  [SetTilt 1; SetLongitude 2] eq_refl)).
Defined.

End OrientationFacts.

Section DifferenceFacts.
Import Difference.
Open Scope Z_scope.

(** C5: the reference is invalid exactly when it is unset or negative; a
    disabled modifier or an invalid reference returns the data unchanged;
    an enabled modifier with a reference [r >= 0] naming a frame of the
    sequence (of the same shape) returns the data minus that frame's data,
    numpy's [uint8] subtraction, which wraps modulo 256. *)
Theorem difference_modifier_apply (m : DifferenceImageModifier)
    (map_sequence : list Map) (map_data : pixels) :
  (is_valid_reference_frame m = false <->
     reference_frame m = None \/ exists r, reference_frame m = Some r /\ r < 0) /\
  (is_enabled m = false \/ is_valid_reference_frame m = false ->
     call m map_sequence map_data = Ok map_data) /\
  (forall r reference_map,
     is_enabled m = true -> reference_frame m = Some r -> 0 <= r ->
     nth_error map_sequence (Z.to_nat r) = Some reference_map ->
     List.length (data reference_map) = List.length map_data ->
     call m map_sequence map_data =
       Ok (map (fun '(x, y) => uint8_sub x y) (combine map_data (data reference_map)))).
Proof.
  split; [|split].
  - unfold is_valid_reference_frame. destruct (reference_frame m) as [r|].
    + split.
      * intros H. right. exists r. split; [reflexivity|].
        destruct (r <? 0) eqn:E; [apply Z.ltb_lt; exact E | discriminate].
      * intros [H|(r' & H & Hr)]; [discriminate|]. inversion H; subst.
        apply Z.ltb_lt in Hr. rewrite Hr. reflexivity.
    + split; [left; reflexivity | reflexivity].
  - intros [H|H]; unfold call; rewrite H; [reflexivity|].
    rewrite orb_true_r. reflexivity.
  - intros r ref Hen Hr Hr0 Hnth Hlen. unfold call, is_valid_reference_frame.
    rewrite Hen, Hr. replace (r <? 0) with false by (symmetry; apply Z.ltb_ge; lia).
    simpl. unfold py_index.
    replace (r <? 0) with false by (symmetry; apply Z.ltb_ge; lia).
    replace (r <? 0) with false by (symmetry; apply Z.ltb_ge; lia).
    rewrite Hnth. simpl. unfold array_sub. rewrite Hlen, Nat.eqb_refl. reflexivity.
Qed.

Lemma difference_modifier_apply_witness :
  call (mkDifferenceImageModifier true (Some 1))
       [mkMap [5; 5] "gray"; mkMap [5; 2] "gray"] [1; 20] = Ok [252; 18].
Proof.
  exact (proj2 (proj2 (difference_modifier_apply
                         (mkDifferenceImageModifier true (Some 1))
                         [mkMap [5; 5] "gray"; mkMap [5; 2] "gray"] [1; 20]))
           1 (mkMap [5; 2] "gray") eq_refl eq_refl
           ltac:(lia) eq_refl eq_refl).
Defined.

End DifferenceFacts.

Section MapSequenceFacts.
Import MapSequence.
Open Scope Z_scope.

(** [update_to_frame] displays the clamped frame index. *)
Lemma update_to_frame_clamps (fc : string -> option Z -> option Z -> pixels -> Z)
    (c c' : MapSequencePlotContainer) (i : Z) :
  1 <= num_frames c -> update_to_frame fc c i = Ok c' ->
  current_frame_index c' =
    (if i <? 0 then 0 else if num_frames c <=? i then num_frames c - 1 else i).
Proof.
  intros Hn H. unfold update_to_frame, bind in H.
  destruct (get_map_data c _); [|discriminate].
  destruct (String.eqb _ _).
  - destruct (py_index _ _); inversion H; subst; simpl.
    unfold np_clip. destruct (i <? 0) eqn:E1; [apply Z.ltb_lt in E1; lia|].
    apply Z.ltb_ge in E1. destruct (num_frames c <=? i) eqn:E2;
      [apply Z.leb_le in E2 | apply Z.leb_gt in E2]; lia.
  - inversion H; subst; simpl.
    unfold np_clip. destruct (i <? 0) eqn:E1; [apply Z.ltb_lt in E1; lia|].
    apply Z.ltb_ge in E1. destruct (num_frames c <=? i) eqn:E2;
      [apply Z.leb_le in E2 | apply Z.leb_gt in E2]; lia.
Qed.

(** A two-frame sequence whose frames have different intrinsic colormaps,
    displayed at frame 0 with the "default" colormap. *)
Definition two_cmap_view : MapSequencePlotContainer :=
  {| map_sequence := [mkMap [1; 2] "gray"; mkMap [3; 4] "viridis"];
     colorbar_state := mkColorbarState "default" None None;
     current_frame_index := 0;
     modifier := Difference.new;
     im := mkImage [1; 2] "gray" (None, None);
     facecolor := 0 |}.

(** C6: calling [update_to_frame 1] twice on [two_cmap_view] does not
    reproduce the same visible state: the first call colours frame 1 with
    the colormap of the previously displayed frame 0 ("gray"), the second
    with frame 1's own colormap ("viridis"). *)
Theorem update_to_frame_not_idempotent :
  exists c1 c2,
    update_to_frame (fun _ _ _ _ => 0) two_cmap_view 1 = Ok c1 /\
    update_to_frame (fun _ _ _ _ => 0) c1 1 = Ok c2 /\
    v_index (visible c1) = 1 /\ v_index (visible c2) = 1 /\
    v_data (visible c1) = v_data (visible c2) /\
    v_cmap (visible c1) = "gray"%string /\ v_cmap (visible c2) = "viridis"%string /\
    visible c1 <> visible c2.
Proof.
  do 2 eexists. split; [reflexivity|]. split; [reflexivity|].
  vm_compute. repeat split; try reflexivity. discriminate.
Qed.

End MapSequenceFacts.

Section JuxFacts.
Import Jux.
Open Scope Z_scope.

(** Two views: A with timestamps [0,10,20,30], B with [0,7,22]. *)
Definition env_two_views : SyncEnv :=
  mkSyncEnv true 0 [[0; 10; 20; 30]; [0; 7; 22]] [0; 0] [4; 3].

(** Three views, the middle one in running-difference mode (offset 1). *)
Definition env_three_views : SyncEnv :=
  mkSyncEnv true 0 [[0; 10; 20; 30]; [0; 7; 22]; [0; 7; 22]] [0; 1; 0] [4; 3; 3].

(** C9: with two views the example of the spec holds (B goes to index 2,
    t = 22); an event from a non-active view changes nothing; with a third
    view after a running-difference view, the handler reuses [target] as
    an integer and raises [TypeError] before setting the third view's
    frame, whose nearest frame would be index 2. *)
Theorem time_sync_target_overwritten :
  on_frame_change env_two_views (mkSyncState [2; 0] [-1; -1]) 2 0
    = Ok (mkSyncState [2; 2] [-1; -1]) /\
  on_frame_change env_two_views (mkSyncState [2; 0] [-1; -1]) 1 1
    = Ok (mkSyncState [2; 0] [-1; -1]) /\
  argmin (map (fun d => Z.abs (d - 20)) [0; 7; 22]) = Ok 2 /\
  on_frame_change env_three_views (mkSyncState [2; 0; 0] [-1; -1; -1]) 2 0
    = Err TypeError.
Proof. vm_compute. repeat split. Qed.

End JuxFacts.

Section GeometryMoreFacts.
Import Geometry GeometryMore.
Open Scope R_scope.

Lemma compute_cone_height_leading_edge (a k h : R) :
  0 <= a < PI / 2 -> 0 <= k < 1 ->
  compute_cone_height a k (compute_leading_edge a k h) = h.
Proof.
  intros Ha Hk. pose proof (cos_pos_half_angle a Ha). pose proof (one_plus_sin_pos a Ha).
  unfold compute_leading_edge, compute_cone_height. field. repeat split; lra.
Qed.

Lemma set_leading_edge_coupled (s : GCSGeometry) (v : R) :
  0 <= half_angle s < PI / 2 -> 0 <= aspect_ratio s < 1 ->
  coupled (set_leading_edge s v).
Proof.
  intros Ha Hk. unfold coupled; simpl. repeat split; try lra.
  symmetry. apply compute_leading_edge_cone_height; assumption.
Qed.

Lemma set_cone_height_coupled (s : GCSGeometry) (v : R) :
  0 <= half_angle s < PI / 2 -> 0 <= aspect_ratio s < 1 ->
  coupled (set_cone_height s v).
Proof.
  intros Ha Hk. unfold coupled; simpl. repeat split; try lra.
  symmetry. apply compute_cone_height_leading_edge; assumption.
Qed.

Lemma sin_cos_sq (x : R) : sin x * sin x + cos x * cos x = 1.
Proof. pose proof (sin2_cos2 x) as H. unfold Rsqr in H. exact H. Qed.

(** Both junction angles lie in a leg branch. *)
Lemma junction_branches (s : GCSGeometry) :
  0 <= half_angle s < PI / 2 ->
  in_rhs_leg s (- half_angle s) = true /\
  in_rhs_leg s (PI + half_angle s) = false /\
  in_lhs_leg s (PI + half_angle s) = true.
Proof. intros Ha. pose proof PI_RGT_0. repeat split; branch_cases; (reflexivity || lra). Qed.

(** [tan (asin k)] and the curved radius at a junction angle. *)
Lemma junction_radius (a k h : R) :
  0 <= a < PI / 2 -> 0 <= k < 1 -> 0 <= h ->
  h * tan (asin k) = sqrt (k ^ 2 * (h / cos a) ^ 2 * (1 - k ^ 2) * cos a ^ 2
                           / (1 - k ^ 2) ^ 2).
Proof.
  intros Ha Hk Hh. pose proof (cos_pos_half_angle a Ha) as Hc.
  rewrite tan_asin by lra.
  assert (Hd : 0 < 1 - k²) by (unfold Rsqr; nra).
  pose proof (sqrt_lt_R0 _ Hd) as Hs.
  assert (Hss : sqrt (1 - k²) * sqrt (1 - k²) = 1 - k²) by (apply sqrt_sqrt; lra).
  replace (k ^ 2 * (h / cos a) ^ 2 * (1 - k ^ 2) * cos a ^ 2 / (1 - k ^ 2) ^ 2)
    with ((h * (k / sqrt (1 - k²))) ^ 2).
  - rewrite sqrt_pow2; [reflexivity|]. apply Rmult_le_pos; [exact Hh|].
    apply Rmult_le_pos; [lra | apply Rlt_le, Rinv_0_lt_compat, Hs].
  - unfold Rsqr in *. field_simplify_eq; [|lra].
    replace (sqrt (1 - k * k) ^ 2) with (1 - k * k) by (simpl; nra). ring.
Qed.


Ltac split_records :=
  repeat match goal with
  | |- Ok _ = Ok _ => f_equal
  | |- Some _ = Some _ => f_equal
  | |- (_, _) = (_, _) => f_equal
  | |- {| center := _ |} = {| center := _ |} => f_equal
  end.

Ltac solve_reals :=
  try ring; field_simplify_eq; try lra; nra.

Lemma np_arcsin_valid (k : R) : 0 <= k < 1 -> np_arcsin k = Some (asin k).
Proof.
  intros Hk. unfold np_arcsin, Rlt_b.
  destruct (Rlt_dec k (-1)); [lra|]. destruct (Rlt_dec 1 k); [lra|]. reflexivity.
Qed.

(** The curved formulas at a junction angle [beta] with
    [sin beta = - sin a] (up to sign of the cosine). *)
Lemma curved_at_junction (s : GCSGeometry) (beta : R) :
  0 <= half_angle s < PI / 2 -> 0 <= aspect_ratio s < 1 -> 0 <= cone_height s ->
  sin beta = - sin (half_angle s) -> cos beta * cos beta = cos (half_angle s) * cos (half_angle s) ->
  X0 s beta = cone_height s * tan (half_angle s) /\
  R_ s beta = Some (cone_height s * tan (asin (aspect_ratio s))).
Proof.
  intros Ha Hk Hh Hs Hc.
  set (a := half_angle s) in *. set (k := aspect_ratio s) in *. set (hh := cone_height s) in *.
  pose proof (cos_pos_half_angle a Ha) as Hca.
  assert (Hk2 : k ^ 2 < 1) by (simpl; nra).
  split.
  - unfold X0, rho, b, h, tan. fold a k hh. rewrite Hs. field. split; [lra|]. simpl; nra.
  - unfold R_. rewrite np_sqrt_nonneg by (apply R_sqr_nonneg; exact Hk2).
    rewrite (R_sqr_factor s beta Hk2). fold k.
    rewrite (junction_radius a k hh Ha Hk Hh).
    unfold rho, b, h, tan. fold a hh. rewrite Hs.
    replace ((hh * (sin a / cos a) + hh / cos a * - sin a)) with 0 by (field; lra).
    replace (cos beta ^ 2) with (cos a ^ 2) by (simpl; lra). do 2 f_equal. field. lra.
Qed.

(** Extra: at the two junction angles [beta = -half_angle] (right leg) and
    [beta = pi + half_angle] (left leg), the leg branch returns exactly the
    cross section (center, radius, normal) the curved-cap formulas give at
    that angle: the shell is continuous where the legs meet the cap. *)
Theorem leg_cap_junction (s : GCSGeometry) :
  0 <= half_angle s < PI / 2 -> 0 <= aspect_ratio s < 1 -> 0 <= cone_height s ->
  cross_section_circle s (- half_angle s) = Ok (curved_branch_section s (- half_angle s)) /\
  cross_section_circle s (PI + half_angle s)
    = Ok (curved_branch_section s (PI + half_angle s)).
Proof.
  intros Ha Hk Hh. destruct (junction_branches s Ha) as (H1 & H2 & H3).
  pose proof (cos_pos_half_angle _ Ha) as Hca.
  assert (Hk2 : aspect_ratio s ^ 2 < 1) by (simpl; nra).
  split.
  - destruct (curved_at_junction s (- half_angle s) Ha Hk Hh)
      as [HX HR]; [apply sin_neg | rewrite cos_neg; reflexivity |].
    unfold cross_section_circle, curved_branch_section. rewrite H1, HX, HR.
    unfold leg_radius, delta. rewrite (np_arcsin_valid _ Hk).
    replace (- (- half_angle s + half_angle s)) with 0 by ring.
    rewrite tan_0, cos_neg, sin_neg. unfold h, rho, b, tan.
    pose proof (sin_cos_sq (half_angle s)).
    split_records; unfold h; solve_reals.
  - destruct (curved_at_junction s (PI + half_angle s) Ha Hk Hh) as [HX HR].
    { rewrite Rplus_comm, neg_sin. reflexivity. }
    { rewrite Rplus_comm, neg_cos. ring. }
    unfold cross_section_circle, curved_branch_section. rewrite H2, H3, HX, HR.
    unfold leg_radius, delta. rewrite (np_arcsin_valid _ Hk).
    replace (PI + half_angle s - half_angle s - PI) with 0 by ring.
    rewrite tan_0. rewrite (Rplus_comm PI), neg_cos, neg_sin. unfold h, rho, b, tan.
    pose proof (sin_cos_sq (half_angle s)).
    split_records; unfold h; solve_reals.
Qed.

Lemma leg_cap_junction_witness :
  (0 <= half_angle (mkGCSGeometry (PI / 6) (1 / 2) 3 1) < PI / 2 /\
   0 <= aspect_ratio (mkGCSGeometry (PI / 6) (1 / 2) 3 1) < 1 /\
   0 <= cone_height (mkGCSGeometry (PI / 6) (1 / 2) 3 1)) /\
  cross_section_circle (mkGCSGeometry (PI / 6) (1 / 2) 3 1) (- (PI / 6))
    = Ok (curved_branch_section (mkGCSGeometry (PI / 6) (1 / 2) 3 1) (- (PI / 6))).
Proof.
  assert (Ha : 0 <= half_angle (mkGCSGeometry (PI / 6) (1 / 2) 3 1) < PI / 2)
    by (simpl; pose proof PI_RGT_0; lra).
  assert (Hk : 0 <= aspect_ratio (mkGCSGeometry (PI / 6) (1 / 2) 3 1) < 1) by (simpl; lra).
  assert (Hh : 0 <= cone_height (mkGCSGeometry (PI / 6) (1 / 2) 3 1)) by (simpl; lra).
  split; [repeat split; apply Ha || apply Hk || apply Hh|].
  exact (proj1 (leg_cap_junction (mkGCSGeometry (PI / 6) (1 / 2) 3 1) Ha Hk Hh)).
Defined.
(** Extra: at [beta = pi/2] (the apex of the cap) [cross_section_circle]
    takes the curved branch; the cross section is centred on the symmetry
    axis at distance [OC1] from the origin, with normal [(-1, 0, 0)], and its
    far side [OC1 + radius] is exactly the stored [leading_edge] ([OH]). *)
Theorem apex_reaches_leading_edge (s : GCSGeometry) :
  coupled s -> 0 <= cone_height s ->
  exists r,
    cross_section_circle s (PI / 2)
      = Ok {| center := (0, OC1 s, 0); radius := Some r; normal := (-1, 0, 0) |} /\
    0 <= r /\ OC1 s + r = OH s.
Proof.
  intros (Ha & Hk & Hle & _) Hh.
  pose proof PI_RGT_0 as Hpi.
  pose proof (cos_pos_half_angle _ Ha) as Hca.
  assert (Hsa : 0 <= sin (half_angle s)) by (apply sin_ge_0; lra).
  assert (Hk2 : aspect_ratio s ^ 2 < 1) by (simpl; nra).
  assert (Hrb : 0 <= rho s + b s).
  { unfold rho, b, h, tan.
    replace (cone_height s * (sin (half_angle s) / cos (half_angle s))
             + cone_height s / cos (half_angle s))
      with (cone_height s * (1 + sin (half_angle s)) / cos (half_angle s)) by (field; lra).
    apply Rmult_le_pos; [nra | apply Rlt_le, Rinv_0_lt_compat; lra]. }
  assert (Hden : 0 < 1 - aspect_ratio s ^ 2) by lra.
  set (r := aspect_ratio s * (rho s + b s) / (1 - aspect_ratio s ^ 2)).
  assert (Hr : 0 <= r).
  { unfold r. apply Rmult_le_pos; [nra | apply Rlt_le, Rinv_0_lt_compat; lra]. }
  exists r. split; [|split; [exact Hr|]].
  - destruct (curved_branch_selected s (PI / 2)) as (H1 & H2 & H3); [lra|].
    unfold cross_section_circle. rewrite H1, H2, H3.
    assert (HR : R_ s (PI / 2) = Some r).
    { unfold R_. rewrite np_sqrt_nonneg by (apply R_sqr_nonneg; exact Hk2).
      rewrite (R_sqr_factor s _ Hk2), sin_PI2, cos_PI2.
      rewrite <- (sqrt_pow2 r Hr). do 2 f_equal. unfold r. field. lra. }
    rewrite HR, sin_PI2, cos_PI2. split_records; try ring.
    unfold OC1, X0. rewrite sin_PI2. field. lra.
  - unfold OC1, OH, r. rewrite Hle. unfold compute_leading_edge, rho, b, h, tan.
    field. repeat split; try lra; nra.
Qed.

(** Extra: [GCSGeometry.__init__] raises [ValueError] when both or neither
    of [leading_edge] and [cone_height] are given, for any angle and ratio;
    otherwise, on the valid domain, it returns a geometry keeping the given
    angle, ratio and length, with the other length computed so that the two
    are coupled. *)
Theorem geometry_init_outcome (a k : R) (le ch : option R) :
  ((le = None <-> ch = None) -> Geometry.init a k le ch = Err ValueError) /\
  (0 <= a < PI / 2 -> 0 <= k < 1 ->
   (forall L, le = Some L -> ch = None ->
      exists g, Geometry.init a k le ch = Ok g /\ coupled g /\
        half_angle g = a /\ aspect_ratio g = k /\ leading_edge g = L) /\
   (forall H, le = None -> ch = Some H ->
      exists g, Geometry.init a k le ch = Ok g /\ coupled g /\
        half_angle g = a /\ aspect_ratio g = k /\ cone_height g = H)).
Proof.
  split; [|intros Ha Hk; split].
  - intros Hiff. unfold Geometry.init.
    destruct le, ch; try reflexivity.
    + destruct Hiff as [_ H]. discriminate (H eq_refl).
    + destruct Hiff as [H _]. discriminate (H eq_refl).
  - intros L -> ->. eexists. split; [reflexivity|].
    split; [apply set_leading_edge_coupled; assumption|]. repeat split.
  - intros H -> ->. eexists. split; [reflexivity|].
    split; [apply set_cone_height_coupled; assumption|]. repeat split.
Qed.

Lemma geometry_init_outcome_witness :
  Geometry.init 2 5 (Some 1) (Some 2) = Err ValueError /\
  Geometry.init 2 5 None None = Err ValueError /\
  (0 <= 0 < PI / 2 /\ 0 <= 0 < 1) /\
  exists g, Geometry.init 0 0 None (Some 3) = Ok g /\ coupled g /\
    half_angle g = 0 /\ aspect_ratio g = 0 /\ cone_height g = 3.
Proof.
  assert (Ha : 0 <= 0 < PI / 2) by (pose proof PI_RGT_0; lra).
  assert (Hk : 0 <= 0 < 1) by lra.
  split; [exact (proj1 (geometry_init_outcome 2 5 (Some 1) (Some 2))
                   ltac:(split; discriminate))|].
  split; [exact (proj1 (geometry_init_outcome 2 5 None None)
                   ltac:(split; reflexivity))|].
  split; [split; assumption|].
  exact (proj2 (proj2 (geometry_init_outcome 0 0 None (Some 3)) Ha Hk) 3 eq_refl eq_refl).
Defined.

Lemma apply_op_coupled (m : Model.GCSModel) (op : Model.model_op) :
  coupled (Model.geometry m) -> valid_op op -> coupled (Model.geometry (Model.apply_op m op)).
Proof.
  intros Hc Hop. pose proof Hc as (Ha & Hk & _).
  destruct op; simpl in *; try exact Hc.
  - apply set_leading_edge_coupled; simpl; assumption.
  - apply set_leading_edge_coupled; simpl; assumption.
  - apply set_leading_edge_coupled; assumption.
  - apply set_cone_height_coupled; assumption.
Qed.

(** Extra: a model built by [GCSModel.__init__] on the valid domain, then
    updated by any sequence of setter calls (longitude, latitude, tilt,
    half angle, aspect ratio, leading edge, cone height) whose angles and
    ratios stay in the valid domain, always has [leading_edge] and
    [cone_height] coupled by [compute_leading_edge] and
    [compute_cone_height]. *)
Theorem model_setters_keep_coupled (a k L lon lat tl : R) (m : Model.GCSModel)
    (ops : list Model.model_op) :
  0 <= a < PI / 2 -> 0 <= k < 1 ->
  Model.init a k (Some L) lon lat tl = Ok m ->
  Forall valid_op ops ->
  coupled (Model.geometry (Model.apply_ops m ops)).
Proof.
  intros Ha Hk Hinit Hops.
  assert (Hm : coupled (Model.geometry m)).
  { unfold Model.init, Geometry.init in Hinit. simpl in Hinit.
    injection Hinit as <-. simpl. apply set_leading_edge_coupled; assumption. }
  clear Hinit. unfold Model.apply_ops. revert m Hm.
  induction Hops as [|op ops Hop Hops IH]; intros m Hm; simpl; [exact Hm|].
  apply IH. apply apply_op_coupled; assumption.
Qed.

Lemma unit_cone_coupled : coupled (mkGCSGeometry 0 0 1 1).
Proof.
  pose proof PI_RGT_0. unfold coupled, compute_leading_edge, compute_cone_height; simpl.
  rewrite sin_0, cos_0. repeat split; try lra; field.
Qed.

Lemma apex_reaches_leading_edge_witness :
  (coupled (mkGCSGeometry 0 0 1 1) /\ 0 <= cone_height (mkGCSGeometry 0 0 1 1)) /\
  exists r,
    cross_section_circle (mkGCSGeometry 0 0 1 1) (PI / 2)
      = Ok {| center := (0, OC1 (mkGCSGeometry 0 0 1 1), 0); radius := Some r;
              normal := (-1, 0, 0) |} /\
    0 <= r /\ OC1 (mkGCSGeometry 0 0 1 1) + r = OH (mkGCSGeometry 0 0 1 1).
Proof.
  assert (Hh : 0 <= cone_height (mkGCSGeometry 0 0 1 1)) by (simpl; lra).
  split; [split; [exact unit_cone_coupled | exact Hh]|].
  exact (apex_reaches_leading_edge (mkGCSGeometry 0 0 1 1) unit_cone_coupled Hh).
Defined.

Lemma model_setters_keep_coupled_witness :
  exists m, Model.init 0 0 (Some 1) 0 0 0 = Ok m /\
  (0 <= 0 < PI / 2 /\ 0 <= 0 < 1 /\
   Forall valid_op [Model.SetHalfAngle (PI / 4); Model.SetAspectRatio (1 / 2);
                    Model.SetLongitude 1; Model.SetConeHeight 2]) /\
  coupled (Model.geometry (Model.apply_ops m
    [Model.SetHalfAngle (PI / 4); Model.SetAspectRatio (1 / 2);
     Model.SetLongitude 1; Model.SetConeHeight 2])).
Proof.
  eexists. split; [reflexivity|]. pose proof PI_RGT_0.
  assert (Ha : 0 <= 0 < PI / 2) by lra. assert (Hk : 0 <= 0 < 1) by lra.
  assert (Hops : Forall valid_op [Model.SetHalfAngle (PI / 4); Model.SetAspectRatio (1 / 2);
                                  Model.SetLongitude 1; Model.SetConeHeight 2]).
  { repeat constructor; simpl; lra. }
  split; [split; [exact Ha | split; [exact Hk | exact Hops]]|].
  exact (model_setters_keep_coupled 0 0 1 0 0 0 _ _ Ha Hk eq_refl Hops).
Defined.

End GeometryMoreFacts.

Section RotationFacts.
Import Model Linalg.

Lemma mat3_eq (A B : mat3) :
  m11 A = m11 B -> m12 A = m12 B -> m13 A = m13 B ->
  m21 A = m21 B -> m22 A = m22 B -> m23 A = m23 B ->
  m31 A = m31 B -> m32 A = m32 B -> m33 A = m33 B -> A = B.
Proof. destruct A, B; simpl; intros; subst; reflexivity. Qed.

Ltac mat3_ring := apply mat3_eq; simpl; ring.

Lemma dot_assoc (A B C : mat3) : dot A (dot B C) = dot (dot A B) C.
Proof. unfold dot; mat3_ring. Qed.

Lemma transpose_dot (A B : mat3) : transpose (dot A B) = dot (transpose B) (transpose A).
Proof. unfold dot, transpose; mat3_ring. Qed.

Lemma dot_eye_l (A : mat3) : dot eye A = A.
Proof. unfold dot, eye; mat3_ring. Qed.

Lemma dot_eye_r (A : mat3) : dot A eye = A.
Proof. unfold dot, eye; mat3_ring. Qed.

Lemma det_dot (A B : mat3) : det (dot A B) = det A * det B.
Proof. unfold det, dot; simpl. ring. Qed.

(** A rotation matrix: orthogonal with determinant one. *)
Definition rotation (A : mat3) : Prop :=
  dot (transpose A) A = eye /\ dot A (transpose A) = eye /\ det A = 1.

Lemma rotation_dot (A B : mat3) : rotation A -> rotation B -> rotation (dot A B).
Proof.
  intros (HA1 & HA2 & HA3) (HB1 & HB2 & HB3). unfold rotation.
  rewrite transpose_dot, det_dot, HA3, HB3. split; [|split; [|ring]].
  - rewrite <- dot_assoc, (dot_assoc (transpose A)), HA1, dot_eye_l. exact HB1.
  - rewrite <- dot_assoc, (dot_assoc B), HB2, dot_eye_l. exact HA2.
Qed.

Ltac rot_solve a :=
  pose proof (sin_cos_sq a); unfold rotation, dot, transpose, det, eye;
  split; [|split]; [apply mat3_eq; simpl; lra .. | simpl; lra].

Lemma rotation_x (a : R) : rotation (RotationTransform.x a).
Proof. unfold RotationTransform.x. rot_solve a. Qed.

Lemma rotation_y (a : R) : rotation (RotationTransform.y a).
Proof. unfold RotationTransform.y. rot_solve a. Qed.

Lemma rotation_z (a : R) : rotation (RotationTransform.z a).
Proof. unfold RotationTransform.z. rot_solve a. Qed.

(** Extra: the three elementary rotations of [RotationTransform] compose
    additively: [x a . x b = x (a + b)], and likewise for [y] and [z]; in
    particular [x (-a)] undoes [x a]. *)
Theorem rotation_transform_additive (a b : R) :
  dot (RotationTransform.x a) (RotationTransform.x b) = RotationTransform.x (a + b) /\
  dot (RotationTransform.y a) (RotationTransform.y b) = RotationTransform.y (a + b) /\
  dot (RotationTransform.z a) (RotationTransform.z b) = RotationTransform.z (a + b).
Proof.
  unfold RotationTransform.x, RotationTransform.y, RotationTransform.z, dot.
  rewrite cos_plus, sin_plus. split; [|split]; mat3_ring.
Qed.

(** Extra: for a model built by [GCSModel.__init__] and then updated by any
    sequence of setter calls, [tmatrix] is a proper rotation: orthogonal
    ([T^T T = T T^T = I]) with determinant 1, so the plotted shell is moved
    rigidly, without scaling or mirroring. *)
Theorem tmatrix_is_rotation (a k L lon lat tl : R) (m0 : GCSModel) (ops : list model_op) :
  Model.init a k (Some L) lon lat tl = Ok m0 ->
  dot (transpose (tmatrix (apply_ops m0 ops))) (tmatrix (apply_ops m0 ops)) = eye /\
  dot (tmatrix (apply_ops m0 ops)) (transpose (tmatrix (apply_ops m0 ops))) = eye /\
  det (tmatrix (apply_ops m0 ops)) = 1.
Proof.
  intros Hinit.
  rewrite (tmatrix_consistent _ (apply_ops_consistent ops m0
             (proj1 (init_consistent _ _ _ _ _ _ _ Hinit)))).
  apply rotation_dot; [apply rotation_z|].
  apply rotation_dot; [apply rotation_y | apply rotation_x].
Qed.

Lemma tmatrix_is_rotation_witness :
  exists m0, Model.init (PI / 4) (1 / 2) (Some 3) (PI / 3) (PI / 5) (PI / 7) = Ok m0 /\
    det (tmatrix (apply_ops m0 [SetTilt 1; SetHalfAngle 0; SetLatitude 2])) = 1.
Proof.
  eexists. split; [reflexivity|].
  exact (proj2 (proj2 (tmatrix_is_rotation (PI / 4) (1 / 2) 3 (PI / 3) (PI / 5) (PI / 7) _
                  [SetTilt 1; SetHalfAngle 0; SetLatitude 2] eq_refl))).
Defined.

End RotationFacts.

Section CircleFacts.
Import Geometry Linalg UtilsGeometry.

Lemma linspace_length (a b : R) (n : nat) (ep : bool) : List.length (linspace a b n ep) = n.
Proof. unfold linspace. rewrite length_map, length_seq. reflexivity. Qed.

Lemma linspace_nth (a b : R) (n i : nat) (ep : bool) :
  (i < n)%nat ->
  nth_error (linspace a b n ep) i =
    Some (if ep && (1 <? n)%nat && (i =? n - 1)%nat then b
          else INR i * ((b - a) / INR (if ep then (n - 1)%nat else n)) + a).
Proof.
  intros Hi. unfold linspace. rewrite nth_error_map, nth_error_seq.
  apply Nat.ltb_lt in Hi. rewrite Hi. reflexivity.
Qed.

Lemma linspace_first (a b : R) (n : nat) (ep : bool) :
  (1 <= n)%nat -> nth_error (linspace a b n ep) 0 = Some a.
Proof.
  intros Hn. rewrite linspace_nth by lia. f_equal.
  destruct ep, (1 <? n)%nat eqn:E1, (0 =? n - 1)%nat eqn:E2; simpl;
    try (simpl; ring).
  apply Nat.ltb_lt in E1. apply Nat.eqb_eq in E2. lia.
Qed.

Lemma linspace_last (a b : R) (n : nat) :
  (2 <= n)%nat -> nth_error (linspace a b n true) (n - 1) = Some b.
Proof.
  intros Hn. rewrite linspace_nth by lia. f_equal.
  replace ((1 <? n)%nat) with true by (symmetry; apply Nat.ltb_lt; lia).
  rewrite Nat.eqb_refl. reflexivity.
Qed.

Lemma linspace_bounds (a b : R) (n : nat) (ep : bool) (t : R) :
  a <= b -> In t (linspace a b n ep) -> a <= t <= b.
Proof.
  intros Hab Hin. unfold linspace in Hin. apply in_map_iff in Hin as [i [<- Hi]].
  apply in_seq in Hi.
  destruct (ep && (1 <? n)%nat && (i =? n - 1)%nat); [lra|].
  assert (Hq : 0 <= INR i * / INR (if ep then (n - 1)%nat else n) <= 1).
  { destruct ep; destruct (Nat.eq_dec i 0) as [->|Hi0].
    - simpl. lra.
    - assert (Hd : (0 < n - 1)%nat) by lia.
      pose proof (lt_0_INR _ Hd). pose proof (pos_INR i).
      assert (INR i <= INR (n - 1)) by (apply le_INR; lia).
      split; [apply Rmult_le_pos; [lra | apply Rlt_le, Rinv_0_lt_compat; lra]|].
      apply (Rmult_le_reg_r (INR (n - 1))); [lra|].
      rewrite Rmult_assoc, Rinv_l, Rmult_1_r, Rmult_1_l; lra.
    - simpl. lra.
    - assert (Hd : (0 < n)%nat) by lia.
      pose proof (lt_0_INR _ Hd). pose proof (pos_INR i).
      assert (INR i <= INR n) by (apply le_INR; lia).
      split; [apply Rmult_le_pos; [lra | apply Rlt_le, Rinv_0_lt_compat; lra]|].
      apply (Rmult_le_reg_r (INR n)); [lra|].
      rewrite Rmult_assoc, Rinv_l, Rmult_1_r, Rmult_1_l; lra. }
  unfold Rdiv.
  replace (INR i * ((b - a) * / INR (if ep then (n - 1)%nat else n)) + a)
    with ((INR i * / INR (if ep then (n - 1)%nat else n)) * (b - a) + a) by ring.
  split; nra.
Qed.

Lemma vdot_scale_r (u v : vec3) (k : R) : vdot u (vscale k v) = k * vdot u v.
Proof. destruct u as [[u1 u2] u3], v as [[v1 v2] v3]; simpl; ring. Qed.

Lemma vdot_sym (u v : vec3) : vdot u v = vdot v u.
Proof. destruct u as [[u1 u2] u3], v as [[v1 v2] v3]; simpl; ring. Qed.

Lemma norm_pos (v : vec3) : 0 < vdot v v -> 0 < norm v.
Proof. intros H. unfold norm. apply sqrt_lt_R0, H. Qed.

Lemma normalize_unit (v : vec3) :
  0 < vdot v v -> vdot (vscale (1 / norm v) v) (vscale (1 / norm v) v) = 1.
Proof.
  intros H. pose proof (norm_pos v H) as Hn.
  rewrite vdot_scale_r, vdot_sym, vdot_scale_r.
  assert (Hsq : norm v * norm v = vdot v v) by (unfold norm; apply sqrt_sqrt; lra).
  rewrite <- Hsq. field. lra.
Qed.

(** The generic point of [circle], from the unit [e_1] and a nonzero
    [w] orthogonal to it. *)
Lemma circle_point_geometry (c e1 w : vec3) (r t : R) :
  vdot e1 e1 = 1 -> 0 < vdot w w -> vdot e1 w = 0 ->
  let e2 := vscale (1 / norm w) w in
  let p := vadd (vadd c (vscale (r * cos t) e2)) (vscale (r * sin t) (cross e1 e2)) in
  vdot (vsub p c) e1 = 0 /\ vdot (vsub p c) (vsub p c) = r ^ 2.
Proof.
  intros He Hw Hd e2 p. pose proof (norm_pos w Hw) as Hn.
  assert (Hsq : norm w * norm w = vdot w w) by (unfold norm; apply sqrt_sqrt; lra).
  subst e2 p. set (N := norm w) in *.
  destruct c as [[c1 c2] c3], e1 as [[x y] z], w as [[a b0] d].
  simpl in *. pose proof (sin_cos_sq t) as Hsc. split.
  - transitivity (r * cos t / N * (x * a + y * b0 + z * d)); [field; lra|].
    rewrite Hd. ring.
  - transitivity (r ^ 2 * (cos t ^ 2 * (a * a + b0 * b0 + d * d)
                           + sin t ^ 2 * ((x * x + y * y + z * z) * (a * a + b0 * b0 + d * d)
                                          - (x * a + y * b0 + z * d) ^ 2)) / (N * N));
      [field; lra|].
    rewrite He, Hd, Hsq. field_simplify_eq; [|lra]. nra.
Qed.

(** The in-plane vector chosen by [circle] when [perp] is [None] is
    nonzero and orthogonal to a unit [e_1]. *)
Lemma default_perp_ok (x y z : R) :
  vdot (x, y, z) (x, y, z) = 1 ->
  let w := if Rlt_b (9 / 10) (Rabs x) then (- z, 0, x) else (0, z, - y) in
  0 < vdot w w /\ vdot (x, y, z) w = 0.
Proof.
  intros He w. subst w. simpl in *. unfold Rlt_b.
  destruct (Rlt_dec (9 / 10) (Rabs x)) as [Hx|Hx]; simpl; split; try ring.
  - assert (x <> 0) by (intros ->; rewrite Rabs_R0 in Hx; lra). nra.
  - assert (Hx2 : x * x <= 81 / 100).
    { destruct (Rle_dec 0 x); [rewrite Rabs_right in Hx by lra | rewrite Rabs_left in Hx by lra]; nra. }
    nra.
Qed.

(** Extra: every point returned by [circle] lies in the plane through
    [center] orthogonal to [normal], at distance [|radius|] from [center],
    whenever [normal] is nonzero and [perp] is either [None] or a nonzero
    vector orthogonal to [normal]; this holds for any [num_points],
    [end_point] and [toffset]. *)
Theorem circle_points_on_circle (center normal : vec3) (radius : R) (n : nat)
    (end_point : bool) (perp : option vec3) (toffset : R) (p : vec3) :
  0 < vdot normal normal ->
  (perp = None \/ exists q, perp = Some q /\ 0 < vdot q q /\ vdot q normal = 0) ->
  In p (circle center normal radius n end_point perp toffset) ->
  vdot (vsub p center) normal = 0 /\ vdot (vsub p center) (vsub p center) = radius ^ 2.
Proof.
  intros Hn Hperp Hin. unfold circle in Hin.
  apply in_map_iff in Hin as [t [<- _]].
  pose proof (norm_pos normal Hn) as HN.
  set (e1 := vscale (1 / norm normal) normal) in *.
  assert (He1 : vdot e1 e1 = 1) by (apply normalize_unit, Hn).
  set (w := match perp with
            | None => let '(x1, y1, z1) := e1 in
                      if Rlt_b (9 / 10) (Rabs x1) then (- z1, 0, x1) else (0, z1, - y1)
            | Some q => q
            end).
  assert (Hw : 0 < vdot w w /\ vdot e1 w = 0).
  { subst w. destruct Hperp as [-> | (q & -> & Hq & Hqn)].
    - destruct e1 as [[x1 y1] z1]. apply default_perp_ok, He1.
    - split; [exact Hq|]. subst e1. rewrite vdot_sym, vdot_scale_r, Hqn. ring. }
  destruct Hw as [Hw Hd].
  destruct (circle_point_geometry center e1 w radius t He1 Hw Hd) as [H1 H2].
  split; [|exact H2].
  subst e1. rewrite vdot_scale_r in H1.
  assert (Hinv : 0 < 1 / norm normal) by (apply Rdiv_lt_0_compat; lra).
  destruct (Rmult_integral _ _ H1); [lra | assumption].
Qed.

Lemma circle_points_on_circle_witness :
  (0 < vdot (0, 0, 2) (0, 0, 2) /\ (None : option vec3) = None) /\
  exists p, In p (circle (1, 1, 1) (0, 0, 2) 3 5 true None 0) /\
  vdot (vsub p (1, 1, 1)) (0, 0, 2) = 0 /\ vdot (vsub p (1, 1, 1)) (vsub p (1, 1, 1)) = 3 ^ 2.
Proof.
  assert (Hn : 0 < vdot (0, 0, 2) (0, 0, 2)) by (simpl; lra).
  split; [split; [exact Hn | reflexivity]|].
  assert (Hp : In (hd (0, 0, 0) (circle (1, 1, 1) (0, 0, 2) 3 5 true None 0))
                  (circle (1, 1, 1) (0, 0, 2) 3 5 true None 0))
    by (simpl; left; reflexivity).
  exists (hd (0, 0, 0) (circle (1, 1, 1) (0, 0, 2) 3 5 true None 0)). split; [exact Hp|].
  exact (circle_points_on_circle (1, 1, 1) (0, 0, 2) 3 5 true None 0 _ Hn
           (or_introl eq_refl) Hp).
Defined.

(** Extra: [circle] returns [num_points] points; with [end_point=True] and
    at least two points the last point repeats the first (a closed loop). *)
Theorem circle_closed_loop (center normal : vec3) (radius : R) (n : nat)
    (perp : option vec3) (toffset : R) :
  (2 <= n)%nat ->
  (forall end_point,
     List.length (circle center normal radius n end_point perp toffset) = n) /\
  nth_error (circle center normal radius n true perp toffset) (n - 1)
    = nth_error (circle center normal radius n true perp toffset) 0.
Proof.
  intros Hn. split.
  - intros ep. unfold circle. rewrite !length_map. apply linspace_length.
  - unfold circle. rewrite !nth_error_map, linspace_last, linspace_first by lia.
    simpl. rewrite cos_plus, sin_plus, cos_2PI, sin_2PI, Rplus_0_r.
    f_equal. f_equal; f_equal; f_equal; ring.
Qed.

Lemma circle_closed_loop_witness :
  (2 <= 4)%nat /\
  nth_error (circle (0, 0, 0) (1, 0, 0) 1 4 true None 0) 3
    = nth_error (circle (0, 0, 0) (1, 0, 0) 1 4 true None 0) 0.
Proof.
  split; [lia|].
  exact (proj2 (circle_closed_loop (0, 0, 0) (1, 0, 0) 1 4 None 0 ltac:(lia))).
Defined.

End CircleFacts.

Section WidgetFacts.
Import Geometry GeometryMore Model Linalg UtilsGeometry Widget.

Lemma cross_section_normal_unit (s : GCSGeometry) (beta : R) (cs : CrossSection) :
  cross_section_circle s beta = Ok cs ->
  exists x y, normal cs = (x, y, 0) /\ x * x + y * y = 1.
Proof.
  unfold cross_section_circle.
  destruct (in_rhs_leg s beta); [|destruct (in_lhs_leg s beta);
    [|destruct (in_curved_section s beta)]]; intros H; inversion H; subst; simpl.
  - exists (sin (half_angle s)), (cos (half_angle s)). split; [reflexivity|]. apply sin_cos_sq.
  - exists (sin (half_angle s)), (- cos (half_angle s)). split; [reflexivity|].
    pose proof (sin_cos_sq (half_angle s)). lra.
  - exists (- sin beta), (cos beta). split; [reflexivity|].
    pose proof (sin_cos_sq beta). lra.
Qed.

(** Extra: the circles drawn by [points], [outline] and [_curves] (each a
    [circle] around a cross section of [cross_section_circle], with
    [perp = (0, 0, 1)]) are true circles: every point lies in the plane of
    the cross section (orthogonal to its normal) at distance [|radius|]
    from its center, for any model and any angle that yields a cross
    section with a (non-NaN) radius. *)
Theorem gcs_section_circles (s : GCSGeometry) (beta : R) (cs : CrossSection) (r : R)
    (n : nat) (end_point : bool) (toffset : R) (p : vec3) :
  cross_section_circle s beta = Ok cs -> radius cs = Some r ->
  In p (circle (center cs) (normal cs) r n end_point (Some (0, 0, 1)) toffset) ->
  vdot (vsub p (center cs)) (normal cs) = 0 /\
  vdot (vsub p (center cs)) (vsub p (center cs)) = r ^ 2.
Proof.
  intros Hcs _ Hin.
  destruct (cross_section_normal_unit s beta cs Hcs) as (x & y & Hn & Hxy).
  assert (Hnz : 0 < vdot (normal cs) (normal cs)) by (rewrite Hn; simpl; lra).
  apply (circle_points_on_circle (center cs) (normal cs) r n end_point (Some (0, 0, 1)) toffset p Hnz);
    [|exact Hin].
  right. exists (0, 0, 1). split; [reflexivity|]. rewrite Hn. simpl. split; [lra | ring].
Qed.

Lemma gcs_section_circles_witness :
  exists cs r p,
    cross_section_circle (mkGCSGeometry (PI / 4) (1 / 2) 3 1) (PI / 2) = Ok cs /\
    radius cs = Some r /\
    In p (circle (center cs) (normal cs) r 8 false (Some (0, 0, 1)) 0) /\
    vdot (vsub p (center cs)) (normal cs) = 0 /\
    vdot (vsub p (center cs)) (vsub p (center cs)) = r ^ 2.
Proof.
  pose proof PI_RGT_0.
  destruct (curved_branch_selected (mkGCSGeometry (PI / 4) (1 / 2) 3 1) (PI / 2))
    as (H1 & H2 & H3); [simpl; lra|].
  assert (HR : R_ (mkGCSGeometry (PI / 4) (1 / 2) 3 1) (PI / 2)
               = Some (sqrt (R_sqr (mkGCSGeometry (PI / 4) (1 / 2) 3 1) (PI / 2))))
    by (apply np_sqrt_nonneg, R_sqr_nonneg; simpl; lra).
  eexists. eexists.
  assert (Hcs : cross_section_circle (mkGCSGeometry (PI / 4) (1 / 2) 3 1) (PI / 2)
                = Ok (curved_branch_section (mkGCSGeometry (PI / 4) (1 / 2) 3 1) (PI / 2)))
    by (unfold cross_section_circle; rewrite H1, H2, H3; reflexivity).
  assert (Hr : radius (curved_branch_section (mkGCSGeometry (PI / 4) (1 / 2) 3 1) (PI / 2))
               = Some (sqrt (R_sqr (mkGCSGeometry (PI / 4) (1 / 2) 3 1) (PI / 2))))
    by exact HR.
  set (cs := curved_branch_section (mkGCSGeometry (PI / 4) (1 / 2) 3 1) (PI / 2)) in *.
  set (r := sqrt (R_sqr (mkGCSGeometry (PI / 4) (1 / 2) 3 1) (PI / 2))) in *.
  set (pts := circle (center cs) (normal cs) r 8 false (Some (0, 0, 1)) 0).
  assert (Hin : In (hd (0, 0, 0) pts) pts) by (unfold pts, circle; simpl; left; reflexivity).
  exists (hd (0, 0, 0) pts).
  exact (conj Hcs (conj Hr (conj Hin
           (gcs_section_circles _ _ cs r 8 false 0 _ Hcs Hr Hin)))).
Defined.

Lemma tan_pos_half_angle (a : R) : 0 < a < PI / 2 -> 0 < tan a.
Proof.
  intros Ha. pose proof PI_RGT_0. unfold tan.
  assert (0 < sin a) by (apply sin_gt_0; lra).
  assert (0 < cos a) by (apply cos_gt_0; lra).
  apply Rdiv_lt_0_compat; assumption.
Qed.

Lemma surface_angle_rad (s : GCSGeometry) :
  deg_to_rad (surface_angle_deg s) = atan ((h s - R_sun) / rho s) + half_angle s.
Proof. pose proof PI_RGT_0. unfold deg_to_rad, surface_angle_deg. field. lra. Qed.

(** The sampled range [-surface_angle, pi + surface_angle] stays inside
    [(-pi/2, 3 pi/2)]: [(h - R_sun)/rho < cot(half_angle)]. *)
Lemma surface_angle_bound (s : GCSGeometry) :
  0 < half_angle s < PI / 2 -> 0 < cone_height s ->
  - (PI / 2) < deg_to_rad (surface_angle_deg s) < PI / 2.
Proof.
  intros Ha Hh. rewrite surface_angle_rad.
  pose proof (atan_bound ((h s - R_sun) / rho s)) as Hb.
  pose proof (tan_pos_half_angle _ Ha) as Ht.
  split; [lra|].
  assert (Hlt : (h s - R_sun) / rho s < / tan (half_angle s)).
  { unfold rho, h, R_sun. apply (Rmult_lt_reg_r (cone_height s * tan (half_angle s))).
    - apply Rmult_lt_0_compat; assumption.
    - field_simplify; [lra | lra | lra]. }
  apply atan_increasing in Hlt.
  rewrite atan_inv, atan_tan in Hlt by (pose proof PI_RGT_0; lra). lra.
Qed.

Lemma sampling_in_range (s : GCSGeometry) (n : nat) (beta : R) :
  0 < half_angle s < PI / 2 -> 0 < cone_height s ->
  In beta (sampling_angles s n) ->
  - (PI / 2) <= deg_to_rad beta <= 3 * PI / 2.
Proof.
  intros Ha Hh Hin. pose proof PI_RGT_0.
  pose proof (surface_angle_bound s Ha Hh) as Hsa. unfold deg_to_rad in *.
  apply linspace_bounds in Hin; [|nra].
  destruct Hin as [Hlo Hhi].
  assert (0 < PI / 180) by lra.
  split; nra.
Qed.

(** On the valid domain every angle of the branch range gives a cross
    section with a (non-NaN) radius. *)
Lemma cross_section_some (s : GCSGeometry) (beta : R) :
  0 <= half_angle s < PI / 2 -> 0 <= aspect_ratio s < 1 ->
  - (PI / 2) <= beta <= 3 * PI / 2 ->
  exists cs r, cross_section_circle s beta = Ok cs /\ radius cs = Some r.
Proof.
  intros Ha Hk Hb.
  assert (Hd : delta s = Some (asin (aspect_ratio s))) by (apply np_arcsin_valid, Hk).
  assert (Hk2 : aspect_ratio s ^ 2 < 1) by (simpl; nra).
  unfold cross_section_circle.
  destruct (in_rhs_leg s beta) eqn:E1;
    [|destruct (in_lhs_leg s beta) eqn:E2; [|destruct (in_curved_section s beta) eqn:E3]].
  - do 2 eexists. split; [reflexivity|]. simpl. unfold leg_radius. rewrite Hd. reflexivity.
  - do 2 eexists. split; [reflexivity|]. simpl. unfold leg_radius. rewrite Hd. reflexivity.
  - do 2 eexists. split; [reflexivity|]. simpl. unfold R_.
    apply np_sqrt_nonneg, R_sqr_nonneg, Hk2.
  - exfalso. revert E1 E2 E3. branch_cases; intros; try discriminate; lra.
Qed.

Lemma map_result_all {A B : Type} (f : A -> result (list B)) (l : list A) (k : nat)
    (P : B -> Prop) :
  (forall x, In x l -> exists ys, f x = Ok ys /\ List.length ys = k /\ Forall P ys) ->
  exists yss, map_result f l = Ok yss /\
    List.length (List.concat yss) = (List.length l * k)%nat /\ Forall P (List.concat yss).
Proof.
  induction l as [|x l IH]; intros Hf.
  - exists []. repeat split. constructor.
  - destruct (Hf x (or_introl eq_refl)) as (ys & Hx & Hlen & HP).
    destruct IH as (yss & Hl & Hlen' & HP'); [intros y Hy; apply Hf; right; exact Hy|].
    exists (ys :: yss). simpl. rewrite Hx, Hl. split; [reflexivity|].
    rewrite length_app, Hlen, Hlen'. split; [reflexivity|].
    apply Forall_app. split; assumption.
Qed.

(** Extra: on the valid domain ([0 < half_angle < pi/2],
    [0 <= aspect_ratio < 1], [cone_height > 0]) [points] never raises: all
    54 sampled angles fall inside the branches of [cross_section_circle],
    and it returns [54 * 38 = 2052] points (a cross section with a NaN
    radius contributing 38 NaN rows). *)
Theorem points_total (m : GCSModel) :
  0 < half_angle (geometry m) < PI / 2 -> 0 <= aspect_ratio (geometry m) < 1 ->
  0 < cone_height (geometry m) ->
  exists pts, points m = Ok pts /\ List.length pts = 2052%nat.
Proof.
  intros Ha Hk Hh. unfold points.
  destruct (map_result_all (section_points (geometry m)) (sampling_angles (geometry m) 54) 38
              (fun _ => True)) as (yss & Hm & Hlen & _).
  - intros beta Hin.
    pose proof (sampling_in_range _ _ _ Ha Hh Hin) as Hr.
    destruct (cross_section_some (geometry m) (deg_to_rad beta)) as (cs & r & Hcs & _);
      [lra | exact Hk | exact Hr |].
    unfold section_points. rewrite Hcs. cbv beta iota delta [bind].
    destruct (radius cs) as [r'|].
    + eexists. split; [reflexivity|]. split.
      * rewrite length_map. apply (proj1 (circle_closed_loop _ _ _ 38 _ _ ltac:(lia))).
      * apply Forall_forall. intros. exact I.
    + eexists. split; [reflexivity|]. split.
      * apply repeat_length.
      * apply Forall_forall. intros. exact I.
  - rewrite Hm. cbv beta iota delta [bind]. eexists. split; [reflexivity|].
    rewrite length_map, Hlen. unfold sampling_angles. rewrite linspace_length. reflexivity.
Qed.

(** Extra: when [cone_height >= R_sun], the first and the last of the
    angles sampled by [points] ([n = 54]) and [outline] ([n = 64]) fall in
    the right and left legs, and the cross sections there are centred on
    the leg axes at distance [R_sun] from the origin: the shell is drawn
    from the solar surface. *)
Theorem shell_feet_on_sun (s : GCSGeometry) (n : nat) :
  0 < half_angle s < PI / 2 -> R_sun <= cone_height s -> (2 <= n)%nat ->
  exists b0 b1 cs0 cs1,
    nth_error (sampling_angles s n) 0 = Some b0 /\
    nth_error (sampling_angles s n) (n - 1) = Some b1 /\
    cross_section_circle s (deg_to_rad b0) = Ok cs0 /\
    cross_section_circle s (deg_to_rad b1) = Ok cs1 /\
    center cs0 = (R_sun * sin (half_angle s), R_sun * cos (half_angle s), 0) /\
    center cs1 = (- (R_sun * sin (half_angle s)), R_sun * cos (half_angle s), 0).
Proof.
  intros Ha Hh Hn. pose proof PI_RGT_0 as Hpi.
  assert (Hh0 : 0 < cone_height s) by (unfold R_sun in Hh; lra).
  pose proof (surface_angle_bound s Ha Hh0) as Hsa.
  pose proof (tan_pos_half_angle _ Ha) as Ht.
  assert (Hrho : 0 < rho s) by (unfold rho, h; apply Rmult_lt_0_compat; assumption).
  set (xi := (h s - R_sun) / rho s).
  assert (HT : 0 <= atan xi).
  { rewrite <- atan_0. destruct (Req_dec xi 0) as [->|Hne]; [lra|].
    apply Rlt_le, atan_increasing. unfold xi, h. apply Rdiv_lt_0_compat; [|exact Hrho].
    destruct (Req_dec (cone_height s) R_sun) as [He|He].
    - exfalso. apply Hne. unfold xi, h. rewrite He. unfold Rdiv. ring.
    - lra. }
  assert (Hrad : deg_to_rad (surface_angle_deg s) = atan xi + half_angle s)
    by apply surface_angle_rad.
  assert (HOQ : h s - rho s * tan (atan xi) = R_sun)
    by (rewrite tan_atan; unfold xi; field; lra).
  exists (- surface_angle_deg s), (180 + surface_angle_deg s).
  unfold sampling_angles. rewrite linspace_first, linspace_last by lia.
  assert (E0 : deg_to_rad (- surface_angle_deg s) = - (atan xi + half_angle s)).
  { rewrite <- Hrad. unfold deg_to_rad. ring. }
  assert (E1 : deg_to_rad (180 + surface_angle_deg s) = PI + (atan xi + half_angle s)).
  { rewrite <- Hrad. unfold deg_to_rad. field. }
  rewrite E0, E1. unfold cross_section_circle.
  assert (R0 : in_rhs_leg s (- (atan xi + half_angle s)) = true).
  { unfold in_rhs_leg, Rle_b.
    destruct (Rle_dec _ _); [|lra]. destruct (Rle_dec _ _); [reflexivity|lra]. }
  assert (R1 : in_rhs_leg s (PI + (atan xi + half_angle s)) = false).
  { unfold in_rhs_leg, Rle_b.
    destruct (Rle_dec _ _); [|reflexivity]. destruct (Rle_dec _ _); [lra|reflexivity]. }
  assert (L1 : in_lhs_leg s (PI + (atan xi + half_angle s)) = true).
  { unfold in_lhs_leg, Rle_b.
    destruct (Rle_dec _ _); [|lra]. destruct (Rle_dec _ _); [reflexivity|lra]. }
  rewrite R0, R1, L1.
  do 2 eexists. repeat split.
  - simpl. replace (- (- (atan xi + half_angle s) + half_angle s)) with (atan xi) by ring.
    rewrite HOQ. reflexivity.
  - simpl. replace (PI + (atan xi + half_angle s) - half_angle s - PI) with (atan xi) by ring.
    rewrite HOQ. f_equal. f_equal. ring.
Qed.

Lemma shell_feet_on_sun_witness :
  (0 < half_angle (mkGCSGeometry (PI / 4) (1 / 2) (3 * R_sun) (2 * R_sun)) < PI / 2 /\
   R_sun <= cone_height (mkGCSGeometry (PI / 4) (1 / 2) (3 * R_sun) (2 * R_sun)) /\
   (2 <= 54)%nat) /\
  exists b0 b1 cs0 cs1,
    nth_error (sampling_angles (mkGCSGeometry (PI / 4) (1 / 2) (3 * R_sun) (2 * R_sun)) 54) 0
      = Some b0 /\
    nth_error (sampling_angles (mkGCSGeometry (PI / 4) (1 / 2) (3 * R_sun) (2 * R_sun)) 54) 53
      = Some b1 /\
    cross_section_circle (mkGCSGeometry (PI / 4) (1 / 2) (3 * R_sun) (2 * R_sun))
      (deg_to_rad b0) = Ok cs0 /\
    cross_section_circle (mkGCSGeometry (PI / 4) (1 / 2) (3 * R_sun) (2 * R_sun))
      (deg_to_rad b1) = Ok cs1 /\
    center cs0 = (R_sun * sin (PI / 4), R_sun * cos (PI / 4), 0) /\
    center cs1 = (- (R_sun * sin (PI / 4)), R_sun * cos (PI / 4), 0).
Proof.
  assert (Ha : 0 < half_angle (mkGCSGeometry (PI / 4) (1 / 2) (3 * R_sun) (2 * R_sun)) < PI / 2)
    by (simpl; pose proof PI_RGT_0; lra).
  assert (Hh : R_sun <= cone_height (mkGCSGeometry (PI / 4) (1 / 2) (3 * R_sun) (2 * R_sun)))
    by (simpl; unfold R_sun; lra).
  assert (Hn : (2 <= 54)%nat) by lia.
  split; [split; [exact Ha | split; [exact Hh | exact Hn]]|].
  exact (shell_feet_on_sun (mkGCSGeometry (PI / 4) (1 / 2) (3 * R_sun) (2 * R_sun)) 54 Ha Hh Hn).
Defined.

Lemma points_total_witness :
  exists m, Model.init (PI / 4) (1 / 2) (Some 3) 0 0 0 = Ok m /\
  (0 < half_angle (geometry m) < PI / 2 /\ 0 <= aspect_ratio (geometry m) < 1 /\
   0 < cone_height (geometry m)) /\
  exists pts, points m = Ok pts /\ List.length pts = 2052%nat.
Proof.
  eexists. split; [reflexivity|]. pose proof PI_RGT_0.
  assert (Ha : 0 <= PI / 4 < PI / 2) by lra.
  pose proof (cos_pos_half_angle _ Ha). pose proof (one_plus_sin_pos _ Ha).
  assert (Hh : 0 < compute_cone_height (PI / 4) (1 / 2) 3).
  { unfold compute_cone_height. apply Rdiv_lt_0_compat; [|lra].
    apply Rmult_lt_0_compat; [|lra]. apply Rmult_lt_0_compat; lra. }
  assert (Ha1 : 0 < PI / 4 < PI / 2) by lra. assert (Hk1 : 0 <= 1 / 2 < 1) by lra.
  split; [split; [exact Ha1 | split; [exact Hk1 | exact Hh]]|].
  apply points_total; [exact Ha1 | exact Hk1 | exact Hh].
Defined.

End WidgetFacts.

Section ControllerFacts.
Import MapSequence Controller.
Open Scope Z_scope.

Lemma py_index_nat {A : Type} (xs : list A) (i : nat) (x : A) :
  nth_error xs i = Some x -> py_index xs (Z.of_nat i) = Ok x.
Proof.
  intros H. unfold py_index.
  replace (Z.of_nat i <? 0) with false by (symmetry; apply Z.ltb_ge; lia).
  replace (Z.of_nat i <? 0) with false by (symmetry; apply Z.ltb_ge; lia).
  rewrite Nat2Z.id, H. reflexivity.
Qed.

Lemma py_set_nat {A : Type} (xs : list A) (i : nat) (v : A) :
  (i < List.length xs)%nat -> py_set xs (Z.of_nat i) v = Ok (set_nth xs i v).
Proof.
  intros H. unfold py_set.
  replace (Z.of_nat i <? 0) with false by (symmetry; apply Z.ltb_ge; lia).
  replace (Z.of_nat i <? 0) with false by (symmetry; apply Z.ltb_ge; lia).
  replace (Z.of_nat (List.length xs) <=? Z.of_nat i) with false
    by (symmetry; apply Z.leb_gt; lia).
  rewrite Nat2Z.id. reflexivity.
Qed.

Lemma nth_error_set_nth_same {A : Type} (xs : list A) (i : nat) (v : A) :
  (i < List.length xs)%nat -> nth_error (set_nth xs i v) i = Some v.
Proof.
  revert i. induction xs as [|x xs IH]; intros [|i] H; simpl in *; try lia; auto.
  apply IH. lia.
Qed.

Lemma nth_error_set_nth_other {A : Type} (xs : list A) (i j : nat) (v : A) :
  j <> i -> nth_error (set_nth xs i v) j = nth_error xs j.
Proof.
  revert i j. induction xs as [|x xs IH]; intros [|i] [|j] H; simpl; try reflexivity;
    try lia. apply IH. lia.
Qed.

Lemma nth_error_lt {A : Type} (xs : list A) (i : nat) (x : A) :
  nth_error xs i = Some x -> (i < List.length xs)%nat.
Proof. intros H. apply nth_error_Some. rewrite H. discriminate. Qed.

Lemma py_index_range {A : Type} (xs : list A) (k : Z) :
  0 <= k < Z.of_nat (List.length xs) -> exists x, py_index xs k = Ok x.
Proof.
  intros Hk. destruct (nth_error xs (Z.to_nat k)) as [x|] eqn:E.
  - exists x. rewrite <- (Z2Nat.id k) by lia. apply py_index_nat. exact E.
  - apply nth_error_None in E. lia.
Qed.

Lemma py_index_Z {A : Type} (xs : list A) (k : Z) (x : A) :
  0 <= k -> nth_error xs (Z.to_nat k) = Some x -> py_index xs k = Ok x.
Proof. intros Hk H. rewrite <- (Z2Nat.id k) by lia. apply py_index_nat. exact H. Qed.

Lemma pixel_sub_self (l : pixels) :
  map (fun '(x, y) => uint8_sub x y) (combine l l) = map (fun _ => 0) l.
Proof.
  induction l as [|x l IH]; simpl; [reflexivity|].
  rewrite IH. unfold uint8_sub. rewrite Z.sub_diag. reflexivity.
Qed.

(** [MapSequencePlotUIWithFrame.update] on a valid frame of a sequence whose
    frames share one shape: the frame is shown, raw for a negative difference
    frame and minus the difference frame otherwise. *)
Lemma ui_update_data (bmc : string -> option Z -> option Z -> pixels -> Z)
    (c : MapSequencePlotContainer) (f df : Z) (vmin vmax : option Z) (cm : string)
    (mf : Map) :
  0 <= current_frame_index c < num_frames c ->
  0 <= f -> nth_error (map_sequence c) (Z.to_nat f) = Some mf ->
  df < num_frames c ->
  (forall mr, 0 <= df -> nth_error (map_sequence c) (Z.to_nat df) = Some mr ->
     List.length (data mr) = List.length (data mf)) ->
  exists c',
    ui_update bmc c f df vmin vmax cm = Ok c' /\
    current_frame_index c' = f /\ map_sequence c' = map_sequence c /\
    im_clim (im c') = (vmin, vmax) /\
    (df < 0 -> im_data (im c') = data mf) /\
    (forall mr, 0 <= df -> nth_error (map_sequence c) (Z.to_nat df) = Some mr ->
       im_data (im c') = map (fun '(x, y) => uint8_sub x y) (combine (data mf) (data mr))).
Proof.
  intros Hcur Hf0 Hmf Hdf Hlen. unfold num_frames in *.
  pose proof (nth_error_lt _ _ _ Hmf) as Lf.
  unfold ui_update, update_to_frame, get_map_data, num_frames.
  cbn [map_sequence colorbar_state current_frame_index modifier cb_cmap
       MapSequence.vmin MapSequence.vmax].
  replace (np_clip f 0 (Z.of_nat (List.length (map_sequence c)) - 1)) with f
    by (unfold np_clip; lia).
  rewrite (py_index_Z _ _ _ Hf0 Hmf). cbv beta iota delta [bind].
  unfold Difference.call, Difference.is_valid_reference_frame.
  cbn [Difference.is_enabled Difference.reference_frame].
  destruct (py_index_range (map_sequence c) (current_frame_index c) ltac:(lia))
    as [m0 Hm0].
  destruct (0 <=? df) eqn:E0.
  - apply Z.leb_le in E0.
    replace (df <? 0) with false by (symmetry; apply Z.ltb_ge; lia). simpl.
    destruct (nth_error (map_sequence c) (Z.to_nat df)) as [mr|] eqn:Hmr;
      [|apply nth_error_None in Hmr; lia].
    rewrite (py_index_Z _ _ _ E0 Hmr). cbv beta iota delta [bind].
    unfold Difference.array_sub.
    rewrite (Hlen mr E0 eq_refl), Nat.eqb_refl.
    destruct (String.eqb cm "default"); [rewrite Hm0|]; simpl;
      (eexists; split; [reflexivity|]); simpl;
      (split; [reflexivity|split; [reflexivity|split; [reflexivity|split]]]);
      [intros; lia | intros mr' _ Hmr'; congruence | intros; lia |
       intros mr' _ Hmr'; congruence].
  - apply Z.leb_gt in E0. simpl.
    destruct (String.eqb cm "default"); [rewrite Hm0|]; simpl;
      (eexists; split; [reflexivity|]); simpl;
      (split; [reflexivity|split; [reflexivity|split; [reflexivity|split]]]);
      [reflexivity | intros; lia | reflexivity | intros; lia].
Qed.

(** The outcome of one render of [DifferenceController], by mode. *)
Lemma difference_controller_run (frames : list Z) (image_modifiers : list string)
    (datetimes : list (list Z)) (num_frames : list Z) (st : CtrlState) (i : nat)
    (mode : string) (o d f nf : Z) (ts : list Z) :
  nth_error image_modifiers i = Some mode ->
  nth_error (running_difference_offsets st) i = Some o ->
  nth_error (difference_frames st) i = Some d ->
  nth_error frames i = Some f -> nth_error num_frames i = Some nf ->
  nth_error datetimes i = Some ts ->
  d < 0 \/ d < Z.of_nat (List.length ts) ->
  exists st',
    difference_controller frames image_modifiers datetimes num_frames (Z.of_nat i) st
      = Ok st' /\
    (forall j, j <> i ->
       nth_error (running_difference_offsets st') j = nth_error (running_difference_offsets st) j /\
       nth_error (difference_frames st') j = nth_error (difference_frames st) j) /\
    (mode = "None"%string ->
       nth_error (running_difference_offsets st') i = Some 0 /\
       nth_error (difference_frames st') i = Some (-1)) /\
    (mode <> "None"%string -> str_contains "Fixed" mode = true ->
       nth_error (running_difference_offsets st') i = Some 0 /\
       difference_frames st' = difference_frames st) /\
    (mode <> "None"%string -> str_contains "Fixed" mode = false ->
       let o' := if o =? 0 then 1 else o in
       o' <> 0 /\
       nth_error (running_difference_offsets st') i = Some o' /\
       nth_error (difference_frames st') i = Some (Z.max 0 (Z.min (f + o') (nf - 1)))).
Proof.
  intros Hm Ho Hd Hf Hn Ht Hlab.
  pose proof (nth_error_lt _ _ _ Ho) as Lo. pose proof (nth_error_lt _ _ _ Hd) as Ld.
  unfold difference_controller.
  rewrite (py_index_nat _ _ _ Hm). cbv beta iota delta [bind].
  destruct (String.eqb mode "None") eqn:EN.
  - apply String.eqb_eq in EN. subst mode. simpl.
    rewrite (py_set_nat _ _ _ Lo), (py_index_nat _ _ _ Hd).
    cbv beta iota delta [bind].
    destruct (d =? -1) eqn:Ed; simpl.
    + apply Z.eqb_eq in Ed. subst d. eexists. split; [reflexivity|]. simpl.
      split; [|split; [|split; [intros Hc; congruence | intros Hc; congruence]]].
      * intros j Hj. split; [apply nth_error_set_nth_other, Hj | reflexivity].
      * intros _. split; [apply nth_error_set_nth_same, Lo | exact Hd].
    + rewrite (py_set_nat _ _ _ Ld). eexists. split; [reflexivity|]. simpl.
      split; [|split; [|split; [intros Hc; congruence | intros Hc; congruence]]].
      * intros j Hj. split; apply nth_error_set_nth_other, Hj.
      * intros _. split; apply nth_error_set_nth_same; assumption.
  - assert (HmN : mode <> "None"%string) by (intros E; subst; discriminate).
    simpl. rewrite (py_index_nat _ _ _ Hd), (py_index_nat _ _ _ Hn), (py_index_nat _ _ _ Ho).
    cbv beta iota delta [bind].
    assert (Hl : (if 0 <=? d then
                    bind (py_index datetimes (Z.of_nat i)) (fun ts0 =>
                      bind (py_index ts0 d) (fun _ => Ok tt))
                  else Ok tt) = Ok tt).
    { destruct (0 <=? d) eqn:E0; [|reflexivity].
      apply Z.leb_le in E0. rewrite (py_index_nat _ _ _ Ht). simpl.
      destruct (py_index_range ts d) as [x Hx]; [lia|]. rewrite Hx. reflexivity. }
    unfold bind in Hl. rewrite Hl.
    destruct (str_contains "Fixed" mode) eqn:EF.
    + rewrite (py_set_nat _ _ _ Lo). eexists. split; [reflexivity|]. simpl.
      split; [|split; [intros Hc; congruence|split; [|intros _ Hc; discriminate]]].
      * intros j Hj. split; [apply nth_error_set_nth_other, Hj | reflexivity].
      * intros _ _. split; [apply nth_error_set_nth_same, Lo | reflexivity].
    + destruct (o =? 0) eqn:Eo.
      * rewrite (py_set_nat _ _ _ Lo). simpl.
        rewrite (py_index_nat _ _ _ (nth_error_set_nth_same _ _ 1 Lo)),
                ?(py_index_nat _ _ _ Hf), ?(py_index_nat _ _ _ Hn), ?(py_index_nat _ _ _ Hd).
        simpl.
        destruct (d =? Z.max 0 (Z.min (f + 1) (nf - 1))) eqn:Et; simpl.
        -- apply Z.eqb_eq in Et. eexists. split; [reflexivity|]. simpl.
           split; [|split; [intros Hc; congruence | split; [intros _ Hc; discriminate|]]].
           ++ intros j Hj. split; [apply nth_error_set_nth_other, Hj | reflexivity].
           ++ intros _ _. split; [lia|]. split; [apply nth_error_set_nth_same, Lo|].
              rewrite Hd, Et. reflexivity.
        -- rewrite (py_set_nat _ _ _ Ld). eexists. split; [reflexivity|]. simpl.
           split; [|split; [intros Hc; congruence | split; [intros _ Hc; discriminate|]]].
           ++ intros j Hj. split; apply nth_error_set_nth_other, Hj.
           ++ intros _ _. split; [lia|]. split; apply nth_error_set_nth_same; assumption.
      * simpl. rewrite ?(py_index_nat _ _ _ Ho), ?(py_index_nat _ _ _ Hf),
                 ?(py_index_nat _ _ _ Hn), ?(py_index_nat _ _ _ Hd). simpl.
        apply Z.eqb_neq in Eo.
        destruct (d =? Z.max 0 (Z.min (f + o) (nf - 1))) eqn:Et; simpl.
        -- apply Z.eqb_eq in Et. eexists. split; [reflexivity|]. simpl.
           split; [|split; [intros Hc; congruence | split; [intros _ Hc; discriminate|]]].
           ++ intros j Hj. split; reflexivity.
           ++ intros _ _. replace (o =? 0) with false by (symmetry; apply Z.eqb_neq; exact Eo).
              split; [exact Eo|]. split; [exact Ho|]. rewrite Hd, Et. reflexivity.
        -- rewrite (py_set_nat _ _ _ Ld). eexists. split; [reflexivity|]. simpl.
           split; [|split; [intros Hc; congruence | split; [intros _ Hc; discriminate|]]].
           ++ intros j Hj. split; [reflexivity | apply nth_error_set_nth_other, Hj].
           ++ intros _ _. replace (o =? 0) with false by (symmetry; apply Z.eqb_neq; exact Eo).
              split; [exact Eo|]. split; [exact Ho|]. apply nth_error_set_nth_same, Ld.
Qed.

(** Extra: one render of [DifferenceController] for the active plot [i]
    (all per-plot lists long enough, and the shown difference frame, when
    [>= 0], a valid index of the plot's timestamps) never fails, touches
    only entry [i] of the offsets and difference frames, and:
    in mode "None" sets the offset to 0 and the difference frame to -1;
    in a mode containing "Fixed" sets the offset to 0 and keeps the
    difference frame; in any other mode (running difference) turns a zero
    offset into 1 (the offset is then never 0) and sets the difference frame
    to [frame + offset] clamped to [[0, num_frames - 1]]. *)
Theorem difference_controller_modes (frames : list Z) (image_modifiers : list string)
    (datetimes : list (list Z)) (num_frames : list Z) (st : CtrlState) (i : nat)
    (mode : string) (o d f nf : Z) (ts : list Z) :
  nth_error image_modifiers i = Some mode ->
  nth_error (running_difference_offsets st) i = Some o ->
  nth_error (difference_frames st) i = Some d ->
  nth_error frames i = Some f -> nth_error num_frames i = Some nf ->
  nth_error datetimes i = Some ts ->
  d < 0 \/ d < Z.of_nat (List.length ts) ->
  exists st',
    difference_controller frames image_modifiers datetimes num_frames (Z.of_nat i) st
      = Ok st' /\
    (forall j, j <> i ->
       nth_error (running_difference_offsets st') j = nth_error (running_difference_offsets st) j /\
       nth_error (difference_frames st') j = nth_error (difference_frames st) j) /\
    (mode = "None"%string ->
       nth_error (running_difference_offsets st') i = Some 0 /\
       nth_error (difference_frames st') i = Some (-1)) /\
    (mode <> "None"%string -> str_contains "Fixed" mode = true ->
       nth_error (running_difference_offsets st') i = Some 0 /\
       difference_frames st' = difference_frames st) /\
    (mode <> "None"%string -> str_contains "Fixed" mode = false ->
       let o' := if o =? 0 then 1 else o in
       o' <> 0 /\
       nth_error (running_difference_offsets st') i = Some o' /\
       nth_error (difference_frames st') i = Some (Z.max 0 (Z.min (f + o') (nf - 1)))).
Proof. apply difference_controller_run. Qed.

Lemma difference_controller_modes_witness :
  (nth_error ["Running difference"%string] 0 = Some "Running difference"%string /\
   nth_error [0] 0 = Some 0 /\ nth_error [-1] 0 = Some (-1) /\
   nth_error [3] 0 = Some 3 /\ nth_error [5] 0 = Some 5 /\
   nth_error [[10; 20; 30; 40; 50]] 0 = Some [10; 20; 30; 40; 50] /\
   (-1 < 0 \/ -1 < Z.of_nat (List.length [10; 20; 30; 40; 50]))) /\
  exists st',
    difference_controller [3] ["Running difference"%string] [[10; 20; 30; 40; 50]] [5]
      (Z.of_nat 0) (mkCtrlState [0] [-1]) = Ok st' /\
    nth_error (running_difference_offsets st') 0 = Some 1 /\
    nth_error (difference_frames st') 0 = Some 4.
Proof.
  split; [repeat split; left; lia|].
  destruct (difference_controller_modes [3] ["Running difference"%string]
              [[10; 20; 30; 40; 50]] [5] (mkCtrlState [0] [-1]) 0
              "Running difference"%string 0 (-1) 3 5 [10; 20; 30; 40; 50]
              eq_refl eq_refl eq_refl eq_refl eq_refl eq_refl (or_introl eq_refl))
    as [st' [Hr [_ [_ [_ Hrun]]]]].
  exists st'. split; [exact Hr|].
  destruct (Hrun ltac:(discriminate) eq_refl) as [_ [Ho Hd]].
  split; [exact Ho | exact Hd].
Defined.

(** Extra: composing one render of [DifferenceController] on the active plot
    with the [update] of that plot's UI at its frame [f] (a valid frame of a
    sequence whose frames share one shape, difference frame below the number
    of frames): the controller succeeds and the plot then shows, in mode
    "None", the raw frame; in a "Fixed" mode (subtraction being numpy's on
    [uint8] frames, modulo 256), the frame minus the kept
    difference frame when it is [>= 0] and the raw frame otherwise; in
    running-difference mode, the frame minus the frame [f + offset] clamped
    to the sequence, where a zero offset has become 1. *)
Theorem difference_view_after_controller
    (bmc : string -> option Z -> option Z -> pixels -> Z)
    (frames : list Z) (image_modifiers : list string) (datetimes : list (list Z))
    (nfs : list Z) (st : CtrlState) (i : nat) (mode : string) (o d f : Z)
    (ts : list Z) (c : MapSequencePlotContainer) (mf : Map)
    (vmin vmax : option Z) (cm : string) :
  nth_error image_modifiers i = Some mode ->
  nth_error (running_difference_offsets st) i = Some o ->
  nth_error (difference_frames st) i = Some d ->
  nth_error frames i = Some f -> nth_error nfs i = Some (num_frames c) ->
  nth_error datetimes i = Some ts ->
  d < 0 \/ d < Z.of_nat (List.length ts) ->
  d < num_frames c ->
  0 <= f -> nth_error (map_sequence c) (Z.to_nat f) = Some mf ->
  0 <= current_frame_index c < num_frames c ->
  (forall m, In m (map_sequence c) -> List.length (data m) = List.length (data mf)) ->
  exists st' df c',
    difference_controller frames image_modifiers datetimes nfs (Z.of_nat i) st = Ok st' /\
    nth_error (difference_frames st') i = Some df /\
    ui_update bmc c f df vmin vmax cm = Ok c' /\
    current_frame_index c' = f /\
    (mode = "None"%string -> im_data (im c') = data mf) /\
    (mode <> "None"%string -> str_contains "Fixed" mode = true ->
       (d < 0 -> im_data (im c') = data mf) /\
       (forall mr, 0 <= d -> nth_error (map_sequence c) (Z.to_nat d) = Some mr ->
          im_data (im c') = map (fun '(x, y) => uint8_sub x y) (combine (data mf) (data mr)))) /\
    (mode <> "None"%string -> str_contains "Fixed" mode = false ->
       let o' := if o =? 0 then 1 else o in
       forall mr,
         nth_error (map_sequence c) (Z.to_nat (Z.max 0 (Z.min (f + o') (num_frames c - 1))))
           = Some mr ->
         im_data (im c') = map (fun '(x, y) => uint8_sub x y) (combine (data mf) (data mr))).
Proof.
  intros Hm Ho Hd Hf Hn Ht Hlab Hdn Hf0 Hmf Hcur Hlen.
  pose proof (nth_error_lt _ _ _ Hmf) as Lf. unfold num_frames in *.
  destruct (difference_controller_run frames image_modifiers datetimes nfs st i mode
              o d f _ ts Hm Ho Hd Hf Hn Ht Hlab) as [st' [Hr [_ [HN [HF HR]]]]].
  exists st'.
  destruct (String.eqb mode "None") eqn:EN.
  - apply String.eqb_eq in EN. subst mode.
    destruct (HN eq_refl) as [_ Hdf].
    destruct (ui_update_data bmc c f (-1) vmin vmax cm mf) as [c' [Hu [Hi [_ [_ [Hneg _]]]]]];
      unfold num_frames; try lia; try assumption;
        try (intros mr _ Hmr; apply Hlen; eapply nth_error_In; exact Hmr).
    exists (-1), c'. do 4 (split; [assumption|]).
    split; [intros _; apply Hneg; lia|].
    split; intros Hc; congruence.
  - apply String.eqb_neq in EN.
    destruct (str_contains "Fixed" mode) eqn:EF.
    + destruct (HF EN eq_refl) as [_ Hds]. rewrite <- Hds in Hd.
      destruct (ui_update_data bmc c f d vmin vmax cm mf)
        as [c' [Hu [Hi [_ [_ [Hneg Hpos]]]]]]; unfold num_frames; try lia; try assumption;
        try (intros mr _ Hmr; apply Hlen; eapply nth_error_In; exact Hmr).
      exists d, c'. do 4 (split; [assumption|]).
      split; [intros Hc; congruence|]. split; [intros _ _; split; assumption|].
      intros _ Hc. discriminate.
    + destruct (HR EN eq_refl) as [_ [_ Hdf]].
      set (t := Z.max 0 (Z.min (f + (if o =? 0 then 1 else o))
                               (Z.of_nat (List.length (map_sequence c)) - 1))) in *.
      destruct (ui_update_data bmc c f t vmin vmax cm mf)
        as [c' [Hu [Hi [_ [_ [_ Hpos]]]]]]; unfold num_frames; try lia; try assumption;
        try (intros mr _ Hmr; apply Hlen; eapply nth_error_In; exact Hmr).
      exists t, c'. do 4 (split; [assumption|]).
      split; [intros Hc; congruence|]. split; [intros _ Hc; discriminate|].
      intros _ _ mr Hmr. apply Hpos; [lia | exact Hmr].
Qed.

Lemma difference_view_after_controller_witness :
  let c := mkContainer [mkMap [1; 2] "gray"; mkMap [5; 7] "gray"; mkMap [4; 4] "gray"]
             (mkColorbarState "default" None None) 0 Difference.new
             (mkImage [] "gray" (None, None)) 0 in
  let mf := mkMap [1; 2] "gray" in
  ((-1 < 0 \/ -1 < Z.of_nat (List.length [10; 20; 30])) /\ -1 < num_frames c /\
   0 <= 0 /\ nth_error (map_sequence c) (Z.to_nat 0) = Some mf /\
   0 <= current_frame_index c < num_frames c /\
   (forall m, In m (map_sequence c) -> List.length (data m) = List.length (data mf))) /\
  exists st' df c',
    difference_controller [0] ["Running difference"%string] [[10; 20; 30]] [3]
      (Z.of_nat 0) (mkCtrlState [0] [-1]) = Ok st' /\
    nth_error (difference_frames st') 0 = Some df /\
    ui_update (fun _ _ _ _ => 0) c 0 df None None "default" = Ok c' /\
    im_data (im c') = [252; 251].
Proof.
  intros c mf.
  assert (Hlen : forall m, In m (map_sequence c) ->
                   List.length (data m) = List.length (data mf))
    by (intros m Hm; unfold c in Hm; destruct Hm as [H|[H|[H|[]]]]; subst; reflexivity).
  split; [repeat split; try (left; lia); try (unfold c, num_frames; simpl; lia); exact Hlen|].
  destruct (difference_view_after_controller (fun _ _ _ _ => 0) [0]
              ["Running difference"%string] [[10; 20; 30]] [3] (mkCtrlState [0] [-1]) 0
              "Running difference"%string 0 (-1) 0 [10; 20; 30] c mf None None "default"
              eq_refl eq_refl eq_refl eq_refl eq_refl eq_refl (or_introl eq_refl)
              ltac:(unfold c, num_frames; simpl; lia) ltac:(lia) eq_refl ltac:(unfold c, num_frames; simpl; lia) Hlen)
    as [st' [df [c' [Hr [Hd [Hu [_ [_ [_ Hrun]]]]]]]]].
  exists st', df, c'. split; [exact Hr|]. split; [exact Hd|]. split; [exact Hu|].
  rewrite (Hrun ltac:(discriminate) eq_refl (mkMap [5; 7] "gray") eq_refl).
  reflexivity.
Defined.

(** Extra: in running-difference mode, when the clamped reference frame is
    the shown frame itself (a non-negative offset on the last frame, or a
    negative offset on the first frame), the controller sets the difference
    frame to the shown frame and the plot shows that frame minus itself:
    an image of zeros. *)
Theorem running_difference_same_frame_at_ends
    (bmc : string -> option Z -> option Z -> pixels -> Z)
    (frames : list Z) (image_modifiers : list string) (datetimes : list (list Z))
    (nfs : list Z) (st : CtrlState) (i : nat) (mode : string) (o d f : Z)
    (ts : list Z) (c : MapSequencePlotContainer) (mf : Map)
    (vmin vmax : option Z) (cm : string) :
  nth_error image_modifiers i = Some mode ->
  mode <> "None"%string -> str_contains "Fixed" mode = false ->
  nth_error (running_difference_offsets st) i = Some o ->
  nth_error (difference_frames st) i = Some d ->
  nth_error frames i = Some f -> nth_error nfs i = Some (num_frames c) ->
  nth_error datetimes i = Some ts ->
  d < 0 \/ d < Z.of_nat (List.length ts) ->
  0 <= f -> nth_error (map_sequence c) (Z.to_nat f) = Some mf ->
  0 <= current_frame_index c < num_frames c ->
  (0 <= o /\ f = num_frames c - 1) \/ (o < 0 /\ f = 0) ->
  exists st' c',
    difference_controller frames image_modifiers datetimes nfs (Z.of_nat i) st = Ok st' /\
    nth_error (difference_frames st') i = Some f /\
    ui_update bmc c f f vmin vmax cm = Ok c' /\
    im_data (im c') = map (fun _ => 0) (data mf).
Proof.
  intros Hm EN EF Ho Hd Hf Hn Ht Hlab Hf0 Hmf Hcur Hend.
  pose proof (nth_error_lt _ _ _ Hmf) as Lf. unfold num_frames in *.
  destruct (difference_controller_run frames image_modifiers datetimes nfs st i mode
              o d f _ ts Hm Ho Hd Hf Hn Ht Hlab) as [st' [Hr [_ [_ [_ HR]]]]].
  destruct (HR EN EF) as [_ [_ Hdf]].
  replace (Z.max 0 (Z.min (f + (if o =? 0 then 1 else o))
                          (Z.of_nat (List.length (map_sequence c)) - 1))) with f in Hdf
    by (destruct (o =? 0) eqn:Eo; [apply Z.eqb_eq in Eo | apply Z.eqb_neq in Eo]; lia).
  destruct (ui_update_data bmc c f f vmin vmax cm mf)
    as [c' [Hu [_ [_ [_ [_ Hpos]]]]]]; unfold num_frames; try lia; try assumption.
  - intros mr _ Hmr. congruence.
  - exists st', c'. split; [exact Hr|]. split; [exact Hdf|]. split; [exact Hu|].
    rewrite (Hpos mf Hf0 Hmf). apply pixel_sub_self.
Qed.

Lemma running_difference_same_frame_at_ends_witness :
  let c := mkContainer [mkMap [1; 2] "gray"; mkMap [5; 7] "gray"; mkMap [4; 4] "gray"]
             (mkColorbarState "gray" None None) 2 Difference.new
             (mkImage [] "gray" (None, None)) 0 in
  let mf := mkMap [4; 4] "gray" in
  ("Running difference"%string <> "None"%string /\
   (-1 < 0 \/ -1 < Z.of_nat (List.length [10; 20; 30])) /\
   0 <= 2 /\ nth_error (map_sequence c) (Z.to_nat 2) = Some mf /\
   0 <= current_frame_index c < num_frames c /\
   ((0 <= 0 /\ 2 = num_frames c - 1) \/ (0 < 0 /\ 2 = 0))) /\
  exists st' c',
    difference_controller [2] ["Running difference"%string] [[10; 20; 30]] [3]
      (Z.of_nat 0) (mkCtrlState [0] [-1]) = Ok st' /\
    nth_error (difference_frames st') 0 = Some 2 /\
    ui_update (fun _ _ _ _ => 0) c 2 2 None None "gray" = Ok c' /\
    im_data (im c') = [0; 0].
Proof.
  intros c mf.
  split; [repeat split; try discriminate; try (left; lia); try (unfold c, num_frames; simpl; lia); reflexivity|].
  destruct (running_difference_same_frame_at_ends (fun _ _ _ _ => 0) [2]
              ["Running difference"%string] [[10; 20; 30]] [3] (mkCtrlState [0] [-1]) 0
              "Running difference"%string 0 (-1) 2 [10; 20; 30] c mf None None "gray"
              eq_refl ltac:(discriminate) eq_refl eq_refl eq_refl eq_refl eq_refl eq_refl
              (or_introl eq_refl) ltac:(lia) eq_refl ltac:(unfold c, num_frames; simpl; lia)
              ltac:(left; unfold c, num_frames; simpl; lia))
    as [st' [c' [Hr [Hd [Hu Hz]]]]].
  exists st', c'. split; [exact Hr|]. split; [exact Hd|]. split; [exact Hu|].
  rewrite Hz. reflexivity.
Defined.

End ControllerFacts.

Section SyncFacts.
Import Jux.
Open Scope Z_scope.

Lemma length_set_nth {A : Type} (xs : list A) (i : nat) (v : A) :
  List.length (set_nth xs i v) = List.length xs.
Proof. revert i. induction xs as [|x xs IH]; intros [|i]; simpl; auto. Qed.

Lemma argmin_from_spec (xs pre : list Z) (best bi : Z) :
  0 <= bi -> nth_error pre (Z.to_nat bi) = Some best ->
  (forall y, In y pre -> best <= y) ->
  (forall j y, (j < Z.to_nat bi)%nat -> nth_error pre j = Some y -> best < y) ->
  0 <= argmin_from xs (Z.of_nat (List.length pre)) best bi /\
  exists v,
    nth_error (pre ++ xs) (Z.to_nat (argmin_from xs (Z.of_nat (List.length pre)) best bi))
      = Some v /\
    (forall y, In y (pre ++ xs) -> v <= y) /\
    (forall j y, (j < Z.to_nat (argmin_from xs (Z.of_nat (List.length pre)) best bi))%nat ->
       nth_error (pre ++ xs) j = Some y -> v < y).
Proof.
  revert pre best bi.
  induction xs as [|x tl IH]; intros pre best bi H0 Hb Hmin Hfirst; simpl.
  - rewrite app_nil_r. split; [exact H0|]. exists best. auto.
  - replace (Z.of_nat (List.length pre) + 1) with (Z.of_nat (List.length (pre ++ [x])))
      by (rewrite length_app; simpl; lia).
    replace (pre ++ x :: tl) with ((pre ++ [x]) ++ tl) by (rewrite <- app_assoc; reflexivity).
    pose proof (nth_error_lt _ _ _ Hb) as Lb.
    destruct (x <? best) eqn:E.
    + apply Z.ltb_lt in E. apply IH.
      * lia.
      * rewrite Nat2Z.id, nth_error_app2 by lia. rewrite Nat.sub_diag. reflexivity.
      * intros y Hy. apply in_app_or in Hy as [Hy|[Hy|[]]]; [specialize (Hmin y Hy); lia | lia].
      * intros j y Hj Hy. rewrite Nat2Z.id in Hj. rewrite nth_error_app1 in Hy by lia.
        pose proof (Hmin y (nth_error_In _ _ Hy)). lia.
    + apply Z.ltb_ge in E. apply IH.
      * exact H0.
      * rewrite nth_error_app1 by lia. exact Hb.
      * intros y Hy. apply in_app_or in Hy as [Hy|[Hy|[]]]; [auto | lia].
      * intros j y Hj Hy. rewrite nth_error_app1 in Hy by lia. eauto.
Qed.

(** [argmin] returns the index of the first minimum. *)
Lemma argmin_spec (l : list Z) (k : Z) :
  argmin l = Ok k ->
  0 <= k /\ exists v, nth_error l (Z.to_nat k) = Some v /\
    (forall y, In y l -> v <= y) /\
    (forall j y, (j < Z.to_nat k)%nat -> nth_error l j = Some y -> v < y).
Proof.
  destruct l as [|x tl]; simpl; intros H; [discriminate|]. injection H as <-.
  apply (argmin_from_spec tl [x] x 0); simpl; try lia; auto.
Qed.

(** The frame [np.abs(ts - t).argmin()] is the first one nearest to [t]. *)
Lemma nearest_frame_spec (ts : list Z) (t k : Z) :
  argmin (map (fun d => Z.abs (d - t)) ts) = Ok k ->
  0 <= k /\ exists x, nth_error ts (Z.to_nat k) = Some x /\
    (forall y, In y ts -> Z.abs (x - t) <= Z.abs (y - t)) /\
    (forall j y, (j < Z.to_nat k)%nat -> nth_error ts j = Some y ->
       Z.abs (x - t) < Z.abs (y - t)).
Proof.
  intros H. destruct (argmin_spec _ _ H) as [H0 [v [Hv [Hm Hf]]]].
  split; [exact H0|]. rewrite nth_error_map in Hv.
  destruct (nth_error ts (Z.to_nat k)) as [x|] eqn:Ex; [|discriminate].
  injection Hv as <-. exists x. split; [reflexivity|]. split.
  - intros y Hy. apply Hm, in_map_iff. exists y. auto.
  - intros j y Hj Hy. apply (Hf j); [exact Hj|]. rewrite nth_error_map, Hy. reflexivity.
Qed.

Lemma argmin_nonempty (l : list Z) : l <> [] -> exists k, argmin l = Ok k.
Proof. destruct l as [|x tl]; [congruence|]. intros _. eexists. reflexivity. Qed.

Lemma sync_loop_all_active (env : SyncEnv) (l : list nat) (tgt : pyval) (st : SyncState) :
  (forall p, In p l -> Z.of_nat p = active_plot env) -> sync_loop env l tgt st = Ok st.
Proof.
  revert tgt. induction l as [|p l IH]; intros tgt H; simpl; [reflexivity|].
  replace (Z.of_nat p =? active_plot env) with true
    by (symmetry; apply Z.eqb_eq; apply H; left; reflexivity).
  apply IH. intros q Hq. apply H. right. exact Hq.
Qed.

(** The loop of [on_frame_change] while [target] is still the active
    frame's time. *)
Lemma sync_loop_datetime (env : SyncEnv) (a : nat) (t : Z) :
  active_plot env = Z.of_nat a ->
  (forall p ts, nth_error (datetimes env) p = Some ts -> ts <> []) ->
  List.length (running_difference_offsets env) = List.length (datetimes env) ->
  List.length (num_frames env) = List.length (datetimes env) ->
  forall m s st,
  (s + m <= List.length (datetimes env))%nat ->
  List.length (frames st) = List.length (datetimes env) ->
  List.length (difference_frames st) = List.length (datetimes env) ->
  (forall p q off, (s <= p)%nat -> (p < q < s + m)%nat -> p <> a -> q <> a ->
     nth_error (running_difference_offsets env) p = Some off -> off = 0) ->
  exists st', sync_loop env (seq s m) (VDatetime t) st = Ok st' /\
    List.length (frames st') = List.length (datetimes env) /\
    List.length (difference_frames st') = List.length (datetimes env) /\
    (forall p, ((p < s)%nat \/ (s + m <= p)%nat \/ p = a) ->
       nth_error (frames st') p = nth_error (frames st) p /\
       nth_error (difference_frames st') p = nth_error (difference_frames st) p) /\
    (forall p ts off, (s <= p < s + m)%nat -> p <> a ->
       nth_error (datetimes env) p = Some ts ->
       nth_error (running_difference_offsets env) p = Some off ->
       exists k, nth_error (frames st') p = Some k /\
         argmin (map (fun d => Z.abs (d - t)) ts) = Ok k /\
         (off = 0 -> nth_error (difference_frames st') p = nth_error (difference_frames st) p) /\
         (forall nf, off <> 0 -> nth_error (num_frames env) p = Some nf ->
            nth_error (difference_frames st') p = Some (Z.max 0 (Z.min (k + off) (nf - 1))))).
Proof.
  intros Ha Hne Lo Ln. induction m as [|m IH]; intros s st Hsm Lf Ld Hord.
  - exists st. simpl. split; [reflexivity|].
    split; [exact Lf|]. split; [exact Ld|]. split.
    + intros p _. split; reflexivity.
    + intros p ts off Hp. lia.
  - cbn [seq sync_loop].
    destruct (Nat.eq_dec s a) as [Esa|Esa].
    + subst s. rewrite Ha, Z.eqb_refl.
      destruct (IH (S a) st) as [st' [Hr [L1 [L2 [Hu Hs]]]]]; try lia; try assumption.
      { intros p q off Hp Hq. apply (Hord p q off); lia. }
      exists st'. split; [exact Hr|]. split; [exact L1|]. split; [exact L2|]. split.
      * intros p Hp. apply Hu. lia.
      * intros p ts off Hp Hpa. apply Hs; [lia | exact Hpa].
    + replace (Z.of_nat s =? active_plot env) with false
        by (rewrite Ha; symmetry; apply Z.eqb_neq; lia).
      destruct (nth_error (datetimes env) s) as [ts|] eqn:Ets;
        [|apply nth_error_None in Ets; lia].
      rewrite (py_index_nat _ _ _ Ets). cbv beta iota delta [bind]. cbn [abs_time_diff].
      destruct (argmin_nonempty (map (fun d => Z.abs (d - t)) ts)) as [k Ek].
      { destruct ts; [elim (Hne _ _ Ets); reflexivity | discriminate]. }
      rewrite Ek.
      destruct (nth_error (running_difference_offsets env) s) as [off|] eqn:Eo;
        [|apply nth_error_None in Eo; lia].
      rewrite (py_index_nat _ _ _ Eo).
      destruct (off =? 0) eqn:Eoff; cbn [negb].
      * apply Z.eqb_eq in Eoff. subst off.
        destruct (IH (S s) (mkSyncState (set_nth (frames st) s k) (difference_frames st)))
          as [st' [Hr [L1 [L2 [Hu Hs]]]]]; try lia; try assumption.
        { simpl. rewrite length_set_nth. exact Lf. }
        { intros p q off Hp Hq. apply (Hord p q off); lia. }
        simpl in Hu. exists st'. split; [exact Hr|]. split; [exact L1|]. split; [exact L2|].
        split.
        -- intros p Hp. destruct (Hu p ltac:(lia)) as [Hu1 Hu2].
           rewrite Hu1, Hu2, nth_error_set_nth_other by lia. split; reflexivity.
        -- intros p ts' off Hp Hpa Hts Ho.
           destruct (Nat.eq_dec p s) as [->|Hps]; [|apply Hs; [lia|assumption..]].
           rewrite Ets in Hts. injection Hts as <-. rewrite Eo in Ho. injection Ho as <-.
           destruct (Hu s ltac:(lia)) as [Hu1 Hu2].
           exists k. split; [rewrite Hu1; apply nth_error_set_nth_same; lia|].
           split; [exact Ek|]. split; [intros _; exact Hu2|]. intros nf Hc. congruence.
      * apply Z.eqb_neq in Eoff.
        destruct (nth_error (num_frames env) s) as [nf|] eqn:En;
          [|apply nth_error_None in En; lia].
        rewrite (py_index_nat _ _ _ En). cbv beta iota delta [bind].
        rewrite sync_loop_all_active.
        2: { intros p Hp. apply in_seq in Hp.
             destruct (Nat.eq_dec p a) as [->|Hpa]; [symmetry; exact Ha|].
             exfalso. apply Eoff. apply (Hord s p off); auto; lia. }
        eexists. split; [reflexivity|]. simpl.
        split; [rewrite length_set_nth; exact Lf|].
        split; [rewrite length_set_nth; exact Ld|]. split.
        -- intros p Hp. rewrite !nth_error_set_nth_other by lia. split; reflexivity.
        -- intros p ts' off' Hp Hpa Hts Ho.
           destruct (Nat.eq_dec p s) as [->|Hps].
           2: { exfalso. apply Eoff. apply (Hord s p off); auto; lia. }
           rewrite Ets in Hts. injection Hts as <-. rewrite Eo in Ho. injection Ho as <-.
           exists k. split; [apply nth_error_set_nth_same; lia|].
           split; [exact Ek|]. split; [intros Hc; congruence|].
           intros nf' _ Hnf. rewrite En in Hnf. injection Hnf as <-.
           apply nth_error_set_nth_same. lia.
Qed.

(** Extra: with synchronisation on and an event from the active plot [a]
    for its recorded frame, when no non-active plot in running-difference
    mode is followed (in plot order) by another non-active plot,
    [on_frame_change] succeeds; the active plot keeps its frame and
    difference frame; every other plot gets the first frame nearest in time
    to the active frame's time and, in running-difference mode, the
    difference frame [nearest + offset] clamped to its frames. An event for
    any other valid frame than the recorded one raises [RuntimeWarning]. *)
Theorem sync_sets_nearest_frames (env : SyncEnv) (st : SyncState) (a : nat)
    (tsa : list Z) (frame t : Z) :
  sync_plots env = true -> active_plot env = Z.of_nat a ->
  nth_error (datetimes env) a = Some tsa ->
  0 <= frame -> nth_error tsa (Z.to_nat frame) = Some t ->
  nth_error (frames st) a = Some frame ->
  (forall p ts, nth_error (datetimes env) p = Some ts -> ts <> []) ->
  List.length (running_difference_offsets env) = List.length (datetimes env) ->
  List.length (num_frames env) = List.length (datetimes env) ->
  List.length (frames st) = List.length (datetimes env) ->
  List.length (difference_frames st) = List.length (datetimes env) ->
  (forall p q off, (p < q < List.length (datetimes env))%nat -> p <> a -> q <> a ->
     nth_error (running_difference_offsets env) p = Some off -> off = 0) ->
  (exists st', on_frame_change env st frame (Z.of_nat a) = Ok st' /\
    nth_error (frames st') a = Some frame /\
    nth_error (difference_frames st') a = nth_error (difference_frames st) a /\
    (forall p ts off, p <> a -> nth_error (datetimes env) p = Some ts ->
       nth_error (running_difference_offsets env) p = Some off ->
       exists k x, nth_error (frames st') p = Some k /\ 0 <= k /\
         nth_error ts (Z.to_nat k) = Some x /\
         (forall y, In y ts -> Z.abs (x - t) <= Z.abs (y - t)) /\
         (forall j y, (j < Z.to_nat k)%nat -> nth_error ts j = Some y ->
            Z.abs (x - t) < Z.abs (y - t)) /\
         (off = 0 -> nth_error (difference_frames st') p = nth_error (difference_frames st) p) /\
         (forall nf, off <> 0 -> nth_error (num_frames env) p = Some nf ->
            nth_error (difference_frames st') p = Some (Z.max 0 (Z.min (k + off) (nf - 1)))))) /\
  (forall frame' t', frame' <> frame -> 0 <= frame' -> nth_error tsa (Z.to_nat frame') = Some t' ->
     on_frame_change env st frame' (Z.of_nat a) = Err RuntimeWarning).
Proof.
  intros Hs Ha Htsa Hf0 Ht Hfa Hne Lo Ln Lf Ld Hord. split.
  - destruct (sync_loop_datetime env a t Ha Hne Lo Ln (List.length (datetimes env)) 0 st)
      as [st' [Hr [_ [_ [Hu Hsl]]]]]; try lia; try assumption.
    { intros p q off _ Hq. apply Hord. lia. }
    exists st'. split.
    { unfold on_frame_change. rewrite Hs, Ha, Z.eqb_refl. cbn [negb].
      rewrite (py_index_nat _ _ _ Htsa). cbv beta iota delta [bind].
      rewrite (py_index_Z _ _ _ Hf0 Ht), (py_index_nat _ _ _ Hfa), Z.eqb_refl.
      exact Hr. }
    destruct (Hu a (or_intror (or_intror eq_refl))) as [Hua Hud].
    split; [rewrite Hua; exact Hfa|]. split; [exact Hud|].
    intros p ts off Hpa Hts Ho.
    pose proof (nth_error_lt _ _ _ Hts) as Lp.
    destruct (Hsl p ts off ltac:(lia) Hpa Hts Ho) as [k [Hk [Ek [Hd0 Hd1]]]].
    destruct (nearest_frame_spec ts t k Ek) as [Hk0 [x [Hx [Hmin Hfirst]]]].
    exists k, x. auto 7.
  - intros frame' t' Hne' Hf0' Ht'.
    unfold on_frame_change. rewrite Hs, Ha, Z.eqb_refl. cbn [negb].
    rewrite (py_index_nat _ _ _ Htsa). cbv beta iota delta [bind].
    rewrite (py_index_Z _ _ _ Hf0' Ht'), (py_index_nat _ _ _ Hfa).
    replace (frame' =? frame) with false by (symmetry; apply Z.eqb_neq; exact Hne').
    reflexivity.
Qed.

Lemma sync_sets_nearest_frames_witness :
  let env := mkSyncEnv true 0 [[0; 10; 20; 30]; [0; 7; 22]; [0; 19; 21; 40]] [0; 0; 1] [4; 3; 4] in
  let st := mkSyncState [2; 0; 0] [-1; -1; -1] in
  (sync_plots env = true /\ active_plot env = Z.of_nat 0 /\
   nth_error (datetimes env) 0 = Some [0; 10; 20; 30] /\
   0 <= 2 /\ nth_error [0; 10; 20; 30] (Z.to_nat 2) = Some 20 /\
   nth_error (frames st) 0 = Some 2 /\
   (forall p ts, nth_error (datetimes env) p = Some ts -> ts <> []) /\
   (forall p q off, (p < q < List.length (datetimes env))%nat -> p <> 0%nat -> q <> 0%nat ->
      nth_error (running_difference_offsets env) p = Some off -> off = 0)) /\
  (exists st', on_frame_change env st 2 (Z.of_nat 0) = Ok st' /\
     nth_error (frames st') 1 = Some 2 /\ nth_error (frames st') 2 = Some 1 /\
     nth_error (difference_frames st') 2 = Some 2) /\
  on_frame_change env st 1 (Z.of_nat 0) = Err RuntimeWarning.
Proof.
  intros env st.
  assert (Hne : forall p ts, nth_error (datetimes env) p = Some ts -> ts <> []).
  { intros [|[|[|p]]] ts H; simpl in H; try (injection H as <-; discriminate).
    destruct p; discriminate. }
  assert (Hord : forall p q off, (p < q < List.length (datetimes env))%nat -> p <> 0%nat ->
                   q <> 0%nat -> nth_error (running_difference_offsets env) p = Some off ->
                   off = 0).
  { intros p q off Hpq Hp Hq Ho. simpl in Hpq.
    destruct p as [|[|p]]; [lia| |lia]. injection Ho as <-. reflexivity. }
  split; [repeat split; first [assumption | reflexivity | lia]|].
  destruct (sync_sets_nearest_frames env st 0 [0; 10; 20; 30] 2 20
              eq_refl eq_refl eq_refl ltac:(lia) eq_refl eq_refl Hne
              eq_refl eq_refl eq_refl eq_refl Hord) as [[st' [Hr [_ [_ Hp]]]] Hw].
  split; [|apply (Hw 1 10); [lia | lia | reflexivity]].
  exists st'. split; [exact Hr|].
  unfold env, st in Hr. vm_compute in Hr. injection Hr as <-.
  repeat split; reflexivity.
Defined.

(** Once [target] is an integer, the next non-active plot raises. *)
Lemma sync_loop_int_error (env : SyncEnv) (a : nat) (x : Z) :
  active_plot env = Z.of_nat a ->
  forall m s st,
  (s + m <= List.length (datetimes env))%nat ->
  (exists q, (s <= q < s + m)%nat /\ q <> a) ->
  sync_loop env (seq s m) (VInt x) st = Err TypeError.
Proof.
  intros Ha. induction m as [|m IH]; intros s st Hsm [q [Hq Hqa]]; [lia|].
  cbn [seq sync_loop].
  destruct (Nat.eq_dec s a) as [->|Esa].
  - rewrite Ha, Z.eqb_refl. apply IH; [lia|]. exists q. split; [lia | exact Hqa].
  - replace (Z.of_nat s =? active_plot env) with false
      by (rewrite Ha; symmetry; apply Z.eqb_neq; lia).
    destruct (nth_error (datetimes env) s) as [ts|] eqn:Ets;
      [|apply nth_error_None in Ets; lia].
    rewrite (py_index_nat _ _ _ Ets). reflexivity.
Qed.

(** While [target] is still a time, the loop raises [TypeError] when a
    non-active running-difference plot is followed by a non-active plot. *)
Lemma sync_loop_datetime_error (env : SyncEnv) (a : nat) (t : Z) :
  active_plot env = Z.of_nat a ->
  (forall p ts, nth_error (datetimes env) p = Some ts -> ts <> []) ->
  List.length (running_difference_offsets env) = List.length (datetimes env) ->
  List.length (num_frames env) = List.length (datetimes env) ->
  forall m s st,
  (s + m <= List.length (datetimes env))%nat ->
  (exists p q off, (s <= p)%nat /\ (p < q < s + m)%nat /\ p <> a /\ q <> a /\
     nth_error (running_difference_offsets env) p = Some off /\ off <> 0) ->
  sync_loop env (seq s m) (VDatetime t) st = Err TypeError.
Proof.
  intros Ha Hne Lo Ln. induction m as [|m IH];
    intros s st Hsm [p [q [off [Hp [Hpq [Hpa [Hqa [Ho Hoff]]]]]]]]; [lia|].
  cbn [seq sync_loop].
  destruct (Nat.eq_dec s a) as [->|Esa].
  - rewrite Ha, Z.eqb_refl. apply IH; [lia|].
    exists p, q, off. repeat split; auto; lia.
  - replace (Z.of_nat s =? active_plot env) with false
      by (rewrite Ha; symmetry; apply Z.eqb_neq; lia).
    destruct (nth_error (datetimes env) s) as [ts|] eqn:Ets;
      [|apply nth_error_None in Ets; lia].
    rewrite (py_index_nat _ _ _ Ets). cbv beta iota delta [bind]. cbn [abs_time_diff].
    destruct (argmin_nonempty (map (fun d => Z.abs (d - t)) ts)) as [k Ek].
    { destruct ts; [elim (Hne _ _ Ets); reflexivity | discriminate]. }
    rewrite Ek.
    destruct (nth_error (running_difference_offsets env) s) as [o|] eqn:Eo;
      [|apply nth_error_None in Eo; lia].
    rewrite (py_index_nat _ _ _ Eo).
    destruct (o =? 0) eqn:Eoz; cbn [negb].
    + apply Z.eqb_eq in Eoz. subst o.
      assert (p <> s) by (intros ->; congruence).
      apply IH; [lia|]. exists p, q, off. repeat split; auto; lia.
    + destruct (nth_error (num_frames env) s) as [nf|] eqn:En;
        [|apply nth_error_None in En; lia].
      rewrite (py_index_nat _ _ _ En). cbv beta iota delta [bind].
      apply (sync_loop_int_error env a _ Ha); [lia|]. exists q. split; [lia | exact Hqa].
Qed.

(** Conversely, a [TypeError] of the loop comes from such a pair. *)
Lemma sync_loop_error_pair (env : SyncEnv) (a : nat) :
  active_plot env = Z.of_nat a ->
  (forall p ts, nth_error (datetimes env) p = Some ts -> ts <> []) ->
  List.length (running_difference_offsets env) = List.length (datetimes env) ->
  List.length (num_frames env) = List.length (datetimes env) ->
  forall m s tgt st,
  (s + m <= List.length (datetimes env))%nat ->
  sync_loop env (seq s m) tgt st = Err TypeError ->
  match tgt with
  | VDatetime _ =>
      exists p q off, (s <= p)%nat /\ (p < q < s + m)%nat /\ p <> a /\ q <> a /\
        nth_error (running_difference_offsets env) p = Some off /\ off <> 0
  | VInt _ => exists q, (s <= q < s + m)%nat /\ q <> a
  end.
Proof.
  intros Ha Hne Lo Ln. induction m as [|m IH]; intros s tgt st Hsm Herr;
    [simpl in Herr; discriminate|].
  cbn [seq sync_loop] in Herr.
  destruct (Nat.eq_dec s a) as [->|Esa].
  - rewrite Ha, Z.eqb_refl in Herr.
    specialize (IH (S a) tgt st ltac:(lia) Herr).
    destruct tgt as [t|x].
    + destruct IH as [p [q [off [Hp [Hpq H]]]]]. exists p, q, off. split; [lia|]. split; [lia|].
      exact H.
    + destruct IH as [q [Hq Hqa]]. exists q. split; [lia | exact Hqa].
  - replace (Z.of_nat s =? active_plot env) with false in Herr
      by (rewrite Ha; symmetry; apply Z.eqb_neq; lia).
    destruct (nth_error (datetimes env) s) as [ts|] eqn:Ets;
      [|apply nth_error_None in Ets; lia].
    rewrite (py_index_nat _ _ _ Ets) in Herr. cbv beta iota delta [bind] in Herr.
    destruct tgt as [t|x]; [|exists s; split; [lia | exact Esa]].
    cbn [abs_time_diff] in Herr.
    destruct (argmin_nonempty (map (fun d => Z.abs (d - t)) ts)) as [k Ek].
    { destruct ts; [elim (Hne _ _ Ets); reflexivity | discriminate]. }
    rewrite Ek in Herr.
    destruct (nth_error (running_difference_offsets env) s) as [o|] eqn:Eo;
      [|apply nth_error_None in Eo; lia].
    rewrite (py_index_nat _ _ _ Eo) in Herr.
    destruct (o =? 0) eqn:Eoz; cbn [negb] in Herr.
    + destruct (IH (S s) _ _ ltac:(lia) Herr) as [p [q [off [Hp [Hpq H]]]]].
      exists p, q, off. split; [lia|]. split; [lia|]. exact H.
    + apply Z.eqb_neq in Eoz.
      destruct (nth_error (num_frames env) s) as [nf|] eqn:En;
        [|apply nth_error_None in En; lia].
      rewrite (py_index_nat _ _ _ En) in Herr. cbv beta iota delta [bind] in Herr.
      destruct (IH (S s) _ _ ltac:(lia) Herr) as [q [Hq Hqa]].
      exists s, q, o. repeat split; auto; lia.
Qed.

(** Extra: with synchronisation on and an event from the active plot [a]
    for its recorded frame (every plot having timestamps, offsets and frame
    counts), [on_frame_change] raises [TypeError] exactly when some
    non-active plot in running-difference mode is followed, in plot order,
    by another non-active plot: the reassigned [target] is then an integer
    subtracted from that plot's timestamps. *)
Theorem sync_type_error_iff (env : SyncEnv) (st : SyncState) (a : nat)
    (tsa : list Z) (frame t : Z) :
  sync_plots env = true -> active_plot env = Z.of_nat a ->
  nth_error (datetimes env) a = Some tsa ->
  0 <= frame -> nth_error tsa (Z.to_nat frame) = Some t ->
  nth_error (frames st) a = Some frame ->
  (forall p ts, nth_error (datetimes env) p = Some ts -> ts <> []) ->
  List.length (running_difference_offsets env) = List.length (datetimes env) ->
  List.length (num_frames env) = List.length (datetimes env) ->
  on_frame_change env st frame (Z.of_nat a) = Err TypeError <->
  exists p q off, (p < q < List.length (datetimes env))%nat /\ p <> a /\ q <> a /\
    nth_error (running_difference_offsets env) p = Some off /\ off <> 0.
Proof.
  intros Hs Ha Htsa Hf0 Ht Hfa Hne Lo Ln.
  assert (E : on_frame_change env st frame (Z.of_nat a)
              = sync_loop env (seq 0 (List.length (datetimes env))) (VDatetime t) st).
  { unfold on_frame_change. rewrite Hs, Ha, Z.eqb_refl. cbn [negb].
    rewrite (py_index_nat _ _ _ Htsa). cbv beta iota delta [bind].
    rewrite (py_index_Z _ _ _ Hf0 Ht), (py_index_nat _ _ _ Hfa), Z.eqb_refl.
    reflexivity. }
  rewrite E. split.
  - intros Herr.
    destruct (sync_loop_error_pair env a Ha Hne Lo Ln (List.length (datetimes env)) 0
                (VDatetime t) st ltac:(lia) Herr)
      as [p [q [off [_ [Hpq H]]]]].
    exists p, q, off. split; [lia | exact H].
  - intros [p [q [off [Hpq H]]]].
    apply (sync_loop_datetime_error env a t Ha Hne Lo Ln); [lia|].
    exists p, q, off. split; [lia|]. split; [lia | exact H].
Qed.

Lemma sync_type_error_iff_witness :
  let env := mkSyncEnv true 0 [[0; 10; 20; 30]; [0; 7; 22]; [0; 7; 22]] [0; 1; 0] [4; 3; 3] in
  let st := mkSyncState [2; 0; 0] [-1; -1; -1] in
  (forall p ts, nth_error (datetimes env) p = Some ts -> ts <> []) /\
  on_frame_change env st 2 (Z.of_nat 0) = Err TypeError.
Proof.
  intros env st.
  assert (Hne : forall p ts, nth_error (datetimes env) p = Some ts -> ts <> []).
  { intros [|[|[|p]]] ts H; simpl in H; try (injection H as <-; discriminate).
    destruct p; discriminate. }
  split; [exact Hne|].
  apply (sync_type_error_iff env st 0 [0; 10; 20; 30] 2 20
           eq_refl eq_refl eq_refl ltac:(lia) eq_refl eq_refl Hne eq_refl eq_refl).
  exists 1%nat, 2%nat, 1. split; [simpl; lia|]. repeat split; discriminate.
Defined.

End SyncFacts.

Section UpdateFacts.
Import MapSequence.
Open Scope Z_scope.

Lemma get_map_data_index (c : MapSequencePlotContainer) (k : Z) (d : pixels) :
  get_map_data c k = Ok d -> exists m, py_index (map_sequence c) k = Ok m.
Proof. unfold get_map_data, bind. destruct (py_index _ _) as [m|]; [eauto|discriminate]. Qed.

Lemma get_map_data_same (c c' : MapSequencePlotContainer) (k : Z) :
  map_sequence c' = map_sequence c -> modifier c' = modifier c ->
  get_map_data c' k = get_map_data c k.
Proof. intros H1 H2. unfold get_map_data. rewrite H1, H2. reflexivity. Qed.

(** Extra: a successful [update_to_frame c i] is followed by a second call
    with the same index that also succeeds and reaches a fixed point: a
    third call changes nothing. The second call keeps the frame and data
    and, with the "default" colormap, takes the colormap of the frame now
    displayed; with an explicit colormap the first result is already the
    fixed point. *)
Theorem update_to_frame_settles (fc : string -> option Z -> option Z -> pixels -> Z)
    (c c1 : MapSequencePlotContainer) (i : Z) :
  update_to_frame fc c i = Ok c1 ->
  exists c2 m,
    update_to_frame fc c1 i = Ok c2 /\ update_to_frame fc c2 i = Ok c2 /\
    current_frame_index c2 = current_frame_index c1 /\ im_data (im c2) = im_data (im c1) /\
    py_index (map_sequence c) (current_frame_index c1) = Ok m /\
    (cb_cmap (colorbar_state c) = "default"%string -> im_cmap (im c2) = cmap m) /\
    (cb_cmap (colorbar_state c) <> "default"%string -> c2 = c1).
Proof.
  intros H. unfold update_to_frame in H. unfold num_frames in H.
  destruct (get_map_data c (np_clip i 0 (Z.of_nat (List.length (map_sequence c)) - 1)))
    as [d|] eqn:Ed; [|discriminate].
  cbv beta iota delta [bind] in H.
  destruct (get_map_data_index _ _ _ Ed) as [mf Hmf].
  destruct (String.eqb (cb_cmap (colorbar_state c)) "default") eqn:Ecm.
  - apply String.eqb_eq in Ecm.
    destruct (py_index (map_sequence c) (current_frame_index c)) as [m0|] eqn:Em0;
      [|discriminate].
    injection H as <-.
    eexists _, mf. split; [|split; [|split; [|split; [|split; [|split]]]]].
    + unfold update_to_frame, num_frames. cbn [map_sequence colorbar_state current_frame_index modifier].
      rewrite (get_map_data_same c) by reflexivity. rewrite Ed. cbv beta iota delta [bind].
      rewrite Ecm, String.eqb_refl, Hmf. reflexivity.
    + unfold update_to_frame, num_frames. cbn [map_sequence colorbar_state current_frame_index modifier].
      rewrite (get_map_data_same c) by reflexivity. rewrite Ed. cbv beta iota delta [bind].
      rewrite Ecm, String.eqb_refl, Hmf. reflexivity.
    + reflexivity.
    + reflexivity.
    + exact Hmf.
    + intros _. reflexivity.
    + intros Hc. contradiction.
  - injection H as <-.
    eexists _, mf. split; [|split; [|split; [|split; [|split; [|split]]]]].
    + unfold update_to_frame, num_frames. cbn [map_sequence colorbar_state current_frame_index modifier].
      rewrite (get_map_data_same c) by reflexivity. rewrite Ed. cbv beta iota delta [bind].
      rewrite Ecm. reflexivity.
    + unfold update_to_frame, num_frames. cbn [map_sequence colorbar_state current_frame_index modifier].
      rewrite (get_map_data_same c) by reflexivity. rewrite Ed. cbv beta iota delta [bind].
      rewrite Ecm. reflexivity.
    + reflexivity.
    + reflexivity.
    + exact Hmf.
    + intros Hc. rewrite Hc in Ecm. discriminate.
    + intros _. reflexivity.
Qed.

Lemma update_to_frame_settles_witness :
  exists c1 c2,
    update_to_frame (fun _ _ _ _ => 0) two_cmap_view 1 = Ok c1 /\
    update_to_frame (fun _ _ _ _ => 0) c1 1 = Ok c2 /\
    update_to_frame (fun _ _ _ _ => 0) c2 1 = Ok c2 /\
    im_cmap (im c2) = "viridis"%string.
Proof.
  set (c1 := match update_to_frame (fun _ _ _ _ => 0) two_cmap_view 1 with
             | Ok x => x | Err _ => two_cmap_view end).
  assert (H1 : update_to_frame (fun _ _ _ _ => 0) two_cmap_view 1 = Ok c1) by reflexivity.
  destruct (update_to_frame_settles _ _ _ _ H1) as [c2 [m [H2 [H3 [_ [_ [Hm [Hd _]]]]]]]].
  exists c1, c2. split; [exact H1|]. split; [exact H2|]. split; [exact H3|].
  rewrite (Hd eq_refl). vm_compute in Hm. injection Hm as <-. reflexivity.
Defined.

Lemma py_index_nil {A : Type} (k : Z) : py_index (@nil A) k = Err IndexError.
Proof.
  unfold py_index. simpl. destruct (k <? 0) eqn:E.
  - rewrite Z.add_0_r, E. reflexivity.
  - rewrite E. destruct (Z.to_nat k); reflexivity.
Qed.

(** Extra: [update_to_frame] on an empty sequence raises [IndexError] for
    every index: the index is clipped to [-1], which the empty sequence
    does not have. *)
Theorem update_to_frame_empty (fc : string -> option Z -> option Z -> pixels -> Z)
    (c : MapSequencePlotContainer) (i : Z) :
  map_sequence c = [] -> update_to_frame fc c i = Err IndexError.
Proof.
  intros H. unfold update_to_frame, get_map_data. rewrite H, py_index_nil. reflexivity.
Qed.

Lemma update_to_frame_empty_witness :
  let c := {| map_sequence := []; colorbar_state := mkColorbarState "default" None None;
              current_frame_index := 0; modifier := Difference.new;
              im := mkImage [] "gray" (None, None); facecolor := 0 |} in
  map_sequence c = [] /\ update_to_frame (fun _ _ _ _ => 0) c 5 = Err IndexError.
Proof.
  intros c. split; [reflexivity|]. apply update_to_frame_empty. reflexivity.
Defined.

End UpdateFacts.

Section OverlayFacts.
Import MapSequence Overlay.
Open Scope Z_scope.

Variables Coord MapCoord Pixel : Type.
Variable transform_to : Map -> list Coord -> list MapCoord.
Variable world_to_pixel : Map -> list MapCoord -> list Pixel.

Lemma py_index_none {A : Type} (xs : list A) (i : nat) :
  nth_error xs i = None -> py_index xs (Z.of_nat i) = Err IndexError.
Proof.
  intros H. unfold py_index.
  replace (Z.of_nat i <? 0) with false by (symmetry; apply Z.ltb_ge; lia).
  replace (Z.of_nat i <? 0) with false by (symmetry; apply Z.ltb_ge; lia).
  rewrite Nat2Z.id, H. reflexivity.
Qed.

Lemma draw_all_empty (m : Map) (cs : list (list MapCoord)) :
  forall segs idx, (forall j s, nth_error segs j = Some s -> segment_is_empty s = true) ->
  coords_in_map_frame transform_to m segs = [] /\ line_segments_from world_to_pixel m cs segs idx = Ok [].
Proof.
  induction segs as [|s r IH]; intros idx H; [split; reflexivity|].
  assert (Hs : segment_is_empty s = true) by (apply (H 0%nat); reflexivity).
  destruct (IH (S idx)) as [H1 H2]; [intros j s' Hj; apply (H (S j)); exact Hj|].
  destruct s as [[|x xs]|]; simpl in Hs |- *; try discriminate; split; assumption.
Qed.

Lemma draw_aligned (m : Map) :
  forall segs (pre : list (list MapCoord)),
  (forall i j si sj, (i < j)%nat -> nth_error segs i = Some si -> segment_is_empty si = true ->
     nth_error segs j = Some sj -> segment_is_empty sj = false -> False) ->
  line_segments_from world_to_pixel m (pre ++ coords_in_map_frame transform_to m segs) segs (List.length pre)
    = Ok (map (world_to_pixel m) (coords_in_map_frame transform_to m segs)).
Proof.
  induction segs as [|s r IH]; intros pre H; simpl; [reflexivity|].
  destruct s as [[|x xs]|]; simpl.
  1,3: destruct (draw_all_empty m (pre ++ coords_in_map_frame transform_to m r) r (S (List.length pre))) as [H1 H2];
    [intros j s' Hj; destruct (segment_is_empty s') eqn:E; [reflexivity|];
     exfalso; apply (H 0%nat (S j) _ s' ltac:(lia) eq_refl eq_refl Hj E)|];
    rewrite H1 in *; rewrite ?app_nil_r in *; exact H2.
  - rewrite (py_index_nat _ _ (transform_to m (x :: xs))).
    2: { rewrite nth_error_app2, Nat.sub_diag by lia. reflexivity. }
    cbv beta iota delta [bind].
    replace (pre ++ transform_to m (x :: xs) :: coords_in_map_frame transform_to m r)
      with ((pre ++ [transform_to m (x :: xs)]) ++ coords_in_map_frame transform_to m r)
      by (rewrite <- app_assoc; reflexivity).
    replace (S (List.length pre)) with (List.length (pre ++ [transform_to m (x :: xs)]))
      by (rewrite length_app; simpl; lia).
    rewrite IH; [reflexivity|].
    intros i j si sj Hij Hi Ei Hj Ej. apply (H (S i) (S j) si sj); auto; lia.
Qed.

Lemma coords_nonempty (m : Map) :
  forall segs j sj, nth_error segs j = Some sj -> segment_is_empty sj = false ->
  (0 < List.length (coords_in_map_frame transform_to m segs))%nat.
Proof.
  induction segs as [|s r IH]; intros j sj Hj Ej; [destruct j; discriminate|].
  destruct s as [[|x xs]|]; simpl; try lia;
    (destruct j as [|j]; [simpl in Hj; injection Hj as <-; discriminate|];
     exact (IH j sj Hj Ej)).
Qed.

Lemma draw_drift_error (m : Map) (cs : list (list MapCoord)) :
  forall segs idx, (0 < List.length (coords_in_map_frame transform_to m segs))%nat ->
  (List.length cs < idx + List.length (coords_in_map_frame transform_to m segs))%nat ->
  line_segments_from world_to_pixel m cs segs idx = Err IndexError.
Proof.
  induction segs as [|s r IH]; intros idx Hpos Hlt; simpl in *; [lia|].
  destruct s as [[|x xs]|]; simpl in *; try (apply IH; lia).
  destruct (nth_error cs idx) as [c|] eqn:Ec.
  - rewrite (py_index_nat _ _ _ Ec). cbv beta iota delta [bind].
    pose proof (nth_error_lt _ _ _ Ec).
    rewrite IH by lia. reflexivity.
  - rewrite (py_index_none _ _ Ec). reflexivity.
Qed.

Lemma draw_misaligned_error (m : Map) (cs : list (list MapCoord)) :
  forall segs idx,
  (exists i j si sj, (i < j)%nat /\ nth_error segs i = Some si /\ segment_is_empty si = true /\
     nth_error segs j = Some sj /\ segment_is_empty sj = false) ->
  (List.length cs <= idx + List.length (coords_in_map_frame transform_to m segs))%nat ->
  line_segments_from world_to_pixel m cs segs idx = Err IndexError.
Proof.
  induction segs as [|s r IH]; intros idx [i [j [si [sj [Hij [Hi [Ei [Hj Ej]]]]]]]] Hle;
    [destruct i; discriminate|].
  destruct j as [|j]; [lia|]. simpl in Hj.
  destruct s as [[|x xs]|] eqn:Es; simpl in Hle |- *.
  1,3: destruct i as [|i];
    [apply draw_drift_error;
       [exact (coords_nonempty m r j sj Hj Ej) | pose proof (coords_nonempty m r j sj Hj Ej); lia]
    |apply IH; [exists i, j, si, sj; repeat split; auto; lia | lia]].
  - destruct i as [|i]; [simpl in Hi; injection Hi as <-; discriminate|].
    destruct (nth_error cs idx) as [c|] eqn:Ec.
    + rewrite (py_index_nat _ _ _ Ec). cbv beta iota delta [bind].
      rewrite IH; [reflexivity| |lia]. exists i, j, si, sj. repeat split; auto; lia.
    + rewrite (py_index_none _ _ Ec). reflexivity.
Qed.

(** Extra: [update_curve_overlay_plot] reads [coords_in_map_frame[idx]]
    with the index [idx] among all segments, while that list only holds the
    non-empty ones. When no empty ([None] or zero-length) segment precedes a
    non-empty one, every non-empty segment is drawn from its own
    coordinates, in order; otherwise the call raises [IndexError]. *)
Theorem curve_overlay_indexing (c : MapSequencePlotContainer)
    (segs : list (option (list Coord))) (m : Map) :
  py_index (map_sequence c) (current_frame_index c) = Ok m ->
  ((forall i j si sj, (i < j)%nat -> nth_error segs i = Some si -> segment_is_empty si = true ->
      nth_error segs j = Some sj -> segment_is_empty sj = false -> False) ->
   update_curve_overlay_plot transform_to world_to_pixel c segs
     = Ok (map (world_to_pixel m) (coords_in_map_frame transform_to m segs))) /\
  ((exists i j si sj, (i < j)%nat /\ nth_error segs i = Some si /\ segment_is_empty si = true /\
      nth_error segs j = Some sj /\ segment_is_empty sj = false) ->
   update_curve_overlay_plot transform_to world_to_pixel c segs = Err IndexError).
Proof.
  intros Hm. unfold update_curve_overlay_plot. rewrite Hm. cbv beta iota delta [bind].
  split.
  - intros H. exact (draw_aligned m segs [] H).
  - intros H. apply draw_misaligned_error; [exact H | lia].
Qed.

End OverlayFacts.

Section OverlayWitness.
Open Scope Z_scope.

Lemma curve_overlay_indexing_witness :
  let c := MapSequence.mkContainer [mkMap [1] "gray"]
             (MapSequence.mkColorbarState "default" None None) 0 Difference.new
             (MapSequence.mkImage [] "gray" (None, None)) 0 in
  Overlay.update_curve_overlay_plot (fun _ (l : list Z) => l) (fun _ (l : list Z) => l) c
    [Some [1]; Some [2]; None] = Ok [[1]; [2]] /\
  Overlay.update_curve_overlay_plot (fun _ (l : list Z) => l) (fun _ (l : list Z) => l) c
    [Some [1]; None; Some [2]] = Err IndexError.
Proof.
  intros c.
  destruct (curve_overlay_indexing Z Z Z (fun _ l => l) (fun _ l => l) c
              [Some [1]; Some [2]; None] (mkMap [1] "gray") eq_refl) as [Hok _].
  destruct (curve_overlay_indexing Z Z Z (fun _ l => l) (fun _ l => l) c
              [Some [1]; None; Some [2]] (mkMap [1] "gray") eq_refl) as [_ Herr].
  split.
  - apply Hok. intros [|[|[|i]]] [|[|[|j]]] si sj Hij Hi Ei Hj Ej; simpl in *;
      try lia; try discriminate;
      try (injection Hi as <-; discriminate); try (injection Hj as <-; discriminate);
      destruct j; discriminate.
  - apply Herr. exists 1%nat, 2%nat, None, (Some [2]). repeat split; lia.
Defined.

End OverlayWitness.

Section PointOverlayFacts.
Import MapSequence PointOverlay.
Open Scope R_scope.

Variables Coord MapCoord Pixel : Type.
Variable cartesian_norm : Coord -> R.
Variable transform_to : Map -> Coord -> MapCoord.
Variable observer_distance : Map -> MapCoord -> R.
Variable world_to_pixel : Map -> MapCoord -> Pixel.

Definition dist_le (p q : MapCoord * R) : Prop := snd p <= snd q.

Lemma insert_by_dist_perm (p : MapCoord * R) (l : list (MapCoord * R)) :
  Permutation (insert_by_dist p l) (p :: l).
Proof.
  induction l as [|q r IH]; simpl; [reflexivity|].
  destruct (Rle_dec (snd p) (snd q)); [reflexivity|].
  rewrite IH. apply perm_swap.
Qed.

Lemma argsort_by_dist_perm (l : list (MapCoord * R)) : Permutation (argsort_by_dist l) l.
Proof.
  induction l as [|p r IH]; simpl; [reflexivity|].
  rewrite insert_by_dist_perm, IH. reflexivity.
Qed.

Lemma insert_by_dist_hd (p q : MapCoord * R) (l : list (MapCoord * R)) :
  HdRel dist_le q l -> dist_le q p -> HdRel dist_le q (insert_by_dist p l).
Proof.
  intros H Hqp. destruct l as [|q' r]; simpl; [constructor; exact Hqp|].
  destruct (Rle_dec (snd p) (snd q')); constructor; [exact Hqp|].
  inversion H; assumption.
Qed.

Lemma insert_by_dist_sorted (p : MapCoord * R) (l : list (MapCoord * R)) :
  Sorted dist_le l -> Sorted dist_le (insert_by_dist p l).
Proof.
  induction l as [|q r IH]; intros H; simpl.
  - constructor; constructor.
  - destruct (Rle_dec (snd p) (snd q)) as [Hle|Hgt].
    + constructor; [exact H | constructor; exact Hle].
    + apply Sorted_inv in H as [Hr Hq]. constructor; [apply IH, Hr|].
      apply insert_by_dist_hd; [exact Hq | unfold dist_le; lra].
Qed.

Lemma argsort_by_dist_sorted (l : list (MapCoord * R)) : Sorted dist_le (argsort_by_dist l).
Proof.
  induction l as [|p r IH]; simpl; [constructor|]. apply insert_by_dist_sorted, IH.
Qed.

Lemma strongly_sorted_snoc {A : Type} (S : A -> A -> Prop) (l : list A) (a : A) :
  StronglySorted S l -> (forall x, In x l -> S x a) -> StronglySorted S (l ++ [a]).
Proof.
  induction l as [|x l IH]; intros H Ha; simpl.
  - constructor; [constructor | constructor].
  - apply StronglySorted_inv in H as [Hl Hx]. constructor.
    + apply IH; [exact Hl | intros y Hy; apply Ha; right; exact Hy].
    + apply Forall_app. split; [exact Hx|]. constructor; [apply Ha; left; reflexivity|].
      constructor.
Qed.

Lemma sorted_rev_dist (l : list (MapCoord * R)) :
  Sorted dist_le l -> Sorted (fun p q => snd q <= snd p) (rev l).
Proof.
  intros H. apply StronglySorted_Sorted.
  apply Sorted_StronglySorted in H; [|intros x y z; unfold dist_le; lra].
  induction H as [|a l Hl IH Ha]; simpl; [constructor|].
  apply strongly_sorted_snoc; [exact IH|].
  intros x Hx. apply in_rev in Hx. rewrite Forall_forall in Ha. apply Ha, Hx.
Qed.

Lemma sorted_map_in {A B : Type} (Ra : A -> A -> Prop) (Rb : B -> B -> Prop) (f : A -> B)
    (l : list A) :
  (forall a b, In a l -> In b l -> Ra a b -> Rb (f a) (f b)) ->
  Sorted Ra l -> Sorted Rb (map f l).
Proof.
  induction l as [|a l IH]; intros Hf H; simpl; [constructor|].
  apply Sorted_inv in H as [Hl Ha]. constructor.
  - apply IH; [intros x y Hx Hy; apply Hf; right; assumption | exact Hl].
  - destruct l as [|b l]; simpl; constructor.
    apply Hf; [left; reflexivity | right; left; reflexivity |]. inversion Ha; assumption.
Qed.

Lemma fold_min_bound (ds : list R) :
  forall a, fold_left Rmin ds a <= a /\ (forall y, In y ds -> fold_left Rmin ds a <= y).
Proof.
  induction ds as [|d ds IH]; intros a; simpl; [split; [lra | tauto]|].
  destruct (IH (Rmin a d)) as [H1 H2].
  pose proof (Rmin_l a d). pose proof (Rmin_r a d).
  split; [lra|]. intros y [<-|Hy]; [lra | apply H2, Hy].
Qed.

Lemma fold_max_bound (ds : list R) :
  forall a, a <= fold_left Rmax ds a /\ (forall y, In y ds -> y <= fold_left Rmax ds a).
Proof.
  induction ds as [|d ds IH]; intros a; simpl; [split; [lra | tauto]|].
  destruct (IH (Rmax a d)) as [H1 H2].
  pose proof (Rmax_l a d). pose proof (Rmax_r a d).
  split; [lra|]. intros y [<-|Hy]; [lra | apply H2, Hy].
Qed.

Lemma normalize_range (vmin vmax x : R) :
  vmin <= x <= vmax -> 0 <= normalize vmin vmax x <= 1.
Proof.
  intros Hx. unfold normalize. destruct (Req_EM_T vmin vmax); [lra|].
  assert (Hk : 0 < vmax - vmin) by lra. unfold Rdiv. split.
  - apply Rmult_le_pos; [lra | apply Rlt_le, Rinv_0_lt_compat, Hk].
  - apply Rmult_le_reg_r with (vmax - vmin); [exact Hk|].
    rewrite Rmult_assoc, Rinv_l by lra. lra.
Qed.

Lemma normalize_mono (vmin vmax x y : R) :
  vmin <= vmax -> x <= y -> normalize vmin vmax x <= normalize vmin vmax y.
Proof.
  intros Hm Hxy. unfold normalize. destruct (Req_EM_T vmin vmax); [lra|].
  unfold Rdiv. apply Rmult_le_compat_r; [apply Rlt_le, Rinv_0_lt_compat; lra | lra].
Qed.

Lemma combine_map_self {A B : Type} (f : A -> B) (l : list A) :
  combine l (map f l) = map (fun y => (y, f y)) l.
Proof. induction l as [|a l IH]; simpl; [reflexivity|]. rewrite IH. reflexivity. Qed.

(** Extra: [update_point_overlay_plot], given a current frame that exists
    and at least one point at distance [>= R_sun] from the Sun's centre,
    draws exactly those points, each paired with its distance to the
    observer, ordered from the farthest to the nearest (so nearer points are
    drawn on top). The alphas lie in [[0.1, 1]] and the sizes in [[2, 8]],
    one per drawn point, and both are non-decreasing along the drawing
    order: a nearer point is never fainter or smaller than a farther one.
    When every point is inside the Sun the offsets are cleared. *)
Theorem point_overlay_depth_styling (c : MapSequencePlotContainer) (m : Map)
    (coords : list Coord) :
  py_index (map_sequence c) (current_frame_index c) = Ok m ->
  ((exists x, In x coords /\ Widget.R_sun <= cartesian_norm x) ->
   exists ps als szs,
     update_point_overlay_plot cartesian_norm transform_to observer_distance world_to_pixel
       c (Some coords) = Ok (Drawn (map (fun p => world_to_pixel m (fst p)) ps) als szs) /\
     Permutation ps (map (fun y => (y, observer_distance m y))
                         (map (transform_to m) (filter (outside_sun cartesian_norm) coords))) /\
     Sorted (fun p q => snd q <= snd p) ps /\
     Sorted Rle als /\ Sorted Rle szs /\
     Forall (fun a => 1/10 <= a <= 1) als /\ Forall (fun s => 2 <= s <= 8) szs /\
     List.length als = List.length ps /\ List.length szs = List.length ps) /\
  ((forall x, In x coords -> cartesian_norm x < Widget.R_sun) ->
   update_point_overlay_plot cartesian_norm transform_to observer_distance world_to_pixel
     c (Some coords) = Ok ClearedOffsets).
Proof.
  intros Hm. split.
  - intros (x & Hx & Hsun).
    assert (Hf : In x (filter (outside_sun cartesian_norm) coords)).
    { apply filter_In. split; [exact Hx|]. unfold outside_sun.
      destruct (Rle_dec Widget.R_sun (cartesian_norm x)); [reflexivity | lra]. }
    unfold update_point_overlay_plot.
    destruct coords as [|x0 xs]; [destruct Hx|].
    rewrite Hm. cbv beta iota delta [bind].
    destruct (filter (outside_sun cartesian_norm) (x0 :: xs)) as [|k0 ks] eqn:Ef;
      [destruct Hf|].
    set (kept := k0 :: ks).
    set (cm := map (transform_to m) kept).
    set (ps := rev (argsort_by_dist (combine cm (map (observer_distance m) cm)))).
    assert (Hperm : Permutation ps (map (fun y => (y, observer_distance m y)) cm)).
    { unfold ps. rewrite <- Permutation_rev, argsort_by_dist_perm, combine_map_self.
      reflexivity. }
    assert (Hsorted : Sorted (fun p q => snd q <= snd p) ps).
    { unfold ps. apply sorted_rev_dist, argsort_by_dist_sorted. }
    destruct (map snd ps) as [|d0 ds] eqn:Ed.
    { exfalso. apply Permutation_length in Hperm. destruct ps; [|discriminate].
      unfold cm, kept in Hperm. simpl in Hperm. discriminate. }
    set (vmin := fold_left Rmin ds d0). set (vmax := fold_left Rmax ds d0).
    assert (Hb : forall y, In y (map snd ps) -> vmin <= y <= vmax).
    { rewrite Ed. intros y Hy.
      destruct (fold_min_bound ds d0) as [Hn1 Hn2]. destruct (fold_max_bound ds d0) as [Hx1 Hx2].
      fold vmin in Hn1, Hn2. fold vmax in Hx1, Hx2.
      destruct Hy as [<-|Hy]; [lra | split; [apply Hn2 | apply Hx2]; exact Hy]. }
    assert (Hn : forall y, In y (map (normalize vmin vmax) (d0 :: ds)) -> 0 <= y <= 1).
    { intros y Hy. apply in_map_iff in Hy as (z & <- & Hz).
      apply normalize_range, Hb. rewrite Ed. exact Hz. }
    assert (Hmono : forall a b, In a ps -> In b ps -> snd b <= snd a ->
              normalize vmin vmax (snd b) <= normalize vmin vmax (snd a)).
    { intros a b Ha Hb' Hab. apply normalize_mono; [|exact Hab].
      assert (In d0 (map snd ps)) by (rewrite Ed; left; reflexivity).
      specialize (Hb d0 H). lra. }
    exists ps. eexists. eexists. split; [reflexivity|].
    split; [exact Hperm|]. split; [exact Hsorted|].
    rewrite <- Ed, !map_map.
    split; [|split; [|split; [|split; [|split]]]].
    + apply (sorted_map_in (fun p q => snd q <= snd p)); [|exact Hsorted].
      intros a b Ha Hb' Hab. pose proof (Hmono a b Ha Hb' Hab).
      unfold Rmax. destruct (Rle_dec (1/10) (1 - normalize vmin vmax (snd a)));
        destruct (Rle_dec (1/10) (1 - normalize vmin vmax (snd b))); lra.
    + apply (sorted_map_in (fun p q => snd q <= snd p)); [|exact Hsorted].
      intros a b Ha Hb' Hab. pose proof (Hmono a b Ha Hb' Hab). lra.
    + apply Forall_forall. intros a Ha. apply in_map_iff in Ha as (p & <- & Hp).
      assert (Hr : 0 <= normalize vmin vmax (snd p) <= 1).
      { apply Hn. rewrite <- Ed, map_map. apply in_map_iff. exists p. split; [reflexivity | exact Hp]. }
      unfold Rmax. destruct (Rle_dec (1/10) (1 - normalize vmin vmax (snd p))); lra.
    + apply Forall_forall. intros a Ha. apply in_map_iff in Ha as (p & <- & Hp).
      assert (Hr : 0 <= normalize vmin vmax (snd p) <= 1).
      { apply Hn. rewrite <- Ed, map_map. apply in_map_iff. exists p. split; [reflexivity | exact Hp]. }
      lra.
    + apply length_map.
    + apply length_map.
  - intros Hin. unfold update_point_overlay_plot.
    destruct coords as [|x0 xs]; [reflexivity|].
    rewrite Hm. cbv beta iota delta [bind].
    replace (filter (outside_sun cartesian_norm) (x0 :: xs)) with (@nil Coord); [reflexivity|].
    induction (x0 :: xs) as [|y ys IH]; [reflexivity|].
    simpl. unfold outside_sun at 1.
    destruct (Rle_dec Widget.R_sun (cartesian_norm y)) as [Hle|_].
    + specialize (Hin y (or_introl eq_refl)). lra.
    + apply IH. intros z Hz. apply Hin. right. exact Hz.
Qed.

End PointOverlayFacts.

Lemma point_overlay_depth_styling_witness :
  let c := MapSequence.mkContainer [mkMap [1%Z] "gray"]
             (MapSequence.mkColorbarState "default" None None) 0 Difference.new
             (MapSequence.mkImage [] "gray" (None, None)) 0 in
  (exists ps als szs,
     PointOverlay.update_point_overlay_plot (fun x : R => x) (fun _ x => x) (fun _ x => x)
       (fun _ x => x) c (Some [0; Widget.R_sun; 2 * Widget.R_sun]) =
       Ok (PointOverlay.Drawn (map fst ps) als szs) /\
     Sorted (fun p q => snd q <= snd p) ps /\ Sorted Rle als /\ Sorted Rle szs) /\
  PointOverlay.update_point_overlay_plot (fun x : R => x) (fun _ x => x) (fun _ x => x)
    (fun _ x => x) c (Some [0; 1]) = Ok PointOverlay.ClearedOffsets.
Proof.
  intros c. unfold Widget.R_sun.
  destruct (point_overlay_depth_styling R R R (fun x => x) (fun _ x => x) (fun _ x => x)
              (fun _ x => x) c (mkMap [1%Z] "gray") [0; 695700000; 2 * 695700000] eq_refl)
    as [Hdraw _].
  destruct (point_overlay_depth_styling R R R (fun x => x) (fun _ x => x) (fun _ x => x)
              (fun _ x => x) c (mkMap [1%Z] "gray") [0; 1] eq_refl) as [_ Hclear].
  split.
  - destruct Hdraw as (ps & als & szs & Hu & _ & Hs & Ha & Hz & _).
    + exists 695700000. split; [right; left; reflexivity | unfold Widget.R_sun; lra].
    + exists ps, als, szs. repeat split; assumption.
  - apply Hclear. intros x [<-|[<-|[]]]; unfold Widget.R_sun; lra.
Defined.

Section OverlaysFacts.
Import MapSequence Overlays.
Open Scope R_scope.

Variables Coord MapCoord Pixel : Type.
Variable cartesian_norm : Coord -> R.
Variable point_transform_to : Map -> Coord -> MapCoord.
Variable observer_distance : Map -> MapCoord -> R.
Variable point_world_to_pixel : Map -> MapCoord -> Pixel.
Variable segment_transform_to : Map -> list Coord -> list MapCoord.
Variable segment_world_to_pixel : Map -> list MapCoord -> list Pixel.

Lemma assoc_get_in {V : Type} (k : string) (l : list (string * V)) :
  assoc_get k l <> None <-> In k (map fst l).
Proof.
  induction l as [|[k' v] r IH]; simpl; [tauto|].
  destruct (String.eqb_spec k k') as [->|Hne]; [split; [auto | discriminate]|].
  rewrite IH. split; [auto | intros [->|H]; [congruence | exact H]].
Qed.

Lemma assoc_get_set_same {V : Type} (k : string) (v : V) (l : list (string * V)) :
  assoc_get k (assoc_set k v l) = Some v.
Proof.
  induction l as [|[k' v'] r IH]; simpl; [rewrite String.eqb_refl; reflexivity|].
  destruct (String.eqb_spec k k') as [->|Hne]; simpl.
  - rewrite String.eqb_refl. reflexivity.
  - apply String.eqb_neq in Hne. rewrite Hne. exact IH.
Qed.

Lemma assoc_get_set_other {V : Type} (k n : string) (v : V) (l : list (string * V)) :
  k <> n -> assoc_get k (assoc_set n v l) = assoc_get k l.
Proof.
  intros Hkn. apply String.eqb_neq in Hkn as Hb.
  induction l as [|[k' v'] r IH]; simpl; [rewrite Hb; reflexivity|].
  destruct (String.eqb_spec n k') as [->|Hne]; simpl; [rewrite Hb; reflexivity|].
  rewrite IH. reflexivity.
Qed.

Lemma assoc_set_keys {V : Type} (k n : string) (v : V) (l : list (string * V)) :
  In k (map fst (assoc_set n v l)) <-> k = n \/ In k (map fst l).
Proof.
  induction l as [|[k' v'] r IH]; simpl; [intuition congruence|].
  destruct (String.eqb_spec n k') as [->|Hne]; simpl; [intuition congruence|].
  rewrite IH. intuition congruence.
Qed.

Lemma ensure_keys {V : Type} (k n : string) (e : V) (l : list (string * V)) :
  In k (map fst (ensure_plot_exists n e l)) <-> k = n \/ In k (map fst l).
Proof.
  unfold ensure_plot_exists. destruct (assoc_get n l) as [v|] eqn:E.
  - assert (Hn : In n (map fst l)) by (apply assoc_get_in; congruence).
    split; [auto | intros [->|H]; assumption].
  - rewrite map_app, in_app_iff. simpl. intuition congruence.
Qed.

Lemma assoc_get_ensure_other {V : Type} (k n : string) (e : V) (l : list (string * V)) :
  k <> n -> assoc_get k (ensure_plot_exists n e l) = assoc_get k l.
Proof.
  intros Hkn. unfold ensure_plot_exists. destruct (assoc_get n l); [reflexivity|].
  induction l as [|[k' v'] r IH]; simpl.
  - apply String.eqb_neq in Hkn. rewrite Hkn. reflexivity.
  - destruct (String.eqb k k'); [reflexivity | exact IH].
Qed.

Lemma clear_keys {V : Type} (k n : string) (e : V) (l : list (string * V)) :
  In k (map fst (match assoc_get n l with Some _ => assoc_set n e l | None => l end))
  <-> In k (map fst l).
Proof.
  destruct (assoc_get n l) eqn:E; [|reflexivity].
  rewrite assoc_set_keys. assert (Hn : In n (map fst l)) by (apply assoc_get_in; congruence).
  split; [intros [->|Hk]; assumption | auto].
Qed.

Lemma update_plots_ok {X V : Type} (draw : X -> result V) (e : V) :
  forall ovs reg,
  (exists reg', update_plots draw e ovs reg = Ok reg') <->
  (forall n x, In (n, Some x) ovs -> exists v, draw x = Ok v).
Proof.
  induction ovs as [|[n [x|]] rest IH]; intros reg; simpl.
  - split; [tauto | eauto].
  - destruct (draw x) as [v|err] eqn:Ed; cbv beta iota delta [bind].
    + rewrite IH. split.
      * intros H n' x' [Heq|Hin]; [injection Heq as -> ->; eauto | eauto].
      * intros H n' x' Hin. eauto.
    + split; [intros [reg' H]; discriminate|].
      intros H. destruct (H n x (or_introl eq_refl)) as [v Hv]. congruence.
  - rewrite IH. split.
    + intros H n' x' [Heq|Hin]; [discriminate | eauto].
    + intros H n' x' Hin. eauto.
Qed.

Lemma update_plots_keys {X V : Type} (draw : X -> result V) (e : V) :
  forall ovs reg reg', update_plots draw e ovs reg = Ok reg' ->
  forall k, In k (map fst reg') <-> In k (map fst reg) \/ exists x, In (k, Some x) ovs.
Proof.
  induction ovs as [|[n [x|]] rest IH]; intros reg reg' H k; simpl in H.
  - injection H as <-. split; [auto | intros [H|[x H]]; [exact H | destruct H]].
  - destruct (draw x) as [v|err]; cbv beta iota delta [bind] in H; [|discriminate].
    rewrite (IH _ _ H k), assoc_set_keys, ensure_keys. split.
    + intros [[->|[->|Hk]]|[x' Hx]].
      * right. exists x. left. reflexivity.
      * right. exists x. left. reflexivity.
      * left. exact Hk.
      * right. exists x'. right. exact Hx.
    + intros [Hk|[x' [Heq|Hx]]]; [auto | injection Heq as -> _; auto | eauto].
  - rewrite (IH _ _ H k), clear_keys. split.
    + intros [Hk|[x' Hx]]; [auto | right; exists x'; right; exact Hx].
    + intros [Hk|[x' [Heq|Hx]]]; [auto | discriminate | eauto].
Qed.

Lemma update_plots_frame {X V : Type} (draw : X -> result V) (e : V) :
  forall ovs reg reg' k, update_plots draw e ovs reg = Ok reg' -> ~ In k (map fst ovs) ->
  assoc_get k reg' = assoc_get k reg.
Proof.
  induction ovs as [|[n [x|]] rest IH]; intros reg reg' k H Hk; simpl in H, Hk.
  - injection H as <-. reflexivity.
  - destruct (draw x) as [v|err]; cbv beta iota delta [bind] in H; [|discriminate].
    rewrite (IH _ _ k H) by tauto.
    rewrite assoc_get_set_other, assoc_get_ensure_other by (intros ->; tauto). reflexivity.
  - rewrite (IH _ _ k H) by tauto.
    destruct (assoc_get n reg); [|reflexivity].
    apply assoc_get_set_other. intros ->; tauto.
Qed.

Lemma update_plots_values {X V : Type} (draw : X -> result V) (e : V) :
  forall ovs reg reg', NoDup (map fst ovs) -> update_plots draw e ovs reg = Ok reg' ->
  (forall n x, In (n, Some x) ovs -> exists v, draw x = Ok v /\ assoc_get n reg' = Some v) /\
  (forall n, In (n, None) ovs -> assoc_get n reg' = option_map (fun _ => e) (assoc_get n reg)).
Proof.
  induction ovs as [|[n0 [x0|]] rest IH]; intros reg reg' Hnd H; simpl in H;
    [split; intros; contradiction|..];
    simpl in Hnd; apply NoDup_cons_iff in Hnd as [Hn0 Hnd].
  - destruct (draw x0) as [v0|err] eqn:Ed; cbv beta iota delta [bind] in H; [|discriminate].
    destruct (IH _ _ Hnd H) as [IH1 IH2]. split.
    + intros n x [Heq|Hin]; [|exact (IH1 n x Hin)].
      injection Heq as <- <-. exists v0. split; [exact Ed|].
      rewrite (update_plots_frame draw e _ _ _ _ H Hn0). apply assoc_get_set_same.
    + intros n [Heq|Hin]; [discriminate|].
      assert (Hne : n <> n0) by (intros ->; apply Hn0, in_map_iff; exists (n0, None); auto).
      rewrite (IH2 n Hin), assoc_get_set_other, assoc_get_ensure_other by exact Hne.
      reflexivity.
  - destruct (IH _ _ Hnd H) as [IH1 IH2]. split.
    + intros n x [Heq|Hin]; [discriminate | exact (IH1 n x Hin)].
    + intros n [Heq|Hin].
      * injection Heq as <-. rewrite (update_plots_frame draw e _ _ _ _ H Hn0).
        destruct (assoc_get n0 reg) eqn:E; [apply assoc_get_set_same | exact E].
      * assert (Hne : n <> n0) by (intros ->; apply Hn0, in_map_iff; exists (n0, None); auto).
        rewrite (IH2 n Hin). destruct (assoc_get n0 reg); [|reflexivity].
        rewrite assoc_get_set_other by exact Hne. reflexivity.
Qed.

Lemma remove_stale_keys {V W : Type} (reg : list (string * V)) (ovs : list (string * W)) k :
  In k (map fst (remove_stale reg ovs)) <-> In k (map fst reg) /\ In k (map fst ovs).
Proof.
  unfold remove_stale. induction reg as [|[k' v] r IH]; simpl; [tauto|].
  destruct (in_dec String.string_dec k' (map fst ovs)); simpl; rewrite IH;
    intuition (subst; tauto).
Qed.

Lemma remove_stale_get {V W : Type} (reg : list (string * V)) (ovs : list (string * W)) k :
  In k (map fst ovs) -> assoc_get k (remove_stale reg ovs) = assoc_get k reg.
Proof.
  intros Hk. unfold remove_stale. induction reg as [|[k' v] r IH]; simpl; [reflexivity|].
  destruct (in_dec String.string_dec k' (map fst ovs)); simpl;
    destruct (String.eqb_spec k k') as [->|Hne]; try reflexivity; try exact IH; contradiction.
Qed.

Lemma point_overlay_ok (c : MapSequencePlotContainer) (m : Map) (p : list Coord) :
  py_index (map_sequence c) (current_frame_index c) = Ok m ->
  exists v, PointOverlay.update_point_overlay_plot cartesian_norm point_transform_to
              observer_distance point_world_to_pixel c (Some p) = Ok v.
Proof.
  intros Hm. unfold PointOverlay.update_point_overlay_plot.
  destruct p as [|x0 xs]; [eexists; reflexivity|].
  rewrite Hm. cbv beta iota delta [bind].
  destruct (filter (PointOverlay.outside_sun cartesian_norm) (x0 :: xs)) as [|k0 ks];
    [eexists; reflexivity|].
  match goal with |- context [map snd ?l] => destruct (map snd l) eqn:Ed end;
    [|eexists; reflexivity].
  exfalso. apply map_eq_nil in Ed. apply (f_equal (@List.length _)) in Ed.
  rewrite length_rev, (Permutation_length (argsort_by_dist_perm _ _)), length_combine,
    length_map in Ed.
  simpl in Ed. lia.
Qed.

Lemma update_overlays_ok_iff (c : MapSequencePlotContainer) (st : OverlayRegistry Pixel)
    (points : list (string * option (list Coord)))
    (curves : list (string * option (list (option (list Coord))))) :
  (exists st', update_overlays cartesian_norm point_transform_to observer_distance
                 point_world_to_pixel segment_transform_to segment_world_to_pixel
                 c st points curves = Ok st') <->
  (forall n p, In (n, Some p) points ->
     exists v, PointOverlay.update_point_overlay_plot cartesian_norm point_transform_to
                 observer_distance point_world_to_pixel c (Some p) = Ok v) /\
  (forall n segs, In (n, Some segs) curves ->
     exists v, Overlay.update_curve_overlay_plot segment_transform_to segment_world_to_pixel
                 c segs = Ok v).
Proof.
  unfold update_overlays.
  rewrite <- (update_plots_ok _ PointOverlay.ClearedOffsets points (remove_stale (point_overlays st) points)).
  rewrite <- (update_plots_ok _ [] curves (remove_stale (curve_overlays st) curves)).
  destruct (update_plots _ _ points _) as [ps|err];
    destruct (update_plots _ _ curves _) as [cs|err'];
    cbv beta iota delta [bind]; split;
    try (intros [st' H]; discriminate); eauto;
    intros [[x Hx] [y Hy]]; discriminate.
Qed.

(** Extra: when the current frame exists, [update_overlays] succeeds
    exactly when no curve overlay it is given has an empty segment before a
    non-empty one: point overlays never raise, and a curve overlay raises
    [IndexError] through the misindexing of [update_curve_overlay_plot]. *)
Theorem update_overlays_succeeds (c : MapSequencePlotContainer) (m : Map)
    (st : OverlayRegistry Pixel) (points : list (string * option (list Coord)))
    (curves : list (string * option (list (option (list Coord))))) :
  py_index (map_sequence c) (current_frame_index c) = Ok m ->
  (exists st', update_overlays cartesian_norm point_transform_to observer_distance
                 point_world_to_pixel segment_transform_to segment_world_to_pixel
                 c st points curves = Ok st') <->
  (forall n segs, In (n, Some segs) curves ->
     ~ exists i j si sj, (i < j)%nat /\ nth_error segs i = Some si /\
         Overlay.segment_is_empty si = true /\ nth_error segs j = Some sj /\
         Overlay.segment_is_empty sj = false).
Proof.
  intros Hm. rewrite update_overlays_ok_iff. split.
  - intros [_ Hc] n segs Hin Hmis. destruct (Hc n segs Hin) as [v Hv].
    unfold Overlay.update_curve_overlay_plot in Hv. rewrite Hm in Hv.
    cbv beta iota delta [bind] in Hv.
    rewrite (draw_misaligned_error _ _ _ segment_transform_to segment_world_to_pixel m _ segs 0 Hmis)
      in Hv by lia.
    discriminate.
  - intros Hc. split.
    + intros n p _. exact (point_overlay_ok c m p Hm).
    + intros n segs Hin. unfold Overlay.update_curve_overlay_plot. rewrite Hm.
      cbv beta iota delta [bind].
      eexists. apply (draw_aligned _ _ _ segment_transform_to segment_world_to_pixel m segs []).
      intros i j si sj Hij Hi Ei Hj Ej. apply (Hc n segs Hin).
      exists i, j, si, sj. auto.
Qed.

Lemma update_plots_ax_created {X V : Type} (draw : X -> result V) (empty : V)
    (overlays : list (string * option X)) (registry : list (string * V)) :
  update_plots_ax true draw empty overlays registry = update_plots draw empty overlays registry.
Proof.
  revert registry.
  induction overlays as [|[n [x|]] rest IH]; intros registry; simpl; [reflexivity | | apply IH].
  unfold ensure_plot_exists_ax, ensure_plot_exists.
  destruct (assoc_get n registry); cbv beta iota delta [bind];
    destruct (draw x); try reflexivity; apply IH.
Qed.

(** [update_overlays] is the method on a created plot. *)
Lemma update_overlays_method_created (c : MapSequencePlotContainer)
    (st : OverlayRegistry Pixel) (points : list (string * option (list Coord)))
    (curves : list (string * option (list (option (list Coord))))) :
  update_overlays_method cartesian_norm point_transform_to observer_distance
    point_world_to_pixel segment_transform_to segment_world_to_pixel true c st points curves =
  update_overlays cartesian_norm point_transform_to observer_distance
    point_world_to_pixel segment_transform_to segment_world_to_pixel c st points curves.
Proof.
  unfold update_overlays_method, update_overlays. rewrite !update_plots_ax_created.
  destruct (update_plots _ _ points _); cbv beta iota delta [bind]; [|reflexivity].
  destruct (update_plots _ _ curves _); reflexivity.
Qed.



(** Extra: after a successful [update_overlays] (with the names of each
    dict distinct, as dict keys are), each registry of artists holds
    exactly the names it held that are still given, plus the names given
    with data; a name given with data shows what its [update_*_overlay_plot]
    computed, and a name given as [None] is emptied if it had an artist and
    stays absent otherwise. *)
Theorem update_overlays_registry (c : MapSequencePlotContainer)
    (st st' : OverlayRegistry Pixel) (points : list (string * option (list Coord)))
    (curves : list (string * option (list (option (list Coord))))) :
  NoDup (map fst points) -> NoDup (map fst curves) ->
  update_overlays cartesian_norm point_transform_to observer_distance
    point_world_to_pixel segment_transform_to segment_world_to_pixel
    c st points curves = Ok st' ->
  (forall k, In k (map fst (point_overlays st')) <->
     (In k (map fst (point_overlays st)) /\ In k (map fst points)) \/
     exists p, In (k, Some p) points) /\
  (forall n p, In (n, Some p) points ->
     exists v, PointOverlay.update_point_overlay_plot cartesian_norm point_transform_to
                 observer_distance point_world_to_pixel c (Some p) = Ok v /\
               assoc_get n (point_overlays st') = Some v) /\
  (forall n, In (n, None) points ->
     assoc_get n (point_overlays st') =
       option_map (fun _ => PointOverlay.ClearedOffsets) (assoc_get n (point_overlays st))) /\
  (forall k, In k (map fst (curve_overlays st')) <->
     (In k (map fst (curve_overlays st)) /\ In k (map fst curves)) \/
     exists segs, In (k, Some segs) curves) /\
  (forall n segs, In (n, Some segs) curves ->
     exists v, Overlay.update_curve_overlay_plot segment_transform_to segment_world_to_pixel
                 c segs = Ok v /\
               assoc_get n (curve_overlays st') = Some v) /\
  (forall n, In (n, None) curves ->
     assoc_get n (curve_overlays st') =
       option_map (fun _ => []) (assoc_get n (curve_overlays st))).
Proof.
  intros Hpn Hcn H. unfold update_overlays in H.
  destruct (update_plots _ _ points _) as [ps|err] eqn:Hp; [|discriminate].
  destruct (update_plots _ _ curves _) as [cs|err] eqn:Hc; [|discriminate].
  cbv beta iota delta [bind] in H. injection H as <-. simpl.
  destruct (update_plots_values _ _ _ _ _ Hpn Hp) as [Hp1 Hp2].
  destruct (update_plots_values _ _ _ _ _ Hcn Hc) as [Hc1 Hc2].
  assert (Hin : forall {A : Type} n (o : A) (l : list (string * A)), In (n, o) l -> In n (map fst l))
    by (intros A n o l Hl; apply in_map_iff; exists (n, o); auto).
  split; [|split; [|split; [|split; [|split]]]].
  - intros k. rewrite (update_plots_keys _ _ _ _ _ Hp k), remove_stale_keys. reflexivity.
  - exact Hp1.
  - intros n Hn. rewrite (Hp2 n Hn), remove_stale_get by exact (Hin _ _ _ _ Hn). reflexivity.
  - intros k. rewrite (update_plots_keys _ _ _ _ _ Hc k), remove_stale_keys. reflexivity.
  - exact Hc1.
  - intros n Hn. rewrite (Hc2 n Hn), remove_stale_get by exact (Hin _ _ _ _ Hn). reflexivity.
Qed.

End OverlaysFacts.

Section OverlaysWitness.
Open Scope string_scope.

Lemma update_overlays_succeeds_witness :
  let c := MapSequence.mkContainer [mkMap [1%Z] "gray"]
             (MapSequence.mkColorbarState "default" None None) 0 Difference.new
             (MapSequence.mkImage [] "gray" (None, None)) 0 in
  (exists st', Overlays.update_overlays (fun n : nat => INR n) (fun _ x => x) (fun _ x => INR x)
                 (fun _ x => x) (fun _ l => l) (fun _ l => l) c (Overlays.mkOverlays [] [])
                 [("a", Some [])] [("c", Some [Some [1%nat]; None])] = Ok st') /\
  ~ (exists st', Overlays.update_overlays (fun n : nat => INR n) (fun _ x => x) (fun _ x => INR x)
                   (fun _ x => x) (fun _ l => l) (fun _ l => l) c (Overlays.mkOverlays [] [])
                   [] [("c", Some [None; Some [1%nat]])] = Ok st').
Proof.
  intros c. split.
  - apply (update_overlays_succeeds nat nat nat (fun n => INR n) (fun _ x => x) (fun _ x => INR x)
             (fun _ x => x) (fun _ l => l) (fun _ l => l) c (mkMap [1%Z] "gray")
             (Overlays.mkOverlays [] []) [("a", Some [])] [("c", Some [Some [1%nat]; None])]
             eq_refl).
    intros n segs [Heq|[]]. injection Heq as <- <-.
    intros (i & j & si & sj & Hij & Hi & Ei & Hj & Ej).
    destruct j as [|[|j]]; simpl in Hj; [lia | injection Hj as <-; discriminate |].
    destruct j; discriminate.
  - rewrite (update_overlays_succeeds nat nat nat (fun n => INR n) (fun _ x => x) (fun _ x => INR x)
               (fun _ x => x) (fun _ l => l) (fun _ l => l) c (mkMap [1%Z] "gray")
               (Overlays.mkOverlays [] []) [] [("c", Some [None; Some [1%nat]])] eq_refl).
    intros H. apply (H "c" [None; Some [1%nat]] (or_introl eq_refl)).
    exists 0%nat, 1%nat, None, (Some [1%nat]). repeat split. lia.
Defined.


Lemma update_overlays_registry_witness :
  let c := MapSequence.mkContainer [mkMap [1%Z] "gray"]
             (MapSequence.mkColorbarState "default" None None) 0 Difference.new
             (MapSequence.mkImage [] "gray" (None, None)) 0 in
  let st := Overlays.mkOverlays
              [("old", PointOverlay.ClearedOffsets); ("b", PointOverlay.Drawn [1%nat] [] [])]
              [("k", [[1%nat]])] in
  exists st', Overlays.update_overlays (fun n : nat => INR n) (fun _ x => x) (fun _ x => INR x)
                (fun _ x => x) (fun _ l => l) (fun _ l => l) c st
                [("a", Some []); ("b", None)] [("k", None); ("l", Some [Some [1%nat]])] = Ok st' /\
    Overlays.assoc_get "b" (Overlays.point_overlays st') = Some PointOverlay.ClearedOffsets /\
    Overlays.assoc_get "l" (Overlays.curve_overlays st') = Some [[1%nat]] /\
    ~ In "old" (map fst (Overlays.point_overlays st')).
Proof.
  intros c st.
  destruct (Overlays.update_overlays (fun n : nat => INR n) (fun _ x => x) (fun _ x => INR x)
              (fun _ x => x) (fun _ l => l) (fun _ l => l) c st
              [("a", Some []); ("b", None)] [("k", None); ("l", Some [Some [1%nat]])])
    as [st'|err] eqn:H; [|vm_compute in H; discriminate].
  destruct (update_overlays_registry nat nat nat (fun n => INR n) (fun _ x => x) (fun _ x => INR x)
              (fun _ x => x) (fun _ l => l) (fun _ l => l) c st st'
              [("a", Some []); ("b", None)] [("k", None); ("l", Some [Some [1%nat]])]
              ltac:(constructor; [simpl; intuition discriminate | constructor; [simpl; tauto | constructor]])
              ltac:(constructor; [simpl; intuition discriminate | constructor; [simpl; tauto | constructor]])
              H) as (Hk & _ & Hnone & _ & Hsome & _).
  exists st'. split; [reflexivity|]. split.
  - rewrite (Hnone "b" (or_intror (or_introl eq_refl))). reflexivity.
  - split.
    + destruct (Hsome "l" [Some [1%nat]] (or_intror (or_introl eq_refl))) as (v & Hv & Hg).
      rewrite Hg. vm_compute in Hv. congruence.
    + rewrite Hk. intros [[_ Hin] | [p Hp]]; simpl in *; intuition discriminate.
Defined.

End OverlaysWitness.

Section ComparisonFacts.
Import Comparison.

Variables Key Value Ty : Type.
Variable key_eq_dec : forall a b : Key, {a = b} + {a <> b}.
Variable ty_eq_dec : forall a b : Ty, {a = b} + {a <> b}.
Variable type_of : Value -> Ty.
Variable py_ne : Value -> Value -> bool.

Lemma lookup_in {V : Type} (d : list (Key * V)) (k : Key) (v : V) :
  NoDup (map fst d) -> lookup key_eq_dec d k = Some v <-> In (k, v) d.
Proof.
  induction d as [|[k' v'] r IH]; intros Hnd; simpl; [split; [discriminate | tauto]|].
  simpl in Hnd. apply NoDup_cons_iff in Hnd as [Hk' Hnd].
  destruct (key_eq_dec k k') as [->|Hne].
  - split; [intros [= <-]; left; reflexivity|].
    intros [[= <-]|Hin]; [reflexivity|].
    exfalso. apply Hk', in_map_iff. exists (k', v). auto.
  - rewrite IH by exact Hnd. split; [auto|]. intros [[= -> _]|Hin]; [congruence | exact Hin].
Qed.

Lemma lookup_of_key {V : Type} (d : list (Key * V)) (k : Key) :
  In k (map fst d) -> exists v, lookup key_eq_dec d k = Some v.
Proof.
  induction d as [|[k' v'] r IH]; simpl; [tauto|].
  destruct (key_eq_dec k k'); [eauto|]. intros [->|Hin]; [congruence | exact (IH Hin)].
Qed.

Lemma keys_equal_spec (d1 d2 : list (Key * Value)) :
  NoDup (map fst d1) -> NoDup (map fst d2) ->
  keys_equal key_eq_dec d1 d2 = true <-> (forall k, In k (map fst d1) <-> In k (map fst d2)).
Proof.
  intros H1 H2. unfold keys_equal. rewrite andb_true_iff, Nat.eqb_eq, forallb_forall.
  split.
  - intros [Hlen Hsub].
    assert (Hincl : incl (map fst d1) (map fst d2)).
    { intros k Hk. specialize (Hsub k Hk). destruct (in_dec key_eq_dec k (map fst d2));
        [assumption | discriminate]. }
    assert (Hback : incl (map fst d2) (map fst d1)).
    { apply NoDup_length_incl; [exact H1 | rewrite !length_map; lia | exact Hincl]. }
    intros k. split; [apply Hincl | apply Hback].
  - intros Hk. split.
    + rewrite <- (length_map fst d1), <- (length_map fst d2).
      apply Nat.le_antisymm; apply NoDup_incl_length; try assumption; intros k; apply Hk.
    + intros k Hin. destruct (in_dec key_eq_dec k (map fst d2)) as [|Hn]; [reflexivity|].
      exfalso. apply Hn, Hk, Hin.
Qed.

Lemma compare_entries_spec (cmps : list (Ty * (Value -> Value -> option bool)))
    (d2 : list (Key * Value)) :
  forall d1, (forall k, In k (map fst d1) -> In k (map fst d2)) ->
  compare_entries key_eq_dec ty_eq_dec type_of py_ne cmps d1 d2 = Some true <->
  (forall k v1 v2, In (k, v1) d1 -> lookup key_eq_dec d2 k = Some v2 ->
     match lookup ty_eq_dec cmps (type_of v1) with
     | Some f => f v1 v2 = Some true
     | None => py_ne v1 v2 = false
     end).
Proof.
  induction d1 as [|[k v1] rest IH]; intros Hsub; simpl; [split; [tauto | reflexivity]|].
  destruct (lookup_of_key d2 k (Hsub k (or_introl eq_refl))) as [v2 Hv2]. rewrite Hv2.
  assert (Hrest : forall k', In k' (map fst rest) -> In k' (map fst d2))
    by (intros k' Hk'; apply Hsub; right; exact Hk').
  destruct (lookup ty_eq_dec cmps (type_of v1)) as [f|] eqn:Ef.
  - destruct (f v1 v2) as [[|]|] eqn:Efv.
    + rewrite (IH Hrest). split.
      * intros H k' v1' v2' [[= <- <-]|Hin] Hl; [|exact (H k' v1' v2' Hin Hl)].
        rewrite Ef. rewrite Hv2 in Hl. injection Hl as <-. exact Efv.
      * intros H k' v1' v2' Hin Hl. exact (H k' v1' v2' (or_intror Hin) Hl).
    + split; [discriminate|]. intros H. specialize (H k v1 v2 (or_introl eq_refl) Hv2).
      rewrite Ef in H. congruence.
    + split; [discriminate|]. intros H. specialize (H k v1 v2 (or_introl eq_refl) Hv2).
      rewrite Ef in H. congruence.
  - destruct (py_ne v1 v2) eqn:Ene.
    + split; [discriminate|]. intros H. specialize (H k v1 v2 (or_introl eq_refl) Hv2).
      rewrite Ef in H. congruence.
    + rewrite (IH Hrest). split.
      * intros H k' v1' v2' [[= <- <-]|Hin] Hl; [|exact (H k' v1' v2' Hin Hl)].
        rewrite Ef. rewrite Hv2 in Hl. injection Hl as <-. exact Ene.
      * intros H k' v1' v2' Hin Hl. exact (H k' v1' v2' (or_intror Hin) Hl).
Qed.

(** Extra: on two dicts (distinct keys), [dicts_equal] returns [False] when
    the key sets differ, and returns [True] exactly when the key sets agree
    and every pair of values [d1[k]], [d2[k]] is accepted: by the comparator
    registered for [type(d1[k])] if there is one, by [!=] being false
    otherwise. *)
Theorem dicts_equal_spec (d1 d2 : list (Key * Value))
    (comparators : option (list (Ty * (Value -> Value -> option bool)))) :
  NoDup (map fst d1) -> NoDup (map fst d2) ->
  (~ (forall k, In k (map fst d1) <-> In k (map fst d2)) ->
   dicts_equal key_eq_dec ty_eq_dec type_of py_ne d1 d2 comparators = Some false) /\
  (dicts_equal key_eq_dec ty_eq_dec type_of py_ne d1 d2 comparators = Some true <->
   (forall k, In k (map fst d1) <-> In k (map fst d2)) /\
   (forall k v1 v2, In (k, v1) d1 -> In (k, v2) d2 ->
      match lookup ty_eq_dec (match comparators with Some c => c | None => [] end) (type_of v1) with
      | Some f => f v1 v2 = Some true
      | None => py_ne v1 v2 = false
      end)).
Proof.
  intros H1 H2. unfold dicts_equal. split.
  - intros Hk. destruct (keys_equal key_eq_dec d1 d2) eqn:E; [|reflexivity].
    exfalso. apply Hk, keys_equal_spec; assumption.
  - destruct (keys_equal key_eq_dec d1 d2) eqn:E; simpl.
    + pose proof (proj1 (keys_equal_spec d1 d2 H1 H2) E) as Hk.
      rewrite compare_entries_spec by (intros k; apply Hk).
      split.
      * intros H. split; [exact Hk|]. intros k v1 v2 Hin1 Hin2.
        apply (H k v1 v2 Hin1), lookup_in; assumption.
      * intros [_ H] k v1 v2 Hin1 Hl. apply (H k v1 v2 Hin1), lookup_in; assumption.
    + split; [discriminate|]. intros [Hk _].
      apply (keys_equal_spec d1 d2 H1 H2) in Hk. congruence.
Qed.

End ComparisonFacts.

Section ComparisonWitness.
Import Comparison.
Open Scope string_scope.

Lemma dicts_equal_spec_witness :
  dicts_equal string_dec py_type_eq_dec Comparison.type_of Comparison.py_ne
    [("a", PyStr "x"); ("b", PyInt 2)] [("b", PyInt 2); ("a", PyStr "x")]
    redo_query_comparators = Some true /\
  dicts_equal string_dec py_type_eq_dec Comparison.type_of Comparison.py_ne
    [("a", PyInt 1)] [("b", PyInt 1)] redo_query_comparators = Some false.
Proof.
  split.
  - apply (dicts_equal_spec string py_value py_type string_dec py_type_eq_dec
             Comparison.type_of Comparison.py_ne
             [("a", PyStr "x"); ("b", PyInt 2)] [("b", PyInt 2); ("a", PyStr "x")]
             redo_query_comparators
             ltac:(constructor; [simpl; intuition discriminate | constructor; [simpl; tauto | constructor]])
             ltac:(constructor; [simpl; intuition discriminate | constructor; [simpl; tauto | constructor]])).
    split.
    + intros k. simpl. intuition congruence.
    + intros k v1 v2 Hin1 Hin2.
      destruct Hin1 as [E1|[E1|[]]]; destruct Hin2 as [E2|[E2|[]]];
        inversion E1; subst; inversion E2; subst; reflexivity.
  - apply (dicts_equal_spec string py_value py_type string_dec py_type_eq_dec
             Comparison.type_of Comparison.py_ne [("a", PyInt 1)] [("b", PyInt 1)]
             redo_query_comparators
             ltac:(constructor; [simpl; tauto | constructor])
             ltac:(constructor; [simpl; tauto | constructor])).
    intros H. destruct (proj1 (H "a") (or_introl eq_refl)) as [E|[]]. discriminate E.
Defined.

End ComparisonWitness.

Section ComparisonAsymmetry.
Import Comparison.
Open Scope R_scope.

(** Extra: with the comparators of [_redo_query] ([float: math.isclose]),
    [dicts_equal] is not symmetric: the comparator is chosen by the type of
    the first dict's value only. An int and a different but close float
    under the same key compare unequal with the int first ([!=]) and equal
    with the float first ([isclose]). *)
Theorem dicts_equal_asymmetric (k : string) (i : Z) (x : R) :
  IZR i <> x ->
  Rabs (x - IZR i) <= / 1000000000 * Rmax (Rabs x) (Rabs (IZR i)) ->
  dicts_equal string_dec py_type_eq_dec Comparison.type_of Comparison.py_ne
    [(k, PyInt i)] [(k, PyFloat x)] redo_query_comparators = Some false /\
  dicts_equal string_dec py_type_eq_dec Comparison.type_of Comparison.py_ne
    [(k, PyFloat x)] [(k, PyInt i)] redo_query_comparators = Some true.
Proof.
  intros Hne Hclose. unfold dicts_equal, keys_equal, redo_query_comparators. simpl.
  destruct (string_dec k k) as [_|Hk]; [|contradiction]. simpl.
  split.
  - unfold Comparison.py_ne. simpl. destruct (Req_EM_T (IZR i) x); [contradiction | reflexivity].
  - unfold isclose. simpl.
    destruct (Rle_dec (Rabs (x - IZR i)) (Rmax (/ 1000000000 * Rmax (Rabs x) (Rabs (IZR i))) 0))
      as [_|Hn]; [reflexivity|].
    exfalso. apply Hn. eapply Rle_trans; [exact Hclose | apply Rmax_l].
Qed.

Lemma dicts_equal_asymmetric_witness :
  IZR 1 <> 1 + / 1073741824 /\
  Rabs (1 + / 1073741824 - IZR 1) <= / 1000000000 * Rmax (Rabs (1 + / 1073741824)) (Rabs (IZR 1)) /\
  dicts_equal string_dec py_type_eq_dec Comparison.type_of Comparison.py_ne
    [("cadence"%string, PyInt 1)] [("cadence"%string, PyFloat (1 + / 1073741824))]
    redo_query_comparators = Some false /\
  dicts_equal string_dec py_type_eq_dec Comparison.type_of Comparison.py_ne
    [("cadence"%string, PyFloat (1 + / 1073741824))] [("cadence"%string, PyInt 1)]
    redo_query_comparators = Some true.
Proof.
  assert (He : 0 < / 1073741824) by (apply Rinv_0_lt_compat; lra).
  assert (Hne : IZR 1 <> 1 + / 1073741824) by (simpl; lra).
  assert (Hclose : Rabs (1 + / 1073741824 - IZR 1) <=
                   / 1000000000 * Rmax (Rabs (1 + / 1073741824)) (Rabs (IZR 1))).
  { simpl. rewrite (Rabs_right (1 + / 1073741824 - 1)) by lra.
    rewrite (Rabs_right (1 + / 1073741824)) by lra. rewrite Rabs_R1.
    rewrite Rmax_left by lra. lra. }
  split; [exact Hne|]. split; [exact Hclose|].
  exact (dicts_equal_asymmetric "cadence" 1 (1 + / 1073741824) Hne Hclose).
Defined.

End ComparisonAsymmetry.

Section DataSourcesFacts.
Import DataSources.

Variable Time : Type.
Variable parse_time : json -> option Time.
Variable time_le : Time -> Time -> bool.

Lemma lookup_dict_set {K V : Type} (dec : forall a b : K, {a = b} + {a <> b})
    (d : list (K * V)) (k k' : K) (v : V) :
  Comparison.lookup dec (dict_set dec d k v) k' =
    if dec k' k then Some v else Comparison.lookup dec d k'.
Proof.
  induction d as [|[k0 v0] r IH]; simpl.
  - reflexivity.
  - destruct (dec k k0) as [->|Hne]; simpl.
    + destruct (dec k' k0); reflexivity.
    + rewrite IH. destruct (dec k' k0); destruct (dec k' k); try reflexivity; congruence.
Qed.

Lemma dict_set_keys {K V : Type} (dec : forall a b : K, {a = b} + {a <> b})
    (d : list (K * V)) (k k' : K) (v : V) :
  In k' (map fst (dict_set dec d k v)) <-> k' = k \/ In k' (map fst d).
Proof.
  induction d as [|[k0 v0] r IH]; simpl; [intuition congruence|].
  destruct (dec k k0) as [->|Hne]; simpl; [intuition congruence|].
  rewrite IH. intuition congruence.
Qed.

Lemma dict_set_nodup {K V : Type} (dec : forall a b : K, {a = b} + {a <> b})
    (d : list (K * V)) (k : K) (v : V) :
  NoDup (map fst d) -> NoDup (map fst (dict_set dec d k v)).
Proof.
  induction d as [|[k0 v0] r IH]; simpl; intros H.
  - constructor; [tauto | constructor].
  - apply NoDup_cons_iff in H as [Hk0 Hr].
    destruct (dec k k0) as [->|Hne]; simpl; constructor; auto.
    rewrite dict_set_keys. intuition congruence.
Qed.

Lemma get_or_empty_dict_set {K V : Type} (dec : forall a b : K, {a = b} + {a <> b})
    (d : list (K * list V)) (k k' : K) (v : list V) :
  get_or_empty dec (dict_set dec d k v) k' = if dec k' k then v else get_or_empty dec d k'.
Proof. unfold get_or_empty. rewrite lookup_dict_set. destruct (dec k' k); reflexivity. Qed.

Lemma get_store (t : tree Time) (o : string) (i d : option string) (n : string)
    (m : Measurement Time) o' i' d' n' :
  get_measurement (store t o i d n m) o' i' d' n' =
    if string_dec o' o then
      if option_string_dec i' i then
        if option_string_dec d' d then
          if string_dec n' n then Some m else get_measurement t o' i' d' n'
        else get_measurement t o' i' d' n'
      else get_measurement t o' i' d' n'
    else get_measurement t o' i' d' n'.
Proof.
  unfold get_measurement, store. rewrite !get_or_empty_dict_set.
  destruct (string_dec o' o) as [->|]; [|reflexivity].
  rewrite !get_or_empty_dict_set.
  destruct (option_string_dec i' i) as [->|]; [|reflexivity].
  rewrite !get_or_empty_dict_set.
  destruct (option_string_dec d' d) as [->|]; [|reflexivity].
  rewrite lookup_dict_set. reflexivity.
Qed.

Lemma get_or_empty_append_absent {K V : Type} (dec : forall a b : K, {a = b} + {a <> b})
    (d : list (K * list V)) (k k' : K) :
  Comparison.lookup dec d k = None ->
  get_or_empty dec (d ++ [(k, [])]) k' = get_or_empty dec d k'.
Proof.
  unfold get_or_empty. intros H.
  induction d as [|[k0 v0] r IH]; simpl in H |- *.
  - destruct (dec k' k); reflexivity.
  - destruct (dec k k0); [discriminate|]. destruct (dec k' k0); [reflexivity|]. apply IH, H.
Qed.

Lemma get_setdefault (t : tree Time) (o : string) o' i' d' n' :
  get_measurement (setdefault_observatory t o) o' i' d' n' = get_measurement t o' i' d' n'.
Proof.
  unfold setdefault_observatory. destruct (Comparison.lookup string_dec t o) eqn:E; [reflexivity|].
  unfold get_measurement. rewrite (get_or_empty_append_absent _ t o o' E). reflexivity.
Qed.

Lemma get_empty o' i' d' n' : get_measurement (Time := Time) [] o' i' d' n' = None.
Proof. reflexivity. Qed.

Lemma lookup_notin {K V : Type} (dec : forall a b : K, {a = b} + {a <> b})
    (l : list (K * V)) (k : K) :
  ~ In k (map fst l) -> Comparison.lookup dec l k = None.
Proof.
  induction l as [|[k0 v0] r IH]; simpl; intros H; [reflexivity|].
  destruct (dec k k0) as [->|]; [tauto|]. apply IH. tauto.
Qed.

Lemma traverse_cons o i d k v rest (t : tree Time) :
  traverse parse_time (JDict ((k, v) :: rest)) o i d t =
  ds_bind (match leaf_fields v with
           | Some fs =>
               ds_bind (build_measurement parse_time fs o i d k) (fun m => inl (store t o i d k m))
           | None =>
               match i with
               | None => traverse parse_time v o (Some k) None t
               | Some inst =>
                   match d with
                   | None => traverse parse_time v o (Some inst) (Some k) t
                   | Some _ => inr ValueError
                   end
               end
           end) (fun t' => traverse parse_time (JDict rest) o i d t').
Proof. reflexivity. Qed.

Lemma json_wf_cons k v rest :
  json_wf (JDict ((k, v) :: rest)) <->
  ~ In k (map fst rest) /\ json_wf v /\ json_wf (JDict rest).
Proof.
  simpl. rewrite NoDup_cons_iff. tauto.
Qed.

Ltac if_cases :=
  repeat match goal with
  | |- context [if ?c then _ else _] => destruct c; try subst
  end.

Lemma traverse_level3 o a b : forall items (t t' : tree Time),
  NoDup (map fst items) ->
  traverse parse_time (JDict items) o (Some a) (Some b) t = inl t' ->
  forall o' i' d' n', get_measurement t' o' i' d' n' =
    match (if string_dec o' o then node_leaf items (Some a) (Some b) i' d' n' else None) with
    | Some fs =>
        match build_measurement parse_time fs o' i' d' n' with
        | inl m => Some m
        | inr _ => None
        end
    | None => get_measurement t o' i' d' n'
    end.
Proof.
  induction items as [|[k v] rest IH]; intros t t' Hnd H o' i' d' n'.
  - simpl in H. injection H as <-. unfold node_leaf. if_cases; reflexivity.
  - simpl in Hnd. apply NoDup_cons_iff in Hnd as [Hk Hnd].
    rewrite traverse_cons in H. destruct (leaf_fields v) as [fs|] eqn:Hv; [|discriminate].
    destruct (build_measurement parse_time fs o (Some a) (Some b) k) as [m|err] eqn:Hb;
      [|discriminate].
    simpl in H. rewrite (IH _ _ Hnd H), get_store. unfold node_leaf.
    cbn [Comparison.lookup].
    destruct (string_dec o' o) as [->|]; [|reflexivity].
    destruct (option_string_dec i' (Some a)) as [->|]; [|reflexivity].
    destruct (option_string_dec d' (Some b)) as [->|]; [|reflexivity].
    destruct (string_dec n' k) as [->|]; [|reflexivity].
    rewrite (lookup_notin _ rest k Hk). simpl. rewrite Hv, Hb. reflexivity.
Qed.

Lemma traverse_level2 o a : forall items (t t' : tree Time),
  json_wf (JDict items) ->
  traverse parse_time (JDict items) o (Some a) None t = inl t' ->
  forall o' i' d' n', get_measurement t' o' i' d' n' =
    match (if string_dec o' o then node_leaf items (Some a) None i' d' n' else None) with
    | Some fs =>
        match build_measurement parse_time fs o' i' d' n' with
        | inl m => Some m
        | inr _ => None
        end
    | None => get_measurement t o' i' d' n'
    end.
Proof.
  induction items as [|[k v] rest IH]; intros t t' Hwf H o' i' d' n'.
  - simpl in H. injection H as <-. unfold node_leaf.
    destruct (string_dec o' o); [|reflexivity].
    destruct (option_string_dec i' (Some a)); [|reflexivity].
    destruct d'; reflexivity.
  - apply json_wf_cons in Hwf as [Hk [Hv_wf Hwf]].
    rewrite traverse_cons in H. destruct (leaf_fields v) as [fs|] eqn:Hv.
    + destruct (build_measurement parse_time fs o (Some a) None k) as [m|err] eqn:Hb;
        [|discriminate].
      simpl in H. rewrite (IH _ _ Hwf H), get_store. unfold node_leaf.
      cbn [Comparison.lookup].
      destruct (string_dec o' o) as [->|]; [|reflexivity].
      destruct (option_string_dec i' (Some a)) as [->|]; [|reflexivity].
      destruct d' as [b|].
      * destruct (option_string_dec (Some b) None) as [|_]; [discriminate|].
        destruct (string_dec b k) as [->|]; [|reflexivity].
        rewrite (lookup_notin _ rest k Hk). destruct v as [l| | | |]; try discriminate.
        cbn [intermediate]. rewrite Hv. reflexivity.
      * destruct (option_string_dec None None) as [_|]; [|congruence].
        destruct (string_dec n' k) as [->|]; [|reflexivity].
        rewrite (lookup_notin _ rest k Hk). simpl. rewrite Hv, Hb. reflexivity.
    + destruct (traverse parse_time v o (Some a) (Some k) t) as [t1|err] eqn:Ht1;
        [|discriminate].
      simpl in H. destruct v as [l3| | | |]; try discriminate.
      assert (Hl3 : NoDup (map fst l3)) by (destruct Hv_wf; assumption).
      rewrite (IH _ _ Hwf H), (traverse_level3 o a k l3 t t1 Hl3 Ht1). unfold node_leaf.
      cbn [Comparison.lookup].
      destruct (string_dec o' o) as [->|]; [|reflexivity].
      destruct (option_string_dec i' (Some a)) as [->|]; [|reflexivity].
      destruct d' as [b|].
      * destruct (option_string_dec (Some b) (Some k)) as [[= ->]|Hbk].
        -- destruct (string_dec k k) as [_|]; [|congruence].
           rewrite (lookup_notin _ rest k Hk). cbn [intermediate]. rewrite Hv. reflexivity.
        -- destruct (string_dec b k) as [->|]; [congruence|]. reflexivity.
      * destruct (option_string_dec None (Some k)) as [|_]; [discriminate|].
        destruct (string_dec n' k) as [->|]; [|reflexivity].
        rewrite (lookup_notin _ rest k Hk). simpl in Hv |- *. rewrite Hv. reflexivity.
Qed.

Ltac ds_simpl :=
  repeat (first
    [ progress cbn [Comparison.lookup intermediate leaf_at]
    | match goal with
      | |- context [if ?c then _ else _] => destruct c; try subst; try congruence
      end ]).

Lemma traverse_level1 o : forall items (t t' : tree Time),
  json_wf (JDict items) ->
  traverse parse_time (JDict items) o None None t = inl t' ->
  forall o' i' d' n', get_measurement t' o' i' d' n' =
    match (if string_dec o' o then node_leaf items None None i' d' n' else None) with
    | Some fs =>
        match build_measurement parse_time fs o' i' d' n' with
        | inl m => Some m
        | inr _ => None
        end
    | None => get_measurement t o' i' d' n'
    end.
Proof.
  induction items as [|[k v] rest IH]; intros t t' Hwf H o' i' d' n'.
  - simpl in H. injection H as <-. unfold node_leaf.
    destruct (string_dec o' o); [|reflexivity].
    destruct i', d'; ds_simpl; reflexivity.
  - apply json_wf_cons in Hwf as [Hk [Hv_wf Hwf]].
    rewrite traverse_cons in H. destruct (leaf_fields v) as [fs|] eqn:Hv.
    + destruct (build_measurement parse_time fs o None None k) as [m|err] eqn:Hb;
        [|discriminate].
      simpl in H. rewrite (IH _ _ Hwf H), get_store. unfold node_leaf.
      destruct v as [l| | | |]; try discriminate.
      destruct (string_dec o' o) as [->|]; [|reflexivity].
      destruct i' as [a'|], d' as [b'|]; ds_simpl.
      all: rewrite ?(lookup_notin _ rest k Hk); cbn [intermediate leaf_at];
        rewrite ?Hv, ?Hb; reflexivity.
    + destruct (traverse parse_time v o (Some k) None t) as [t1|err] eqn:Ht1;
        [|discriminate].
      simpl in H. destruct v as [l2| | | |]; try discriminate.
      rewrite (IH _ _ Hwf H), (traverse_level2 o k l2 t t1 Hv_wf Ht1). unfold node_leaf.
      destruct (string_dec o' o) as [->|]; [|reflexivity].
      destruct i' as [a'|], d' as [b'|]; ds_simpl.
      all: rewrite ?(lookup_notin _ rest k Hk); cbn [intermediate leaf_at];
        rewrite ?Hv; reflexivity.
Qed.

Lemma raw_leaf_node (raw : list (string * json)) o i d n :
  raw_leaf raw o i d n =
    match Comparison.lookup string_dec raw o with
    | Some (JDict l1) => node_leaf l1 None None i d n
    | _ => None
    end.
Proof.
  unfold raw_leaf, node_leaf.
  destruct (Comparison.lookup string_dec raw o) as [[l1| | | |]|]; reflexivity.
Qed.

Lemma parse_get : forall (raw : list (string * json)) (t t' : tree Time),
  json_wf (JDict raw) ->
  parse parse_time raw t = inl t' ->
  forall o i d n, get_measurement t' o i d n =
    match raw_leaf raw o i d n with
    | Some fs =>
        match build_measurement parse_time fs o i d n with
        | inl m => Some m
        | inr _ => None
        end
    | None => get_measurement t o i d n
    end.
Proof.
  induction raw as [|[o obs] rest IH]; intros t t' Hwf H o' i' d' n'.
  - simpl in H. injection H as <-. reflexivity.
  - apply json_wf_cons in Hwf as [Ho [Hobs Hwf]].
    simpl in H.
    destruct (traverse parse_time obs o None None (setdefault_observatory t o)) as [t1|err]
      eqn:Ht1; [|discriminate].
    destruct obs as [l1| | | |]; try discriminate.
    rewrite (IH _ _ Hwf H), !raw_leaf_node.
    rewrite (traverse_level1 o l1 _ _ Hobs Ht1), get_setdefault.
    cbn [Comparison.lookup].
    destruct (string_dec o' o) as [->|Hne].
    + rewrite (lookup_notin _ rest o Ho). reflexivity.
    + destruct (Comparison.lookup string_dec rest o') as [[l| | | |]|]; reflexivity.
Qed.

Lemma dict_set_keys_present {K V : Type} (dec : forall a b : K, {a = b} + {a <> b})
    (d : list (K * V)) (k : K) (v : V) :
  In k (map fst d) -> map fst (dict_set dec d k v) = map fst d.
Proof.
  induction d as [|[k0 v0] r IH]; simpl; intros Hin; [contradiction|].
  destruct (dec k k0) as [->|Hne]; simpl; [reflexivity|].
  rewrite IH; [reflexivity|]. destruct Hin; [congruence|assumption].
Qed.

Lemma store_keys (t : tree Time) o i d n m :
  In o (map fst t) -> map fst (store t o i d n m) = map fst t.
Proof. intros Hin. unfold store. apply dict_set_keys_present, Hin. Qed.

Lemma traverse_level3_keys o a b : forall items (t t' : tree Time),
  In o (map fst t) ->
  traverse parse_time (JDict items) o (Some a) (Some b) t = inl t' ->
  map fst t' = map fst t.
Proof.
  induction items as [|[k v] rest IH]; intros t t' Hin H.
  - simpl in H. congruence.
  - rewrite traverse_cons in H. destruct (leaf_fields v) as [fs|].
    + destruct (build_measurement parse_time fs o (Some a) (Some b) k) as [m|];
        [|discriminate].
      simpl in H. rewrite (IH _ _ (eq_ind_r (fun l => In o l) Hin (store_keys t o _ _ k m Hin)) H).
      apply store_keys, Hin.
    + discriminate.
Qed.

Lemma traverse_level2_keys o a : forall items (t t' : tree Time),
  In o (map fst t) ->
  traverse parse_time (JDict items) o (Some a) None t = inl t' ->
  map fst t' = map fst t.
Proof.
  induction items as [|[k v] rest IH]; intros t t' Hin H.
  - simpl in H. congruence.
  - rewrite traverse_cons in H. destruct (leaf_fields v) as [fs|].
    + destruct (build_measurement parse_time fs o (Some a) None k) as [m|]; [|discriminate].
      simpl in H. rewrite (IH _ _ (eq_ind_r (fun l => In o l) Hin (store_keys t o _ _ k m Hin)) H).
      apply store_keys, Hin.
    + destruct (traverse parse_time v o (Some a) (Some k) t) as [t1|] eqn:Ht1; [|discriminate].
      destruct v as [l3| | | |]; try discriminate.
      pose proof (traverse_level3_keys o a k l3 t t1 Hin Ht1) as E.
      simpl in H. rewrite (IH _ _ (eq_ind_r (fun l => In o l) Hin E) H). exact E.
Qed.

Lemma traverse_level1_keys o : forall items (t t' : tree Time),
  In o (map fst t) ->
  traverse parse_time (JDict items) o None None t = inl t' ->
  map fst t' = map fst t.
Proof.
  induction items as [|[k v] rest IH]; intros t t' Hin H.
  - simpl in H. congruence.
  - rewrite traverse_cons in H. destruct (leaf_fields v) as [fs|].
    + destruct (build_measurement parse_time fs o None None k) as [m|]; [|discriminate].
      simpl in H. rewrite (IH _ _ (eq_ind_r (fun l => In o l) Hin (store_keys t o _ _ k m Hin)) H).
      apply store_keys, Hin.
    + destruct (traverse parse_time v o (Some k) None t) as [t1|] eqn:Ht1; [|discriminate].
      destruct v as [l2| | | |]; try discriminate.
      pose proof (traverse_level2_keys o k l2 t t1 Hin Ht1) as E.
      simpl in H. rewrite (IH _ _ (eq_ind_r (fun l => In o l) Hin E) H). exact E.
Qed.

Lemma parse_keys : forall (raw : list (string * json)) (t t' : tree Time),
  NoDup (map fst raw) ->
  (forall o, In o (map fst raw) -> ~ In o (map fst t)) ->
  parse parse_time raw t = inl t' ->
  map fst t' = (map fst t ++ map fst raw)%list.
Proof.
  induction raw as [|[o obs] rest IH]; intros t t' Hnd Hfresh H.
  - simpl in H. injection H as <-. rewrite app_nil_r. reflexivity.
  - simpl in Hnd. apply NoDup_cons_iff in Hnd as [Ho Hnd].
    simpl in H.
    destruct (traverse parse_time obs o None None (setdefault_observatory t o)) as [t1|err]
      eqn:Ht1; [|discriminate].
    destruct obs as [l1| | | |]; try discriminate.
    assert (Hs : map fst (setdefault_observatory t o) = (map fst t ++ [o])%list).
    { unfold setdefault_observatory.
      rewrite (lookup_notin _ t o (Hfresh o (or_introl eq_refl))).
      rewrite map_app. reflexivity. }
    assert (E : map fst t1 = (map fst t ++ [o])%list).
    { rewrite <- Hs. apply (traverse_level1_keys o l1 _ _); [|exact Ht1].
      rewrite Hs. apply in_or_app. right. left. reflexivity. }
    rewrite (IH t1 t' Hnd); [|intros o' Ho'; rewrite E; intros Hin;
      apply in_app_or in Hin as [Hin|[<-|[]]];
      [exact (Hfresh o' (or_intror Ho') Hin)|exact (Ho Ho')] | exact H].
    rewrite E, <- app_assoc. reflexivity.
Qed.

Lemma lookup_some_in {K V : Type} (dec : forall a b : K, {a = b} + {a <> b})
    (l : list (K * V)) (k : K) (v : V) :
  Comparison.lookup dec l k = Some v -> In (k, v) l.
Proof.
  induction l as [|[k0 v0] r IH]; simpl; [discriminate|].
  destruct (dec k k0) as [->|]; [intros [= ->]; left; reflexivity|].
  intros H. right. apply IH, H.
Qed.

Lemma lookup_none_notin {K V : Type} (dec : forall a b : K, {a = b} + {a <> b})
    (l : list (K * V)) (k : K) :
  Comparison.lookup dec l k = None -> ~ In k (map fst l).
Proof.
  induction l as [|[k0 v0] r IH]; simpl; [tauto|].
  destruct (dec k k0) as [->|]; [discriminate|]. intros H [E|Hin]; [congruence|].
  exact (IH H Hin).
Qed.

Lemma Forall_dict_set {K V : Type} (dec : forall a b : K, {a = b} + {a <> b})
    (P : K * V -> Prop) (d : list (K * V)) (k : K) (v : V) :
  Forall P d -> P (k, v) -> Forall P (dict_set dec d k v).
Proof.
  induction d as [|[k0 v0] r IH]; simpl; intros Hd Hk; [constructor; auto|].
  inversion Hd; subst. destruct (dec k k0); constructor; auto.
Qed.

Lemma Forall_get_or_empty {K V : Type} (dec : forall a b : K, {a = b} + {a <> b})
    (Q : list V -> Prop) (d : list (K * list V)) (k : K) :
  Forall (fun p => Q (snd p)) d -> Q [] -> Q (get_or_empty dec d k).
Proof.
  intros Hd Hnil. unfold get_or_empty.
  destruct (Comparison.lookup dec d k) as [v|] eqn:E; [|exact Hnil].
  apply lookup_some_in in E. rewrite Forall_forall in Hd. exact (Hd _ E).
Qed.

Lemma store_wf (t : tree Time) o i d n m :
  tree_wf t -> measurement m = n -> tree_wf (store t o i d n m).
Proof.
  intros [Ht Ft] Hm. unfold store.
  assert (Hi : insts_wf (get_or_empty string_dec t o))
    by (apply Forall_get_or_empty; [exact Ft | split; constructor]).
  destruct Hi as [Hi Fi].
  assert (Hd : dets_wf (get_or_empty option_string_dec (get_or_empty string_dec t o) i))
    by (apply Forall_get_or_empty; [exact Fi | split; constructor]).
  destruct Hd as [Hd Fd].
  assert (Hn : meas_wf (get_or_empty option_string_dec
                 (get_or_empty option_string_dec (get_or_empty string_dec t o) i) d))
    by (apply Forall_get_or_empty; [exact Fd | split; constructor]).
  destruct Hn as [Hn Fn].
  split; [apply dict_set_nodup, Ht|]. apply Forall_dict_set; [exact Ft|].
  split; [apply dict_set_nodup, Hi|]. apply Forall_dict_set; [exact Fi|].
  split; [apply dict_set_nodup, Hd|]. apply Forall_dict_set; [exact Fd|].
  split; [apply dict_set_nodup, Hn|]. apply Forall_dict_set; [exact Fn|exact Hm].
Qed.

Lemma build_measurement_name fs o i d n (m : Measurement Time) :
  build_measurement parse_time fs o i d n = inl m -> measurement m = n.
Proof.
  unfold build_measurement, time_field, ds_bind.
  destruct (field fs "sourceId"); [|discriminate].
  destruct (field fs "nickname"); [|discriminate].
  destruct (field fs "start"); [|discriminate]. destruct (parse_time j1); [|discriminate].
  destruct (field fs "end"); [|discriminate]. destruct (parse_time j2); [|discriminate].
  intros [= <-]. reflexivity.
Qed.

Lemma setdefault_wf (t : tree Time) o : tree_wf t -> tree_wf (setdefault_observatory t o).
Proof.
  intros [Ht Ft]. unfold setdefault_observatory.
  destruct (Comparison.lookup string_dec t o) eqn:E; [split; assumption|].
  apply lookup_none_notin in E. split.
  - rewrite map_app. simpl. apply NoDup_app; [exact Ht | repeat constructor; simpl; tauto |].
    intros x Hx [<-|[]]. exact (E Hx).
  - apply Forall_app. split; [exact Ft|]. repeat constructor.
Qed.

Section Preservation.
Variable P : tree Time -> Prop.
Hypothesis P_store : forall t o i d n m, P t -> measurement m = n -> P (store t o i d n m).
Hypothesis P_setdefault : forall t o, P t -> P (setdefault_observatory t o).

Lemma traverse_level3_pres o a b : forall items (t t' : tree Time),
  P t -> traverse parse_time (JDict items) o (Some a) (Some b) t = inl t' -> P t'.
Proof.
  induction items as [|[k v] rest IH]; intros t t' Hp H.
  - simpl in H. congruence.
  - rewrite traverse_cons in H. destruct (leaf_fields v) as [fs|]; [|discriminate].
    destruct (build_measurement parse_time fs o (Some a) (Some b) k) as [m|] eqn:Hb;
      [|discriminate].
    simpl in H. exact (IH _ _ (P_store t o _ _ k m Hp (build_measurement_name _ _ _ _ _ _ Hb)) H).
Qed.

Lemma traverse_level2_pres o a : forall items (t t' : tree Time),
  P t -> traverse parse_time (JDict items) o (Some a) None t = inl t' -> P t'.
Proof.
  induction items as [|[k v] rest IH]; intros t t' Hp H.
  - simpl in H. congruence.
  - rewrite traverse_cons in H. destruct (leaf_fields v) as [fs|].
    + destruct (build_measurement parse_time fs o (Some a) None k) as [m|] eqn:Hb;
        [|discriminate].
      simpl in H.
      exact (IH _ _ (P_store t o _ _ k m Hp (build_measurement_name _ _ _ _ _ _ Hb)) H).
    + destruct (traverse parse_time v o (Some a) (Some k) t) as [t1|] eqn:Ht1; [|discriminate].
      destruct v as [l3| | | |]; try discriminate.
      simpl in H. exact (IH _ _ (traverse_level3_pres o a k l3 t t1 Hp Ht1) H).
Qed.

Lemma traverse_level1_pres o : forall items (t t' : tree Time),
  P t -> traverse parse_time (JDict items) o None None t = inl t' -> P t'.
Proof.
  induction items as [|[k v] rest IH]; intros t t' Hp H.
  - simpl in H. congruence.
  - rewrite traverse_cons in H. destruct (leaf_fields v) as [fs|].
    + destruct (build_measurement parse_time fs o None None k) as [m|] eqn:Hb;
        [|discriminate].
      simpl in H.
      exact (IH _ _ (P_store t o _ _ k m Hp (build_measurement_name _ _ _ _ _ _ Hb)) H).
    + destruct (traverse parse_time v o (Some k) None t) as [t1|] eqn:Ht1; [|discriminate].
      destruct v as [l2| | | |]; try discriminate.
      simpl in H. exact (IH _ _ (traverse_level2_pres o k l2 t t1 Hp Ht1) H).
Qed.

Lemma parse_pres : forall (raw : list (string * json)) (t t' : tree Time),
  P t -> parse parse_time raw t = inl t' -> P t'.
Proof.
  induction raw as [|[o obs] rest IH]; intros t t' Hp H.
  - simpl in H. congruence.
  - simpl in H.
    destruct (traverse parse_time obs o None None (setdefault_observatory t o)) as [t1|]
      eqn:Ht1; [|discriminate].
    destruct obs as [l1| | | |]; try discriminate.
    exact (IH _ _ (traverse_level1_pres o l1 _ _ (P_setdefault t o Hp) Ht1) H).
Qed.

End Preservation.

Lemma parse_wf (raw : list (string * json)) (t t' : tree Time) :
  tree_wf t -> parse parse_time raw t = inl t' -> tree_wf t'.
Proof. apply (parse_pres tree_wf store_wf setdefault_wf). Qed.

Lemma filter_meas_cons s e obs inst det k m rest (acc : tree Time) :
  filter_meas time_le s e obs inst det ((k, m) :: rest) acc =
  filter_meas time_le s e obs inst det rest
    (if time_le (start m) e && time_le s (end_ m)
     then store acc obs inst det (measurement m) m else acc).
Proof. reflexivity. Qed.

Lemma filter_meas_get s e obs inst det : forall meas, meas_wf meas ->
  forall (acc : tree Time) o' i' d' n',
  get_measurement (filter_meas time_le s e obs inst det meas acc) o' i' d' n' =
    if string_dec o' obs then
      if option_string_dec i' inst then
        if option_string_dec d' det then
          match Comparison.lookup string_dec meas n' with
          | Some m =>
              if time_le (start m) e && time_le s (end_ m) then Some m
              else get_measurement acc o' i' d' n'
          | None => get_measurement acc o' i' d' n'
          end
        else get_measurement acc o' i' d' n'
      else get_measurement acc o' i' d' n'
    else get_measurement acc o' i' d' n'.
Proof.
  induction meas as [|[k m] rest IH]; intros [Hnd Hf] acc o' i' d' n'.
  - unfold filter_meas. simpl. ds_simpl; reflexivity.
  - inversion Hf as [|? ? Hm Hf']; subst. simpl in Hm.
    simpl in Hnd. apply NoDup_cons_iff in Hnd as [Hk Hnd].
    rewrite filter_meas_cons, (IH (conj Hnd Hf')).
    destruct (time_le (start m) e && time_le s (end_ m)) eqn:Hc; [rewrite get_store, Hm|].
    all: cbn [Comparison.lookup]; ds_simpl.
    all: rewrite (lookup_notin _ rest _ Hk); reflexivity.
Qed.

Lemma filter_dets_get s e obs inst : forall dets, dets_wf dets ->
  forall (acc : tree Time) o' i' d' n',
  get_measurement (filter_dets time_le s e obs inst dets acc) o' i' d' n' =
    if string_dec o' obs then
      if option_string_dec i' inst then
        match Comparison.lookup option_string_dec dets d' with
        | Some meas =>
            match Comparison.lookup string_dec meas n' with
            | Some m =>
                if time_le (start m) e && time_le s (end_ m) then Some m
                else get_measurement acc o' i' d' n'
            | None => get_measurement acc o' i' d' n'
            end
        | None => get_measurement acc o' i' d' n'
        end
      else get_measurement acc o' i' d' n'
    else get_measurement acc o' i' d' n'.
Proof.
  induction dets as [|[det meas] rest IH]; intros [Hnd Hf] acc o' i' d' n'.
  - unfold filter_dets. simpl. ds_simpl; reflexivity.
  - inversion Hf as [|? ? Hm Hf']; subst. simpl in Hm.
    simpl in Hnd. apply NoDup_cons_iff in Hnd as [Hk Hnd].
    change (filter_dets time_le s e obs inst ((det, meas) :: rest) acc)
      with (filter_dets time_le s e obs inst rest (filter_meas time_le s e obs inst det meas acc)).
    rewrite (IH (conj Hnd Hf')), (filter_meas_get s e obs inst det meas Hm).
    cbn [Comparison.lookup]; ds_simpl.
    all: try (rewrite (lookup_notin _ rest _ Hk)); reflexivity.
Qed.

Lemma filter_insts_get s e obs : forall insts, insts_wf insts ->
  forall (acc : tree Time) o' i' d' n',
  get_measurement (filter_insts time_le s e obs insts acc) o' i' d' n' =
    if string_dec o' obs then
      match Comparison.lookup option_string_dec insts i' with
      | Some dets =>
          match Comparison.lookup option_string_dec dets d' with
          | Some meas =>
              match Comparison.lookup string_dec meas n' with
              | Some m =>
                  if time_le (start m) e && time_le s (end_ m) then Some m
                  else get_measurement acc o' i' d' n'
              | None => get_measurement acc o' i' d' n'
              end
          | None => get_measurement acc o' i' d' n'
          end
      | None => get_measurement acc o' i' d' n'
      end
    else get_measurement acc o' i' d' n'.
Proof.
  induction insts as [|[inst dets] rest IH]; intros [Hnd Hf] acc o' i' d' n'.
  - unfold filter_insts. simpl. ds_simpl; reflexivity.
  - inversion Hf as [|? ? Hm Hf']; subst. simpl in Hm.
    simpl in Hnd. apply NoDup_cons_iff in Hnd as [Hk Hnd].
    change (filter_insts time_le s e obs ((inst, dets) :: rest) acc)
      with (filter_insts time_le s e obs rest (filter_dets time_le s e obs inst dets acc)).
    rewrite (IH (conj Hnd Hf')), (filter_dets_get s e obs inst dets Hm).
    cbn [Comparison.lookup]; ds_simpl.
    all: try (rewrite (lookup_notin _ rest _ Hk)); reflexivity.
Qed.

Lemma filtered_by_time_get (t : tree Time) s e :
  tree_wf t ->
  forall o i d n, get_measurement (filtered_by_time time_le t s e) o i d n =
    match get_measurement t o i d n with
    | Some m => if time_le (start m) e && time_le s (end_ m) then Some m else None
    | None => None
    end.
Proof.
  intros [Hnd Hf] o' i' d' n'.
  assert (G : forall (acc : tree Time),
    get_measurement (fold_left (fun acc '(obs, insts) => filter_insts time_le s e obs insts acc)
                       t acc) o' i' d' n' =
    match Comparison.lookup string_dec t o' with
    | Some insts =>
        match Comparison.lookup option_string_dec insts i' with
        | Some dets =>
            match Comparison.lookup option_string_dec dets d' with
            | Some meas =>
                match Comparison.lookup string_dec meas n' with
                | Some m =>
                    if time_le (start m) e && time_le s (end_ m) then Some m
                    else get_measurement acc o' i' d' n'
                | None => get_measurement acc o' i' d' n'
                end
            | None => get_measurement acc o' i' d' n'
            end
        | None => get_measurement acc o' i' d' n'
        end
    | None => get_measurement acc o' i' d' n'
    end).
  { clear -Hnd Hf. induction t as [|[obs insts] rest IH]; intros acc; [reflexivity|].
    inversion Hf as [|? ? Hm Hf']; subst. simpl in Hm.
    simpl in Hnd. apply NoDup_cons_iff in Hnd as [Hk Hnd].
    cbn [fold_left]. rewrite (IH Hnd Hf'), (filter_insts_get s e obs insts Hm).
    cbn [Comparison.lookup]; ds_simpl.
    all: try (rewrite (lookup_notin _ rest _ Hk)); reflexivity. }
  unfold filtered_by_time. rewrite G. unfold get_measurement, get_or_empty.
  destruct (Comparison.lookup string_dec t o') as [insts|]; [|reflexivity].
  destruct (Comparison.lookup option_string_dec insts i') as [dets|]; [|reflexivity].
  destruct (Comparison.lookup option_string_dec dets d') as [meas|]; [|reflexivity].
  destruct (Comparison.lookup string_dec meas n') as [m|]; [|reflexivity].
  destruct (time_le (start m) e && time_le s (end_ m)); reflexivity.
Qed.

(** Extra: the tree [DataSourceTree(data_sources)] builds holds exactly the
    measurement leaves of the input: every observatory of the input is a key
    of [_tree], in the input's order, and [get_measurement] returns a
    measurement exactly at the paths that lead to a leaf dict of the input
    (observatory, then instrument and detector when given, then the
    measurement name), built from that leaf's fields. *)
Theorem ds_tree_init_spec (raw : list (string * json)) (t : tree Time) :
  json_wf (JDict raw) ->
  DataSourceTree_init parse_time raw = inl t ->
  map fst t = map fst raw /\
  forall o i d n m,
    get_measurement t o i d n = Some m <->
    exists fs, raw_leaf raw o i d n = Some fs /\ build_measurement parse_time fs o i d n = inl m.
Proof.
  intros Hwf H. split.
  - exact (parse_keys raw [] t (proj1 Hwf) (fun _ _ H => H) H).
  - intros o i d n m. rewrite (parse_get raw [] t Hwf H o i d n), get_empty.
    destruct (raw_leaf raw o i d n) as [fs|].
    + destruct (build_measurement parse_time fs o i d n) as [m'|] eqn:Hb.
      * split; [intros [= <-]; exists fs; auto|].
        intros [fs' [[= <-] Hb']]. congruence.
      * split; [discriminate|]. intros [fs' [[= <-] Hb']]. congruence.
    + split; [discriminate|]. intros [fs' [[=] _]].
Qed.

(** Extra: [filtered_by_time(start, end)] of a tree [DataSourceTree] built keeps a
    measurement at its path exactly when [m.start <= end and m.end >= start],
    and holds nothing else. *)
Theorem filtered_by_time_spec (raw : list (string * json)) (t : tree Time) (s e : Time) :
  DataSourceTree_init parse_time raw = inl t ->
  forall o i d n,
    get_measurement (filtered_by_time time_le t s e) o i d n =
      match get_measurement t o i d n with
      | Some m => if time_le (start m) e && time_le s (end_ m) then Some m else None
      | None => None
      end.
Proof.
  intros H. apply filtered_by_time_get.
  apply (parse_wf raw [] t); [split; constructor | exact H].
Qed.

End DataSourcesFacts.

Section ListingFacts.
Import DataSources.

Variable Time : Type.
Variable parse_time : json -> option Time.

Lemma insert_sorted_perm x l : Permutation (insert_sorted x l) (x :: l).
Proof.
  induction l as [|y r IH]; simpl; [reflexivity|].
  destruct (String.compare y x); try reflexivity.
  rewrite IH. apply perm_swap.
Qed.

Lemma py_sorted_perm l : Permutation (py_sorted l) l.
Proof.
  induction l as [|x r IH]; simpl; [reflexivity|].
  rewrite insert_sorted_perm, IH. reflexivity.
Qed.

Lemma str_le_of_not_lt x y : String.compare y x <> Lt -> str_le x y.
Proof.
  intros H. unfold str_le. rewrite (String.compare_antisym x y).
  destruct (String.compare y x); simpl; congruence.
Qed.

Lemma insert_sorted_sorted x l : Sorted str_le l -> Sorted str_le (insert_sorted x l).
Proof.
  induction l as [|y r IH]; simpl; intros Hs; [repeat constructor|].
  destruct (String.compare y x) eqn:E.
  - constructor; [exact Hs|]. constructor. apply str_le_of_not_lt. congruence.
  - apply Sorted_inv in Hs as [Hr Hhd]. constructor; [exact (IH Hr)|].
    assert (Hyx : str_le y x) by (unfold str_le; congruence).
    destruct r as [|z r']; simpl; [constructor; exact Hyx|].
    destruct (String.compare z x); constructor; try exact Hyx.
    inversion Hhd; assumption.
  - constructor; [exact Hs|]. constructor. apply str_le_of_not_lt. congruence.
Qed.

Lemma py_sorted_sorted l : Sorted str_le (py_sorted l).
Proof. induction l; simpl; [constructor|]. apply insert_sorted_sorted; assumption. Qed.

Lemma py_sorted_in x l : In x (py_sorted l) <-> In x l.
Proof. split; apply Permutation_in; [|symmetry]; apply py_sorted_perm. Qed.

Lemma py_sorted_nodup l : NoDup l -> NoDup (py_sorted l).
Proof. intros H. apply (Permutation_NoDup (Permutation_sym (py_sorted_perm l)) H). Qed.

Lemma py_sorted_nil l : py_sorted l = [] -> l = [].
Proof.
  intros H. destruct l as [|x r]; [reflexivity|].
  pose proof (proj2 (py_sorted_in x (x :: r)) (or_introl eq_refl)) as Hin.
  rewrite H in Hin. destruct Hin.
Qed.

Lemma in_not_none x l : In x (not_none l) <-> In (Some x) l.
Proof.
  induction l as [|[y|] r IH]; simpl; [tauto| |].
  - rewrite IH. intuition congruence.
  - rewrite IH. intuition congruence.
Qed.

Lemma not_none_nodup l : NoDup l -> NoDup (not_none l).
Proof.
  induction l as [|[y|] r IH]; simpl; intros H; [constructor| |];
    apply NoDup_cons_iff in H as [Hy Hr].
  - constructor; [rewrite in_not_none; exact Hy | exact (IH Hr)].
  - exact (IH Hr).
Qed.

Lemma lookup_ne_iff {K V : Type} (dec : forall a b : K, {a = b} + {a <> b})
    (l : list (K * V)) (k : K) :
  Comparison.lookup dec l k <> None <-> In k (map fst l).
Proof.
  induction l as [|[k0 v0] r IH]; simpl; [tauto|].
  destruct (dec k k0) as [->|Hne]; [split; [tauto|discriminate]|].
  rewrite IH. intuition congruence.
Qed.

Lemma lookup_nonempty {K V : Type} (dec : forall a b : K, {a = b} + {a <> b})
    (l : list (K * V)) :
  l <> [] -> exists k, Comparison.lookup dec l k <> None.
Proof.
  destruct l as [|[k v] r]; [congruence|]. intros _. exists k.
  simpl. destruct (dec k k); congruence.
Qed.

Lemma dict_set_nonempty {K V : Type} (dec : forall a b : K, {a = b} + {a <> b})
    (d : list (K * V)) (k : K) (v : V) : dict_set dec d k v <> [].
Proof. destruct d as [|[k0 v0] r]; simpl; [|destruct (dec k k0)]; discriminate. Qed.

Lemma store_ne (t : tree Time) o i d n m : tree_ne t -> tree_ne (store t o i d n m).
Proof.
  unfold tree_ne, store. intros Ht.
  assert (Ho : Forall (fun q => snd q <> [] /\ Forall (fun r => snd r <> []) (snd q))
                 (get_or_empty string_dec t o))
    by (apply (Forall_get_or_empty _ (fun l => Forall _ l)); [exact Ht | constructor]).
  assert (Hi : Forall (fun r : option string * list (string * Measurement Time) => snd r <> [])
                 (get_or_empty option_string_dec (get_or_empty string_dec t o) i)).
  { apply (Forall_get_or_empty _ (fun l => Forall _ l)); [|constructor].
    eapply Forall_impl; [|exact Ho]. intros q [_ Hq]. exact Hq. }
  apply Forall_dict_set; [exact Ht|]. simpl.
  apply Forall_dict_set; [exact Ho|]. simpl. split; [apply dict_set_nonempty|].
  apply Forall_dict_set; [exact Hi|]. simpl. apply dict_set_nonempty.
Qed.

Lemma setdefault_ne (t : tree Time) o : tree_ne t -> tree_ne (setdefault_observatory t o).
Proof.
  unfold tree_ne, setdefault_observatory. intros Ht.
  destruct (Comparison.lookup string_dec t o); [exact Ht|].
  apply Forall_app. split; [exact Ht|]. repeat constructor.
Qed.


Lemma get_or_empty_some {K V : Type} (dec : forall a b : K, {a = b} + {a <> b})
    (d : list (K * list V)) k v :
  Comparison.lookup dec d k = Some v -> get_or_empty dec d k = v.
Proof. unfold get_or_empty. intros ->. reflexivity. Qed.

Lemma get_or_empty_none {K V : Type} (dec : forall a b : K, {a = b} + {a <> b})
    (d : list (K * list V)) k :
  Comparison.lookup dec d k = None -> get_or_empty dec d k = [].
Proof. unfold get_or_empty. intros ->. reflexivity. Qed.

Lemma Forall_lookup {K V : Type} (dec : forall a b : K, {a = b} + {a <> b})
    (Q : V -> Prop) (d : list (K * V)) k v :
  Forall (fun p => Q (snd p)) d -> Comparison.lookup dec d k = Some v -> Q v.
Proof.
  intros Hd E. apply lookup_some_in in E. rewrite Forall_forall in Hd. exact (Hd _ E).
Qed.

Lemma nonempty_paths (dets : list (option string * list (string * Measurement Time))) :
  dets <> [] -> Forall (fun r => snd r <> []) dets ->
  exists d n, Comparison.lookup string_dec (get_or_empty option_string_dec dets d) n <> None.
Proof.
  destruct dets as [|[d0 meas] r]; [congruence|]. intros _ Hf.
  inversion Hf as [|? ? Hm _]; subst. simpl in Hm.
  destruct (lookup_nonempty string_dec meas Hm) as [n Hn].
  exists d0, n. unfold get_or_empty. simpl.
  destruct (option_string_dec d0 d0); [exact Hn|congruence].
Qed.

Lemma measurements_spec (t : tree Time) : tree_wf t ->
  forall o i d,
  match measurements t o i d with
  | None => forall n, get_measurement t o i d n = None
  | Some l =>
      l <> [] /\ NoDup l /\ Sorted str_le l /\
      forall n, In n l <-> get_measurement t o i d n <> None
  end.
Proof.
  intros [Ht Ft] o i d. unfold measurements, get_measurement.
  assert (Hi : insts_wf (get_or_empty string_dec t o))
    by (apply Forall_get_or_empty; [exact Ft | split; constructor]).
  assert (Hd : dets_wf (get_or_empty option_string_dec (get_or_empty string_dec t o) i))
    by (apply Forall_get_or_empty; [exact (proj2 Hi) | split; constructor]).
  destruct (Comparison.lookup option_string_dec
              (get_or_empty option_string_dec (get_or_empty string_dec t o) i) d)
    as [[|[n0 m0] r]|] eqn:E.
  - rewrite (get_or_empty_some _ _ _ _ E). reflexivity.
  - rewrite (get_or_empty_some _ _ _ _ E).
    destruct (Forall_lookup _ meas_wf _ _ _ (proj2 Hd) E) as [Hn _].
    split; [intros S; apply py_sorted_nil in S; discriminate|].
    split; [apply py_sorted_nodup, Hn|]. split; [apply py_sorted_sorted|].
    intros n. rewrite py_sorted_in, lookup_ne_iff. reflexivity.
  - rewrite (get_or_empty_none _ _ _ E). reflexivity.
Qed.

Lemma detectors_spec (t : tree Time) : tree_wf t -> tree_ne t ->
  forall o i,
  match detectors t o i with
  | None => forall b n, get_measurement t o i (Some b) n = None
  | Some l =>
      l <> [] /\ NoDup l /\ Sorted str_le l /\
      forall b, In b l <-> exists n, get_measurement t o i (Some b) n <> None
  end.
Proof.
  intros [Ht Ft] Hne o i. unfold detectors, get_measurement.
  assert (Hi : insts_wf (get_or_empty string_dec t o))
    by (apply Forall_get_or_empty; [exact Ft | split; constructor]).
  assert (Ho : Forall (fun q => snd q <> [] /\ Forall (fun r => snd r <> []) (snd q))
                 (get_or_empty string_dec t o))
    by (apply (Forall_get_or_empty _ (fun l => Forall _ l)); [exact Hne | constructor]).
  destruct (Comparison.lookup option_string_dec (get_or_empty string_dec t o) i)
    as [inst|] eqn:E.
  2: { rewrite (get_or_empty_none _ _ _ E). reflexivity. }
  rewrite (get_or_empty_some _ _ _ _ E).
  destruct inst as [|q r]; [reflexivity|].
  destruct (Forall_lookup _ dets_wf _ _ _ (proj2 Hi) E) as [Hk _].
  destruct (Forall_lookup _ (fun l => l <> [] /\ Forall (fun r => snd r <> []) l)
              _ _ _ Ho E) as [_ Hm].
  destruct (py_sorted (not_none (map fst (q :: r)))) as [|x l] eqn:S.
  - apply py_sorted_nil in S. intros b n.
    assert (Hb : Comparison.lookup option_string_dec (q :: r) (Some b) = None).
    { destruct (Comparison.lookup option_string_dec (q :: r) (Some b)) eqn:Eb; [|reflexivity].
      exfalso. assert (Hin : In (Some b) (map fst (q :: r)))
        by (apply lookup_ne_iff with (dec := option_string_dec); congruence).
      rewrite <- in_not_none, S in Hin. destruct Hin. }
    rewrite (get_or_empty_none _ _ _ Hb). reflexivity.
  - rewrite <- S.
    split; [intros S'; rewrite S' in S; discriminate|].
    split; [apply py_sorted_nodup, not_none_nodup, Hk|]. split; [apply py_sorted_sorted|].
    intros b. rewrite py_sorted_in, in_not_none, <- (lookup_ne_iff option_string_dec).
    destruct (Comparison.lookup option_string_dec (q :: r) (Some b)) as [meas|] eqn:Eb.
    + rewrite (get_or_empty_some _ _ _ _ Eb).
      split; [|discriminate]. intros _.
      apply lookup_nonempty. exact (Forall_lookup _ (fun l => l <> []) _ _ _ Hm Eb).
    + rewrite (get_or_empty_none _ _ _ Eb).
      split; [congruence|]. intros [n Hn]. exfalso. exact (Hn eq_refl).
Qed.

Lemma instruments_spec (t : tree Time) : tree_wf t -> tree_ne t ->
  forall o,
  match instruments t o with
  | None => forall a d n, get_measurement t o (Some a) d n = None
  | Some l =>
      l <> [] /\ NoDup l /\ Sorted str_le l /\
      forall a, In a l <-> exists d n, get_measurement t o (Some a) d n <> None
  end.
Proof.
  intros [Ht Ft] Hne o. unfold instruments, get_measurement.
  destruct (Comparison.lookup string_dec t o) as [obs|] eqn:E.
  2: { rewrite (get_or_empty_none _ _ _ E). reflexivity. }
  rewrite (get_or_empty_some _ _ _ _ E).
  destruct obs as [|q r]; [reflexivity|].
  destruct (Forall_lookup _ insts_wf _ _ _ Ft E) as [Hk _].
  pose proof (Forall_lookup _ (fun l => Forall (fun q => snd q <> [] /\
                 Forall (fun r : option string * list (string * Measurement Time) => snd r <> [])
                   (snd q)) l) _ _ _ Hne E) as Ho.
  cbv beta in Ho.
  destruct (py_sorted (not_none (map fst (q :: r)))) as [|x l] eqn:S.
  - apply py_sorted_nil in S. intros a d n.
    assert (Ha : Comparison.lookup option_string_dec (q :: r) (Some a) = None).
    { destruct (Comparison.lookup option_string_dec (q :: r) (Some a)) eqn:Ea; [|reflexivity].
      exfalso. assert (Hin : In (Some a) (map fst (q :: r)))
        by (apply lookup_ne_iff with (dec := option_string_dec); congruence).
      rewrite <- in_not_none, S in Hin. destruct Hin. }
    rewrite (get_or_empty_none _ _ _ Ha). reflexivity.
  - rewrite <- S.
    split; [intros S'; rewrite S' in S; discriminate|].
    split; [apply py_sorted_nodup, not_none_nodup, Hk|]. split; [apply py_sorted_sorted|].
    intros a. rewrite py_sorted_in, in_not_none, <- (lookup_ne_iff option_string_dec).
    destruct (Comparison.lookup option_string_dec (q :: r) (Some a)) as [dets|] eqn:Ea.
    + rewrite (get_or_empty_some _ _ _ _ Ea).
      split; [|discriminate]. intros _.
      destruct (Forall_lookup _ (fun l => l <> [] /\ Forall (fun r => snd r <> []) l)
                  _ _ _ Ho Ea) as [Hd Hm].
      exact (nonempty_paths dets Hd Hm).
    + rewrite (get_or_empty_none _ _ _ Ea).
      split; [congruence|]. intros [d [n Hn]]. exfalso. exact (Hn eq_refl).
Qed.

(** Extra: on a [DataSourceTree] built from input dicts, [observatories()]
    lists every observatory of the input once, sorted (observatories without
    any measurement included); [instruments(o)], [detectors(o, i)] and
    [measurements(o, i, d)] return [None] exactly when no measurement lies
    below that path under a named instrument, under a named detector, or at
    all, and otherwise list once each, sorted, the names that lead to a
    measurement. *)
Theorem ds_tree_listings (raw : list (string * json)) (t : tree Time) :
  json_wf (JDict raw) ->
  DataSourceTree_init parse_time raw = inl t ->
  (NoDup (observatories t) /\ Sorted str_le (observatories t) /\
   forall o, In o (observatories t) <-> In o (map fst raw)) /\
  (forall o,
   match instruments t o with
   | None => forall a d n, get_measurement t o (Some a) d n = None
   | Some l =>
       l <> [] /\ NoDup l /\ Sorted str_le l /\
       forall a, In a l <-> exists d n, get_measurement t o (Some a) d n <> None
   end) /\
  (forall o i,
   match detectors t o i with
   | None => forall b n, get_measurement t o i (Some b) n = None
   | Some l =>
       l <> [] /\ NoDup l /\ Sorted str_le l /\
       forall b, In b l <-> exists n, get_measurement t o i (Some b) n <> None
   end) /\
  (forall o i d,
   match measurements t o i d with
   | None => forall n, get_measurement t o i d n = None
   | Some l =>
       l <> [] /\ NoDup l /\ Sorted str_le l /\
       forall n, In n l <-> get_measurement t o i d n <> None
   end).
Proof.
  intros Hraw H.
  assert (Hwf : tree_wf t).
  { apply (parse_pres _ parse_time tree_wf (store_wf _) (setdefault_wf _) raw [] t); [split; constructor|exact H]. }
  assert (Hne : tree_ne t).
  { apply (parse_pres _ parse_time tree_ne (fun t o i d n m Ht _ => store_ne t o i d n m Ht) setdefault_ne raw [] t); [constructor|exact H]. }
  assert (Hk : map fst t = map fst raw)
    by exact (proj1 (ds_tree_init_spec _ parse_time raw t Hraw H)).
  split; [|split; [|split]].
  - unfold observatories. rewrite Hk. split; [apply py_sorted_nodup, (proj1 Hraw)|].
    split; [apply py_sorted_sorted|]. intros o. apply py_sorted_in.
  - exact (instruments_spec t Hwf Hne).
  - exact (detectors_spec t Hwf Hne).
  - exact (measurements_spec t Hwf).
Qed.

End ListingFacts.

Section ShapeFacts.
Import DataSources.
Local Open Scope string_scope.
Variable Time : Type.
Variable parse_time : json -> option Time.

Lemma build_measurement_ok fs o i d n :
  (exists m : Measurement Time, build_measurement parse_time fs o i d n = inl m) <->
  leaf_ok Time parse_time fs.
Proof.
  unfold build_measurement, time_field, field, ds_bind, leaf_ok.
  destruct (Comparison.lookup string_dec fs "sourceId") as [v1|];
    [|split; [intros [m Hm]; discriminate | intros [[v Hv] _]; discriminate]].
  destruct (Comparison.lookup string_dec fs "nickname") as [v2|];
    [|split; [intros [m Hm]; discriminate | intros [_ [[v Hv] _]]; discriminate]].
  destruct (Comparison.lookup string_dec fs "start") as [v3|];
    [|split; [intros [m Hm]; discriminate | intros [_ [_ [[v [t [Hv _]]] _]]]; discriminate]].
  destruct (parse_time v3) as [t3|] eqn:E3;
    [|split; [intros [m Hm]; discriminate | intros [_ [_ [[v [t [[= <-] Ht]]] _]]]; congruence]].
  destruct (Comparison.lookup string_dec fs "end") as [v4|];
    [|split; [intros [m Hm]; discriminate | intros [_ [_ [_ [v [t [Hv _]]]]]]; discriminate]].
  destruct (parse_time v4) as [t4|] eqn:E4;
    [|split; [intros [m Hm]; discriminate | intros [_ [_ [_ [v [t [[= <-] Ht]]]]]]; congruence]].
  split; [intros _ | intros _; eexists; reflexivity].
  repeat split; eauto.
Qed.

Lemma ds_bind_inl_iff {A B : Type} (r : A + ds_error) (f : A -> B + ds_error) :
  (exists b, ds_bind r f = inl b) <-> exists a, r = inl a /\ exists b, f a = inl b.
Proof.
  destruct r as [a|e]; simpl.
  - split; [intros H; exists a; auto | intros [a' [[= <-] H]]; exact H].
  - split; [intros [b H]; discriminate | intros [a [H _]]; discriminate].
Qed.

Lemma traverse_level3_ok o a b : forall v (t : tree Time),
  (exists t', traverse parse_time v o (Some a) (Some b) t = inl t') <->
  detector_ok Time parse_time v.
Proof.
  intros [items| | | |] t;
    [|split; [intros [t' H]; discriminate | intros []] ..].
  revert t. induction items as [|[k v] rest IH]; intros t.
  - split; [intros _; constructor | intros _; exists t; reflexivity].
  - unfold detector_ok, dict_ok in *. rewrite traverse_cons, ds_bind_inl_iff, Forall_cons_iff.
    simpl snd. unfold entry_ok at 1. destruct (leaf_fields v) as [fs|].
    + rewrite <- (build_measurement_ok fs o (Some a) (Some b) k).
      destruct (build_measurement parse_time fs o (Some a) (Some b) k) as [m|err]; simpl.
      * split; [intros [t1 [[= <-] Hrest]]; split; [exists m; reflexivity | exact (proj1 (IH (store t o (Some a) (Some b) k m)) Hrest)]|].
        intros [_ Hrest]. exists (store t o (Some a) (Some b) k m). split; [reflexivity | exact (proj2 (IH (store t o (Some a) (Some b) k m)) Hrest)].
      * split; [intros [t1 [H _]]; discriminate | intros [[m H] _]; discriminate].
    + split; [intros [t1 [Ht1 _]]; discriminate | intros [[] _]].
Qed.

Lemma traverse_level2_ok o a : forall v (t : tree Time),
  (exists t', traverse parse_time v o (Some a) None t = inl t') <->
  instrument_ok Time parse_time v.
Proof.
  intros [items| | | |] t;
    [|split; [intros [t' H]; discriminate | intros []] ..].
  revert t. induction items as [|[k v] rest IH]; intros t.
  - split; [intros _; constructor | intros _; exists t; reflexivity].
  - unfold instrument_ok, dict_ok in *. rewrite traverse_cons, ds_bind_inl_iff, Forall_cons_iff.
    simpl snd. unfold entry_ok at 1. destruct (leaf_fields v) as [fs|].
    + rewrite <- (build_measurement_ok fs o (Some a) None k).
      destruct (build_measurement parse_time fs o (Some a) None k) as [m|err]; simpl.
      * split; [intros [t1 [[= <-] Hrest]]; split; [exists m; reflexivity | exact (proj1 (IH (store t o (Some a) None k m)) Hrest)]|].
        intros [_ Hrest]. exists (store t o (Some a) None k m). split; [reflexivity | exact (proj2 (IH (store t o (Some a) None k m)) Hrest)].
      * split; [intros [t1 [H _]]; discriminate | intros [[m H] _]; discriminate].
    + rewrite <- (traverse_level3_ok o a k v t). split.
      * intros [t1 [Ht1 Hrest]]. split; [exists t1; exact Ht1|]. exact (proj1 (IH t1) Hrest).
      * intros [[t1 Ht1] Hrest]. exists t1. split; [exact Ht1|]. exact (proj2 (IH t1) Hrest).
Qed.

Lemma traverse_level1_ok o : forall v (t : tree Time),
  (exists t', traverse parse_time v o None None t = inl t') <->
  observatory_ok Time parse_time v.
Proof.
  intros [items| | | |] t;
    [|split; [intros [t' H]; discriminate | intros []] ..].
  revert t. induction items as [|[k v] rest IH]; intros t.
  - split; [intros _; constructor | intros _; exists t; reflexivity].
  - unfold observatory_ok, dict_ok in *. rewrite traverse_cons, ds_bind_inl_iff, Forall_cons_iff.
    simpl snd. unfold entry_ok at 1. destruct (leaf_fields v) as [fs|].
    + rewrite <- (build_measurement_ok fs o None None k).
      destruct (build_measurement parse_time fs o None None k) as [m|err]; simpl.
      * split; [intros [t1 [[= <-] Hrest]]; split; [exists m; reflexivity | exact (proj1 (IH (store t o None None k m)) Hrest)]|].
        intros [_ Hrest]. exists (store t o None None k m). split; [reflexivity | exact (proj2 (IH (store t o None None k m)) Hrest)].
      * split; [intros [t1 [H _]]; discriminate | intros [[m H] _]; discriminate].
    + rewrite <- (traverse_level2_ok o k v t). split.
      * intros [t1 [Ht1 Hrest]]. split; [exists t1; exact Ht1|]. exact (proj1 (IH t1) Hrest).
      * intros [[t1 Ht1] Hrest]. exists t1. split; [exact Ht1|]. exact (proj2 (IH t1) Hrest).
Qed.

(** Extra: [DataSourceTree(data_sources)] returns without raising exactly
    when the input has the shape its docstring describes: the value of every
    observatory, and every non-leaf value below it, is a dict; the entries
    of a detector's dict (two levels below the observatory's) are all leaves
    (dicts with ["sourceId"]); and every leaf has
    ["sourceId"], ["nickname"] and parsable ["start"] and ["end"]. *)
Theorem ds_tree_init_succeeds (raw : list (string * json)) :
  (exists t, DataSourceTree_init parse_time raw = inl t) <-> input_ok Time parse_time raw.
Proof.
  unfold DataSourceTree_init, input_ok. generalize (@nil (string * list (option string *
    list (option string * list (string * Measurement Time))))) as t.
  induction raw as [|[o obs] rest IH]; intros t.
  - split; [intros _; constructor | intros _; exists t; reflexivity].
  - cbn [parse]. rewrite ds_bind_inl_iff, Forall_cons_iff. simpl snd.
    rewrite <- (traverse_level1_ok o obs (setdefault_observatory t o)). split.
    + intros [t1 [Ht1 Hrest]]. split; [exists t1; exact Ht1|]. exact (proj1 (IH t1) Hrest).
    + intros [[t1 Ht1] Hrest]. exists t1. split; [exact Ht1|]. exact (proj2 (IH t1) Hrest).
Qed.

End ShapeFacts.

Section FilteredFacts.
Import DataSources.
Local Open Scope string_scope.
Variable Time : Type.
Variable parse_time : json -> option Time.
Variable time_le : Time -> Time -> bool.

Section FilterPreservation.
Variable P : tree Time -> Prop.
Hypothesis P_store : forall t o i d m, P t -> P (store t o i d (measurement m) m).

Lemma filter_meas_pres s e obs inst det : forall meas (acc : tree Time),
  P acc -> P (filter_meas time_le s e obs inst det meas acc).
Proof.
  induction meas as [|[k m] rest IH]; intros acc H; [exact H|].
  rewrite filter_meas_cons. apply IH.
  destruct (time_le (start m) e && time_le s (end_ m)); [apply P_store|]; exact H.
Qed.

Lemma filter_dets_pres s e obs inst : forall dets (acc : tree Time),
  P acc -> P (filter_dets time_le s e obs inst dets acc).
Proof.
  induction dets as [|[det meas] rest IH]; intros acc H; [exact H|].
  apply IH, filter_meas_pres, H.
Qed.

Lemma filter_insts_pres s e obs : forall insts (acc : tree Time),
  P acc -> P (filter_insts time_le s e obs insts acc).
Proof.
  induction insts as [|[inst dets] rest IH]; intros acc H; [exact H|].
  apply IH, filter_dets_pres, H.
Qed.

Lemma filtered_by_time_pres (t : tree Time) s e : P [] -> P (filtered_by_time time_le t s e).
Proof.
  unfold filtered_by_time. generalize (@nil (string * list (option string *
    list (option string * list (string * Measurement Time))))) as acc.
  induction t as [|[obs insts] rest IH]; intros acc H; [exact H|].
  apply IH, filter_insts_pres, H.
Qed.

End FilterPreservation.

Lemma store_ne_obs (t : tree Time) o i d n m :
  Forall (fun p => snd p <> []) t -> Forall (fun p => snd p <> []) (store t o i d n m).
Proof.
  intros H. unfold store. apply Forall_dict_set; [exact H|]. apply dict_set_nonempty.
Qed.

Lemma keys_have_measurements (t : tree Time) o :
  tree_wf t -> tree_ne t -> Forall (fun p => snd p <> []) t ->
  In o (map fst t) <-> exists i d n, get_measurement t o i d n <> None.
Proof.
  intros [Ht Ft] Hne H0. rewrite <- (lookup_ne_iff string_dec). unfold get_measurement.
  destruct (Comparison.lookup string_dec t o) as [insts|] eqn:E.
  - rewrite (get_or_empty_some _ _ _ _ E). split; [intros _|discriminate].
    pose proof (Forall_lookup _ (fun l => l <> []) _ _ _ H0 E) as Hi.
    pose proof (Forall_lookup _ (fun l => Forall (fun q => snd q <> [] /\
                 Forall (fun r : option string * list (string * Measurement Time) => snd r <> [])
                   (snd q)) l) _ _ _ Hne E) as Ho. cbv beta in Ho.
    destruct insts as [|[i dets] r]; [congruence|].
    inversion Ho as [|? ? [Hd Hm] _]; subst. simpl in Hd, Hm.
    destruct (nonempty_paths _ dets Hd Hm) as [d [n Hn]].
    exists i, d, n. unfold get_or_empty at 2. simpl.
    destruct (option_string_dec i i); [exact Hn|congruence].
  - rewrite (get_or_empty_none _ _ _ E). split; [congruence|].
    intros [i [d [n Hn]]]. exfalso. exact (Hn eq_refl).
Qed.

(** Extra: on a [DataSourceTree] built from input data,
    [filtered_by_time(start, end).observatories()] lists once each, sorted,
    exactly the observatories with at least one measurement [m] such that
    [m.start <= end and m.end >= start]: unlike the tree it comes from, the
    filtered tree drops the observatories left without measurements. *)
Theorem filtered_observatories (raw : list (string * json)) (t : tree Time) (s e : Time) :
  DataSourceTree_init parse_time raw = inl t ->
  NoDup (observatories (filtered_by_time time_le t s e)) /\
  Sorted str_le (observatories (filtered_by_time time_le t s e)) /\
  forall o, In o (observatories (filtered_by_time time_le t s e)) <->
    exists i d n m, get_measurement t o i d n = Some m /\
                    time_le (start m) e && time_le s (end_ m) = true.
Proof.
  intros H. set (f := filtered_by_time time_le t s e).
  assert (Hf : tree_wf f /\ tree_ne f /\ Forall (fun p => snd p <> []) f).
  { apply filtered_by_time_pres; [|repeat split; constructor].
    intros t0 o i d m [Hw [Hn H0]].
    split; [exact (store_wf _ t0 o i d _ m Hw eq_refl)|].
    split; [exact (store_ne _ t0 o i d _ m Hn)|exact (store_ne_obs t0 o i d _ m H0)]. }
  destruct Hf as [Hw [Hn H0]].
  unfold observatories. split; [apply py_sorted_nodup, (proj1 Hw)|].
  split; [apply py_sorted_sorted|]. intros o.
  rewrite py_sorted_in, (keys_have_measurements f o Hw Hn H0).
  assert (Ht : tree_wf t) by (apply (parse_wf _ parse_time raw [] t); [split; constructor|exact H]).
  split.
  - intros [i [d [n Hget]]]. exists i, d, n. unfold f in Hget.
    rewrite (filtered_by_time_get _ time_le t s e Ht) in Hget.
    destruct (get_measurement t o i d n) as [m|]; [|congruence].
    exists m. split; [reflexivity|].
    destruct (time_le (start m) e && time_le s (end_ m)); [reflexivity|congruence].
  - intros [i [d [n [m [Hget Hc]]]]]. exists i, d, n. unfold f.
    rewrite (filtered_by_time_get _ time_le t s e Ht), Hget, Hc. discriminate.
Qed.

End FilteredFacts.

Section DataSourcesWitness.
Import DataSources.
Local Open Scope string_scope.

Lemma ds_tree_init_spec_witness :
  let pt := fun j => match j with JNum z => Some (Z.to_nat z) | _ => None end in
  let raw := [("SDO", JDict [("AIA", JDict [("171", JDict [("sourceId", JNum 10);
                 ("nickname", JStr "AIA 171"); ("start", JNum 5); ("end", JNum 20)])])]);
              ("Empty", JDict [])] in
  let t := match DataSourceTree_init pt raw with inl t => t | inr _ => [] end in
  json_wf (JDict raw) /\ DataSourceTree_init pt raw = inl t /\
  map fst t = map fst raw /\
  forall o i d n m,
    get_measurement t o i d n = Some m <->
    exists fs, raw_leaf raw o i d n = Some fs /\ build_measurement pt fs o i d n = inl m.
Proof.
  intros pt raw t.
  assert (Hw : json_wf (JDict raw)).
  { simpl. repeat split; repeat constructor; simpl; intuition discriminate. }
  assert (Hi : DataSourceTree_init pt raw = inl t) by (vm_compute; reflexivity).
  split; [exact Hw|]. split; [exact Hi|].
  exact (ds_tree_init_spec _ pt raw t Hw Hi).
Defined.

Lemma filtered_by_time_spec_witness :
  let pt := fun j => match j with JNum z => Some (Z.to_nat z) | _ => None end in
  let raw := [("SDO", JDict [("AIA", JDict [("171", JDict [("sourceId", JNum 10);
                 ("nickname", JStr "AIA 171"); ("start", JNum 5); ("end", JNum 20)])]);
                             ("HMI", JDict [("magnetogram", JDict [("sourceId", JNum 19);
                 ("nickname", JStr "HMI Mag"); ("start", JNum 30); ("end", JNum 40)])])])] in
  let t := match DataSourceTree_init pt raw with inl t => t | inr _ => [] end in
  DataSourceTree_init pt raw = inl t /\
  forall o i d n,
    get_measurement (filtered_by_time Nat.leb t 0%nat 25%nat) o i d n =
      match get_measurement t o i d n with
      | Some m => if Nat.leb (start m) 25%nat && Nat.leb 0%nat (end_ m) then Some m else None
      | None => None
      end.
Proof.
  intros pt raw t.
  assert (Hi : DataSourceTree_init pt raw = inl t) by (vm_compute; reflexivity).
  split; [exact Hi|].
  exact (filtered_by_time_spec _ pt Nat.leb raw t 0%nat 25%nat Hi).
Defined.

Lemma ds_tree_listings_witness :
  let pt := fun j => match j with JNum z => Some (Z.to_nat z) | _ => None end in
  let leaf := fun k : Z => JDict [("sourceId", JNum k); ("nickname", JStr "m");
                                  ("start", JNum 0); ("end", JNum 9)] in
  let raw := [("SDO", JDict [("AIA", JDict [("304", leaf 13%Z); ("171", leaf 10%Z)]);
                             ("HMI", JDict [("magnetogram", leaf 19%Z)])]);
              ("SOHO", JDict [("LASCO", JDict [("C2", JDict [("white-light", leaf 4%Z)])])]);
              ("GONG", JDict [("H-alpha", leaf 80%Z)]);
              ("Empty", JDict [])] in
  let t := match DataSourceTree_init pt raw with inl t => t | inr _ => [] end in
  json_wf (JDict raw) /\ DataSourceTree_init pt raw = inl t /\
  (NoDup (observatories t) /\ Sorted str_le (observatories t) /\
   forall o, In o (observatories t) <-> In o (map fst raw)) /\
  (forall o,
   match instruments t o with
   | None => forall a d n, get_measurement t o (Some a) d n = None
   | Some l =>
       l <> [] /\ NoDup l /\ Sorted str_le l /\
       forall a, In a l <-> exists d n, get_measurement t o (Some a) d n <> None
   end) /\
  (forall o i,
   match detectors t o i with
   | None => forall b n, get_measurement t o i (Some b) n = None
   | Some l =>
       l <> [] /\ NoDup l /\ Sorted str_le l /\
       forall b, In b l <-> exists n, get_measurement t o i (Some b) n <> None
   end) /\
  (forall o i d,
   match measurements t o i d with
   | None => forall n, get_measurement t o i d n = None
   | Some l =>
       l <> [] /\ NoDup l /\ Sorted str_le l /\
       forall n, In n l <-> get_measurement t o i d n <> None
   end).
Proof.
  intros pt leaf raw t.
  assert (Hw : json_wf (JDict raw)).
  { simpl. repeat split; repeat constructor; simpl; intuition discriminate. }
  assert (Hi : DataSourceTree_init pt raw = inl t) by (vm_compute; reflexivity).
  split; [exact Hw|]. split; [exact Hi|].
  exact (ds_tree_listings _ pt raw t Hw Hi).
Defined.

Lemma filtered_observatories_witness :
  let pt := fun j => match j with JNum z => Some (Z.to_nat z) | _ => None end in
  let raw := [("SDO", JDict [("AIA", JDict [("171", JDict [("sourceId", JNum 10);
                 ("nickname", JStr "AIA 171"); ("start", JNum 5); ("end", JNum 20)])])]);
              ("SOHO", JDict [("EIT", JDict [("195", JDict [("sourceId", JNum 1);
                 ("nickname", JStr "EIT 195"); ("start", JNum 30); ("end", JNum 40)])])])] in
  let t := match DataSourceTree_init pt raw with inl t => t | inr _ => [] end in
  DataSourceTree_init pt raw = inl t /\
  observatories (filtered_by_time Nat.leb t 0%nat 25%nat) = ["SDO"] /\
  (NoDup (observatories (filtered_by_time Nat.leb t 0%nat 25%nat)) /\
   Sorted str_le (observatories (filtered_by_time Nat.leb t 0%nat 25%nat)) /\
   forall o, In o (observatories (filtered_by_time Nat.leb t 0%nat 25%nat)) <->
     exists i d n m, get_measurement t o i d n = Some m /\
                     Nat.leb (start m) 25%nat && Nat.leb 0%nat (end_ m) = true).
Proof.
  intros pt raw t.
  assert (Hi : DataSourceTree_init pt raw = inl t) by (vm_compute; reflexivity).
  split; [exact Hi|]. split; [vm_compute; reflexivity|].
  exact (filtered_observatories _ pt Nat.leb raw t 0%nat 25%nat Hi).
Defined.

End DataSourcesWitness.
